(** * MooseSky: word trends over the Bluesky firehose

    A shallow embedding of the ingestion-and-aggregation pipeline of the
    repository (word extractor, aggregation transform, trend query API,
    firehose connector and batch queue), with the properties of its
    specification stated and settled over the embedding.

    Conventions.
    - A JavaScript string is the list of its UTF-16 code units ([list Z]).
    - A JavaScript number that holds an integer (counts, epoch times,
      cursors) is a [Z]; the values at stake stay far below 2^53.
    - A [Date] is its time value in milliseconds since the epoch.
    - Module-level mutable variables become fields of an explicit state
      record that every operation threads through. *)

From Stdlib Require Import ZArith Lia List Bool String Ascii Sorted DecimalZ DecimalPos
  Permutation.
From stdpp Require Import gmap list.
Import ListNotations.

Set Warnings "-register-all".
Local Open Scope Z_scope.

(* ===================================================================== *)
(** * JavaScript strings *)
(* ===================================================================== *)

Module JsString.

Definition jsstring := list Z.

(** Code units of an ASCII literal. *)
Definition js (s : string) : jsstring :=
  List.map (fun a => Z.of_N (N_of_ascii a)) (list_ascii_of_string s).

Definition unit_of (a : ascii) : Z := Z.of_N (N_of_ascii a).

Definition eqc (a : ascii) (c : Z) : bool := c =? unit_of a.

Definition in_range (lo hi c : Z) : bool := (lo <=? c) && (c <=? hi).

Definition isUpper (c : Z) : bool := in_range 65 90 c.
Definition isLower (c : Z) : bool := in_range 97 122 c.
Definition isDigit (c : Z) : bool := in_range 48 57 c.

(** [\w] : [A-Za-z0-9_]. *)
Definition isWordChar (c : Z) : bool :=
  isLower c || isUpper c || isDigit c || (c =? 95).

(** [\s] : the WhiteSpace and LineTerminator code points of ECMAScript. *)
Definition isSpace (c : Z) : bool :=
  in_range 9 13 c || (c =? 32) || (c =? 160) || (c =? 5760)
  || in_range 8192 8202 c || (c =? 8232) || (c =? 8233) || (c =? 8239)
  || (c =? 8287) || (c =? 12288) || (c =? 65279).

(** A letter of a pattern under the [i] flag: the letter in either case. *)
Definition ci (a : ascii) (c : Z) : bool :=
  let u := unit_of a in
  (c =? u) || (isLower u && (c =? u - 32)) || (isUpper u && (c =? u + 32)).

Definition asciiLower (c : Z) : Z := if isUpper c then c + 32 else c.

Fixpoint jsstring_eqb (a b : jsstring) : bool :=
  match a, b with
  | [], [] => true
  | x :: a', y :: b' => (x =? y) && jsstring_eqb a' b'
  | _, _ => false
  end.

Section Lowercase.

(** [String.prototype.toLowerCase] follows the Unicode default case
    conversion.  On ASCII it maps [A-Z] to [a-z] and nothing else; the
    table for the code units outside ASCII belongs to the runtime and
    is a parameter here.  It receives the units before and after the
    one it converts, as the conversion is context sensitive there
    (final sigma, surrogate pairs). *)
Variable lowerNonAscii : jsstring -> Z -> jsstring -> jsstring.

Fixpoint toLowerCase_from (before : jsstring) (s : jsstring) : jsstring :=
  match s with
  | [] => []
  | c :: s' =>
      (if c <? 128 then [asciiLower c] else lowerNonAscii before c s')
        ++ toLowerCase_from (before ++ [c]) s'
  end.

Definition toLowerCase (s : jsstring) : jsstring := toLowerCase_from [] s.

End Lowercase.

(** [String.prototype.trim]: strips [\s] units at both ends. *)
Fixpoint trimStart (s : jsstring) : jsstring :=
  match s with
  | c :: s' => if isSpace c then trimStart s' else s
  | [] => []
  end.

Definition trim (s : jsstring) : jsstring :=
  rev (trimStart (rev (trimStart s))).

End JsString.

(* ===================================================================== *)
(** * Regular expressions, as far as the sources use them *)
(* ===================================================================== *)

Module Regex.
Import JsString.

(** The patterns of the sources are sequences of these atoms. *)
Inductive atom :=
| Chr (p : Z -> bool)    (** one unit of a class *)
| Opt (p : Z -> bool)    (** [x?], greedy *)
| Plus (p : Z -> bool)   (** [x+], greedy *)
| Bol                    (** [^], no [m] flag: index 0 only *)
| Eol.                   (** [$], no [m] flag: end of input only *)

Definition regex := list atom.

(** Greedy repetition with backtracking: the longest run first, then
    shorter ones, until the continuation [k] succeeds. *)
Fixpoint star (p : Z -> bool) (k : jsstring -> option nat) (s : jsstring)
  : option nat :=
  match s with
  | c :: s' =>
      if p c then
        match star p k s' with
        | Some n => Some (S n)
        | None => k s
        end
      else k s
  | [] => k []
  end.

(** [exec r bol s]: match [r] at the head of [s]; [bol] tells whether the
    head of [s] is index 0 of the subject.  Returns the number of units
    the match consumes. *)
Fixpoint exec (r : regex) (bol : bool) (s : jsstring) : option nat :=
  match r with
  | [] => Some 0%nat
  | Chr p :: r' =>
      match s with
      | c :: s' => if p c then S <$> exec r' false s' else None
      | [] => None
      end
  | Opt p :: r' =>
      match s with
      | c :: s' =>
          if p c then
            match exec r' false s' with
            | Some n => Some (S n)
            | None => exec r' bol s
            end
          else exec r' bol s
      | [] => exec r' bol []
      end
  | Plus p :: r' =>
      match s with
      | c :: s' => if p c then S <$> star p (exec r' false) s' else None
      | [] => None
      end
  | Bol :: r' => if bol then exec r' bol s else None
  | Eol :: r' =>
      match s with
      | [] => exec r' bol []
      | _ :: _ => None
      end
  end.

(** [s.replace(/r/g, repl)]: every match from left to right; [skip] counts
    the units of the current match still to be dropped. *)
Fixpoint replaceAll_from (r : regex) (repl : jsstring) (skip : nat)
         (bol : bool) (s : jsstring) : jsstring :=
  match s with
  | [] =>
      match skip, exec r bol [] with
      | O, Some _ => repl
      | _, _ => []
      end
  | c :: s' =>
      match skip with
      | S k => replaceAll_from r repl k false s'
      | O =>
          match exec r bol s with
          | Some (S n) => repl ++ replaceAll_from r repl n false s'
          | Some O => repl ++ c :: replaceAll_from r repl 0 false s'
          | None => c :: replaceAll_from r repl 0 false s'
          end
      end
  end.

Definition replaceAll (r : regex) (repl : jsstring) (s : jsstring) : jsstring :=
  replaceAll_from r repl 0 true s.

(** [s.replace(/r/, repl)] without the [g] flag: the first match only. *)
Fixpoint replaceFirst_from (r : regex) (repl : jsstring) (bol : bool)
         (s : jsstring) : jsstring :=
  match exec r bol s with
  | Some n => repl ++ skipn n s
  | None =>
      match s with
      | [] => []
      | c :: s' => c :: replaceFirst_from r repl false s'
      end
  end.

Definition replaceFirst (r : regex) (repl : jsstring) (s : jsstring) : jsstring :=
  replaceFirst_from r repl true s.

(** [/r/.test(s)]: a match at some index. *)
Fixpoint test_from (r : regex) (bol : bool) (s : jsstring) : bool :=
  match exec r bol s with
  | Some _ => true
  | None =>
      match s with
      | [] => false
      | _ :: s' => test_from r false s'
      end
  end.

Definition test (r : regex) (s : jsstring) : bool := test_from r true s.

(** [s.split(/r/)] (no limit).  [cur] holds, reversed, the units since the
    end of the last separator; an empty match right at that point only
    advances. *)
Fixpoint split_from (r : regex) (skip : nat) (bol : bool) (cur : jsstring)
         (s : jsstring) : list jsstring :=
  match s with
  | [] => [rev cur]
  | c :: s' =>
      match skip with
      | S k => split_from r k false cur s'
      | O =>
          match exec r bol s with
          | Some (S n) => rev cur :: split_from r n false [] s'
          | Some O =>
              match cur with
              | [] => split_from r 0 false [c] s'
              | _ :: _ => rev cur :: split_from r 0 false [c] s'
              end
          | None => split_from r 0 false (c :: cur) s'
          end
      end
  end.

Definition split (r : regex) (s : jsstring) : list jsstring :=
  match s with
  | [] => match exec r true [] with Some _ => [] | None => [[]] end
  | _ :: _ => split_from r 0 true [] s
  end.

End Regex.

(* ===================================================================== *)
(** * Dates (ECMAScript time values) *)
(* ===================================================================== *)

Module JsDate.

Definition msPerDay : Z := 86400000.
Definition msPerHour : Z := 3600000.
Definition msPerMinute : Z := 60000.
Definition msPerSecond : Z := 1000.

Definition Day (t : Z) : Z := t / msPerDay.
Definition TimeWithinDay (t : Z) : Z := t mod msPerDay.

Definition isLeapYear (y : Z) : bool :=
  ((y mod 4 =? 0) && negb (y mod 100 =? 0)) || (y mod 400 =? 0).

Definition DayFromYear (y : Z) : Z :=
  365 * (y - 1970) + (y - 1969) / 4 - (y - 1901) / 100 + (y - 1601) / 400.

(** The largest [y] with [DayFromYear y <= d]: a first estimate from the
    mean length of a Gregorian year, then corrected by at most one. *)
Definition yearFromDay (d : Z) : Z :=
  let y0 := 1970 + (400 * d) / 146097 in
  if d <? DayFromYear y0 then y0 - 1
  else if DayFromYear (y0 + 1) <=? d then y0 + 1
  else y0.

Definition YearFromTime (t : Z) : Z := yearFromDay (Day t).
Definition InLeapYear (t : Z) : Z := if isLeapYear (YearFromTime t) then 1 else 0.
Definition DayWithinYear (t : Z) : Z := Day t - DayFromYear (YearFromTime t).

(** First day of month [m] (0 = January) within a year. *)
Definition monthStart (m leap : Z) : Z :=
  if m =? 0 then 0 else if m =? 1 then 31
  else if m =? 2 then 59 + leap else if m =? 3 then 90 + leap
  else if m =? 4 then 120 + leap else if m =? 5 then 151 + leap
  else if m =? 6 then 181 + leap else if m =? 7 then 212 + leap
  else if m =? 8 then 243 + leap else if m =? 9 then 273 + leap
  else if m =? 10 then 304 + leap else 334 + leap.

Definition monthOfDay (d leap : Z) : Z :=
  if d <? 31 then 0 else if d <? 59 + leap then 1
  else if d <? 90 + leap then 2 else if d <? 120 + leap then 3
  else if d <? 151 + leap then 4 else if d <? 181 + leap then 5
  else if d <? 212 + leap then 6 else if d <? 243 + leap then 7
  else if d <? 273 + leap then 8 else if d <? 304 + leap then 9
  else if d <? 334 + leap then 10 else 11.

Definition MonthFromTime (t : Z) : Z := monthOfDay (DayWithinYear t) (InLeapYear t).

Definition DateFromTime (t : Z) : Z :=
  DayWithinYear t - monthStart (MonthFromTime t) (InLeapYear t) + 1.

Definition HourFromTime (t : Z) : Z := (t / msPerHour) mod 24.
Definition MinFromTime (t : Z) : Z := (t / msPerMinute) mod 60.
Definition SecFromTime (t : Z) : Z := (t / msPerSecond) mod 60.
Definition msFromTime (t : Z) : Z := t mod msPerSecond.

Definition MakeTime (h m s ms : Z) : Z :=
  h * msPerHour + m * msPerMinute + s * msPerSecond + ms.

Definition MakeDay (year month date : Z) : Z :=
  let ym := year + month / 12 in
  let mn := month mod 12 in
  DayFromYear ym + monthStart mn (if isLeapYear ym then 1 else 0) + date - 1.

Definition MakeDate (day time : Z) : Z := day * msPerDay + time.

(** [None] is the time value NaN of an invalid [Date]. *)
Definition TimeClip (t : Z) : option Z :=
  if Z.abs t <=? 8640000000000000 then Some t else None.

Section Zone.

(** Offset of the local zone of the process, in milliseconds, taken as
    constant (a server on UTC has 0).  Time values are taken inside the
    range that [TimeClip] accepts. *)
Variable tza : Z.

Definition LocalTime (t : Z) : Z := t + tza.
Definition UTC (l : Z) : Z := l - tza.

Definition getFullYear (t : Z) : Z := YearFromTime (LocalTime t).
Definition getMonth (t : Z) : Z := MonthFromTime (LocalTime t).
Definition getDate (t : Z) : Z := DateFromTime (LocalTime t).
Definition getHours (t : Z) : Z := HourFromTime (LocalTime t).
Definition getMinutes (t : Z) : Z := MinFromTime (LocalTime t).
Definition getSeconds (t : Z) : Z := SecFromTime (LocalTime t).

(** [new Date(year, month, date, hours, minutes, seconds, ms)], local
    time.  A year from 0 to 99 stands for 1900 + year. *)
Definition newDate (year month date hours minutes seconds ms : Z) : Z :=
  let yr := if (0 <=? year) && (year <=? 99) then 1900 + year else year in
  UTC (MakeDate (MakeDay yr month date) (MakeTime hours minutes seconds ms)).

End Zone.

(** [Date.prototype.toISOString], in UTC. *)
Definition digit (n : Z) : Z := 48 + n mod 10.
Definition pad2 (n : Z) : list Z := [digit (n / 10); digit n].
Definition pad3 (n : Z) : list Z := [digit (n / 100); digit (n / 10); digit n].
Definition pad4 (n : Z) : list Z := digit (n / 1000) :: pad3 n.
Definition pad6 (n : Z) : list Z := digit (n / 100000) :: digit (n / 10000) :: pad4 n.

Definition isoYear (y : Z) : list Z :=
  if (0 <=? y) && (y <=? 9999) then pad4 y
  else if y <? 0 then 45 :: pad6 (- y) else 43 :: pad6 y.

Definition toISOString (t : Z) : list Z :=
  isoYear (YearFromTime t) ++ [45] ++ pad2 (MonthFromTime t + 1) ++ [45]
    ++ pad2 (DateFromTime t) ++ [84] ++ pad2 (HourFromTime t) ++ [58]
    ++ pad2 (MinFromTime t) ++ [58] ++ pad2 (SecFromTime t) ++ [46]
    ++ pad3 (msFromTime t) ++ [90].

End JsDate.

(* ===================================================================== *)
(** * app/ingest/bluesky-transforms.ts *)
(* ===================================================================== *)

Module Transforms.
Import JsString Regex JsDate.

Record BlueskyPost := {
  postId : jsstring;
  text : jsstring;
  createdAt : Z;
  authorDid : jsstring
}.

Record WordOccurrence := {
  intervalTimestamp : Z;
  word : jsstring;
  count : Z
}.

Definition STOP_WORDS : list jsstring := List.map js
  ["a";"an";"the";"and";"or";"but";"nor";"so";"yet";"in";"on";"at";"to";
   "for";"of";"with";"by";"from";"up";"down";"out";"off";"over";"under";
   "into";"through";"about";"between";"after";"before";"is";"are";"was";
   "were";"be";"been";"being";"have";"has";"had";"do";"does";"did";"will";
   "would";"could";"should";"may";"might";"must";"can";"get";"got";"go";
   "going";"went";"come";"came";"make";"made";"take";"took";"i";"me";"my";
   "mine";"myself";"you";"your";"yours";"yourself";"he";"him";"his";
   "himself";"she";"her";"hers";"herself";"it";"its";"itself";"we";"us";
   "our";"ours";"ourselves";"they";"them";"their";"theirs";"themselves";
   "this";"that";"these";"those";"what";"which";"who";"whom";"whose";
   "when";"where";"why";"how";"if";"then";"else";"than";"as";"just";"also";
   "only";"even";"more";"most";"less";"very";"too";"all";"any";"some";"no";
   "not";"yes";"now";"here";"there";"still";"well";"back";"way";"like";
   "know";"think";"see";"want";"say";"said";"really";"much";"one";"two";
   "new";"good";"first";"last";"been";"being";"https";"http";"www";"com"]%string.

(** [STOP_WORDS.has(word)] *)
Definition STOP_WORDS_has (w : jsstring) : bool :=
  existsb (jsstring_eqb w) STOP_WORDS.

Definition MIN_WORD_LENGTH : nat := 3.

(** [/https?:\/\/\S+/gi] *)
Definition URL_RE : regex :=
  [Chr (ci "h"); Chr (ci "t"); Chr (ci "t"); Chr (ci "p"); Opt (ci "s");
   Chr (eqc ":"); Chr (eqc "/"); Chr (eqc "/");
   Plus (fun c => negb (isSpace c))].

(** [/@[\w.]+/g] *)
Definition MENTION_RE : regex :=
  [Chr (eqc "@"); Plus (fun c => isWordChar c || eqc "." c)].

(** [/[^\w\s#]/g] *)
Definition PUNCT_RE : regex :=
  [Chr (fun c => negb (isWordChar c || isSpace c || eqc "#" c))].

(** [/\s+/] *)
Definition SPACES_RE : regex := [Plus isSpace].

(** [/^#+/] *)
Definition HASHES_RE : regex := [Bol; Plus (eqc "#")].

(** [/^\d+$/] *)
Definition NUMBER_RE : regex := [Bol; Plus isDigit; Eol].

Section WithZone.

Variable tza : Z.

(** Truncate a date to 10-second interval precision. *)
Definition truncateToInterval (date : Z) : Z :=
  let seconds := getSeconds tza date / 10 * 10 in
  newDate tza (getFullYear tza date) (getMonth tza date) (getDate tza date)
    (getHours tza date) (getMinutes tza date) seconds 0.

End WithZone.

Section WithLowercase.

Variable lowerNonAscii : jsstring -> Z -> jsstring -> jsstring.

(** Extract and normalize words from text. *)
Definition extractWords (text : jsstring) : list jsstring :=
  let withoutUrls := replaceAll URL_RE [] text in
  let withoutMentions := replaceAll MENTION_RE [] withoutUrls in
  let words :=
    List.filter (fun word => negb (test NUMBER_RE word))
      (List.filter (fun word => negb (STOP_WORDS_has word))
        (List.filter (fun word => (MIN_WORD_LENGTH <=? length word)%nat)
          (List.map (fun word => replaceFirst HASHES_RE [] word)
            (split SPACES_RE
              (replaceAll PUNCT_RE (js " ")
                (toLowerCase lowerNonAscii withoutMentions)))))) in
  words.

End WithLowercase.

(** A [Map<string, number>]: entries in insertion order, one per key. *)
Definition JsMap := list (jsstring * Z).

Fixpoint Map_get (m : JsMap) (k : jsstring) : option Z :=
  match m with
  | [] => None
  | (k', v) :: m' => if jsstring_eqb k' k then Some v else Map_get m' k
  end.

Fixpoint Map_set (m : JsMap) (k : jsstring) (v : Z) : JsMap :=
  match m with
  | [] => [(k, v)]
  | (k', v') :: m' =>
      if jsstring_eqb k' k then (k', v) :: m' else (k', v') :: Map_set m' k v
  end.

(** [x || 0] on an optional number. *)
Definition or_zero (x : option Z) : Z :=
  match x with
  | Some v => if v =? 0 then 0 else v
  | None => 0
  end.

(** The loop [for (const word of words) wordCounts.set(...)]. *)
Definition countWords (words : list jsstring) : JsMap :=
  fold_left (fun wordCounts word =>
               Map_set wordCounts word (or_zero (Map_get wordCounts word) + 1))
            words [].

Section Transform.

Variable tza : Z.
Variable lowerNonAscii : jsstring -> Z -> jsstring -> jsstring.

(** The transform from [BlueskyPost] to [WordOccurrence] records. *)
Definition transform (post : BlueskyPost) : list WordOccurrence :=
  let words := extractWords lowerNonAscii (text post) in
  match words with
  | [] => []
  | _ :: _ =>
      let interval := truncateToInterval tza (createdAt post) in
      let wordCounts := countWords words in
      List.map (fun '(word, count) =>
                  {| intervalTimestamp := interval; word := word; count := count |})
               wordCounts
  end.

End Transform.

End Transforms.

(* ===================================================================== *)
(** * Numbers as text, JSON values, the key/value cache *)
(* ===================================================================== *)

Module JsNumber.
Import JsString.

Fixpoint units_of_uint (d : Decimal.uint) : jsstring :=
  match d with
  | Decimal.Nil => []
  | Decimal.D0 d' => 48 :: units_of_uint d'
  | Decimal.D1 d' => 49 :: units_of_uint d'
  | Decimal.D2 d' => 50 :: units_of_uint d'
  | Decimal.D3 d' => 51 :: units_of_uint d'
  | Decimal.D4 d' => 52 :: units_of_uint d'
  | Decimal.D5 d' => 53 :: units_of_uint d'
  | Decimal.D6 d' => 54 :: units_of_uint d'
  | Decimal.D7 d' => 55 :: units_of_uint d'
  | Decimal.D8 d' => 56 :: units_of_uint d'
  | Decimal.D9 d' => 57 :: units_of_uint d'
  end.

(** [n.toString()] and [`${n}`] for an integer [n]. *)
Definition numToString (n : Z) : jsstring :=
  match Z.to_int n with
  | Decimal.Pos d => units_of_uint d
  | Decimal.Neg d => 45 :: units_of_uint d
  end.

(** Value of a digit in radix [R], if it is one. *)
Definition digitVal (R c : Z) : option Z :=
  let v := if isDigit c then c - 48
           else if isLower c then c - 87
           else if isUpper c then c - 55
           else R in
  if v <? R then Some v else None.

(** Longest prefix of digits, read in radix [R]; [None] when it is empty. *)
Fixpoint readDigits (R : Z) (acc : option Z) (s : jsstring) : option Z :=
  match s with
  | c :: s' =>
      match digitVal R c with
      | Some v => readDigits R (Some (R * default 0 acc + v)) s'
      | None => acc
      end
  | [] => acc
  end.

Definition startsWith0x (s : jsstring) : bool :=
  match s with
  | z :: x :: _ => (z =? 48) && ((x =? 120) || (x =? 88))
  | _ => false
  end.

(** [parseInt(string, radix)] for radix 10 or an omitted radix; [None] is
    [NaN].  An argument that is [undefined] reads as NaN.  The result is
    the integer that the digits denote; the runtime returns the nearest
    double, which is that integer up to 2^53 in magnitude. *)
Definition parseInt (s : option jsstring) (radix : option Z) : option Z :=
  match s with
  | None => None
  | Some s =>
      let s1 := trimStart s in
      let '(sign, s2) :=
        match s1 with
        | c :: r => if c =? 45 then (-1, r) else if c =? 43 then (1, r) else (1, s1)
        | [] => (1, s1)
        end in
      let stripPrefix := match radix with Some 10 => false | _ => true end in
      let '(R, s3) :=
        if stripPrefix && startsWith0x s2 then (16, skipn 2 s2) else (10, s2) in
      (fun v => sign * v) <$> readDigits R None s3
  end.

End JsNumber.

Module Json.
Import JsString.

Inductive json :=
| JNull
| JBool (b : bool)
| JNum (n : Z)
| JStr (s : jsstring)
| JArr (items : list json)
| JObj (fields : list (jsstring * json)).

(** ToBoolean *)
Definition truthy (v : json) : bool :=
  match v with
  | JNull => false
  | JBool b => b
  | JNum n => negb (n =? 0)
  | JStr s => match s with [] => false | _ => true end
  | JArr _ | JObj _ => true
  end.

(** Own properties of an object, in creation order. *)
Definition object := list (jsstring * json).

Fixpoint obj_get (o : object) (k : jsstring) : option json :=
  match o with
  | [] => None
  | (k', v) :: o' => if jsstring_eqb k' k then Some v else obj_get o' k
  end.

(** Define the own property [k] of an object whose keys are no array
    indices (a literal, a spread): the value is replaced in place, or
    the key is added last. *)
Fixpoint obj_set (o : object) (k : jsstring) (v : json) : object :=
  match o with
  | [] => [(k, v)]
  | (k', v') :: o' =>
      if jsstring_eqb k' k then (k', v) :: o' else (k', v') :: obj_set o' k v
  end.

(** An array index as a property key: the canonical decimal text of an
    integer from 0 to 2^32 - 2. *)
Definition arrayIndex (k : jsstring) : option Z :=
  match k with
  | [] => None
  | c :: rest =>
      if forallb isDigit k
         && (negb (c =? 48) || match rest with [] => true | _ :: _ => false end)
      then
        let n := fold_left (fun acc d => acc * 10 + (d - 48)) k 0 in
        if n <=? 4294967294 then Some n else None
      else None
  end.

(** The place of a new own property among the keys
    ([OrdinaryOwnPropertyKeys]): array indices come first, in ascending
    order, then the other keys in creation order. *)
Fixpoint obj_insert_index (n : Z) (k : jsstring) (v : json) (o : object) : object :=
  match o with
  | [] => [(k, v)]
  | (k', v') :: o' =>
      match arrayIndex k' with
      | Some n' =>
          if n' <? n then (k', v') :: obj_insert_index n k v o' else (k, v) :: o
      | None => (k, v) :: o
      end
  end.

Definition obj_insert (o : object) (k : jsstring) (v : json) : object :=
  match arrayIndex k with
  | Some n => obj_insert_index n k v o
  | None => o ++ [(k, v)]
  end.

(** [o[k] = v] on an object that started as [{}].  The key [__proto__]
    runs the setter inherited from [Object.prototype]: it changes the
    prototype and creates no own property.  Any other key sets the own
    property, creating it at its place among the keys if need be.  Only
    the own properties are kept here: they are what [JSON.stringify] and
    the spread read. *)
Definition obj_assign (o : object) (k : jsstring) (v : json) : object :=
  if jsstring_eqb k (js "__proto__") then o
  else
    match obj_get o k with
    | Some _ => obj_set o k v
    | None => obj_insert o k v
    end.

(** [{ ...base, ...v }] for a cached value [v]: only an object
    contributes named fields. *)
Definition spread (base : object) (v : json) : object :=
  match v with
  | JObj fs => fold_left (fun o '(k, x) => obj_set o k x) fs base
  | _ => base
  end.

Definition obj_keys (o : object) : list jsstring := List.map fst o.

Fixpoint obj_remove (o : object) (k : jsstring) : object :=
  match o with
  | [] => []
  | (k', v) :: o' =>
      if jsstring_eqb k' k then obj_remove o' k else (k', v) :: obj_remove o' k
  end.

End Json.

(** [MooseCache]: a key/value store with a time to live per entry.  A value
    comes back as it was stored.  [down = Some message] is a store that
    cannot be reached: every access throws an error with that message. *)
Module MooseCache.
Import JsString Json.

Record t := {
  down : option jsstring;                   (* the error it throws, if any *)
  entries : gmap (list Z) (json * Z)        (* value, expiry in ms *)
}.

Definition empty : t := {| down := None; entries := ∅ |}.

Definition get (c : t) (now : Z) (key : jsstring) : option json :=
  match entries c !! key with
  | Some (v, expiry) => if now <? expiry then Some v else None
  | None => None
  end.

Definition set (c : t) (now : Z) (key : jsstring) (v : json) (ttlSeconds : Z) : t :=
  {| down := down c; entries := <[key := (v, now + ttlSeconds * 1000)]> (entries c) |}.

End MooseCache.

(* ===================================================================== *)
(** * app/apis/trends.ts *)
(* ===================================================================== *)

Module Trends.
Import JsString JsNumber JsDate Json.

(** A row of the [WordTrends] table; [interval] in seconds. *)
Record WordTrend := {
  word : jsstring;
  interval : Z;
  totalCount : Z
}.

(** The trend store as a request finds it. *)
Inductive Store :=
| Unreachable (message : jsstring)
| Table (rows : list WordTrend).

Record Response := { status : Z; body : object }.

(** Format date for ClickHouse ([YYYY-MM-DD HH:MM:SS]): the text is
    represented by the whole second it denotes.  The first 19 characters
    of [toISOString] are such a text for the years 0000 to 9999. *)
Definition formatDateForCH (date : Z) : Z := date / 1000.

Fixpoint insert_by {A} (le : A -> A -> bool) (x : A) (l : list A) : list A :=
  match l with
  | [] => [x]
  | y :: l' => if le x y then x :: l else y :: insert_by le x l'
  end.

(** [ORDER BY] *)
Definition order_by {A} (le : A -> A -> bool) (l : list A) : list A :=
  fold_right (insert_by le) [] l.

(** [SELECT interval, totalCount as count FROM WordTrends
     WHERE word = w AND interval >= from AND interval <= to
     ORDER BY interval ASC] *)
Definition searchQuery (rows : list WordTrend) (w : jsstring) (from to : Z)
  : list WordTrend :=
  order_by (fun a b => interval a <=? interval b)
    (List.filter (fun r => jsstring_eqb (word r) w
                           && (from <=? interval r) && (interval r <=? to))
                 rows).

Definition searchRow_json (r : WordTrend) : json :=
  JObj [(js "interval", JNum (interval r)); (js "count", JNum (totalCount r))].

Record TopRow := { top_word : jsstring; total : Z }.

Fixpoint add_total (acc : list TopRow) (w : jsstring) (n : Z) : list TopRow :=
  match acc with
  | [] => [{| top_word := w; total := n |}]
  | r :: acc' =>
      if jsstring_eqb (top_word r) w
      then {| top_word := w; total := total r + n |} :: acc'
      else r :: add_total acc' w n
  end.

(** [GROUP BY word] with [sum(totalCount)] *)
Definition group_totals (rows : list WordTrend) : list TopRow :=
  fold_left (fun acc r => add_total acc (word r) (totalCount r)) rows [].

(** [SELECT word, sum(totalCount) as total FROM WordTrends
     WHERE interval >= cutoff GROUP BY word ORDER BY total DESC LIMIT limit] *)
Definition topQuery (rows : list WordTrend) (cutoff limit : Z) : list TopRow :=
  firstn (Z.to_nat limit)
    (order_by (fun a b => total b <=? total a)
      (group_totals (List.filter (fun r => cutoff <=? interval r) rows))).

Definition topRow_json (r : TopRow) : json :=
  JObj [(js "word", JStr (top_word r)); (js "total", JNum (total r))].

(** [SELECT count(DISTINCT word), sum(totalCount), min(interval),
     max(interval) FROM WordTrends] *)
Definition statsQuery (rows : list WordTrend) : json :=
  JObj [(js "uniqueWords", JNum (Z.of_nat (length (group_totals rows))));
        (js "totalOccurrences", JNum (fold_right Z.add 0 (List.map totalCount rows)));
        (js "earliestData",
          match rows with
          | [] => JNull
          | r :: rs => JNum (fold_right Z.min (interval r) (List.map interval rs))
          end);
        (js "latestData",
          match rows with
          | [] => JNull
          | r :: rs => JNum (fold_right Z.max (interval r) (List.map interval rs))
          end)].

Definition error400 (message : string) : Response :=
  {| status := 400; body := [(js "error", JStr (js message))] |}.

Definition error500 (message : jsstring) : Response :=
  {| status := 500;
     body := [(js "success", JBool false); (js "error", JStr message)] |}.

Definition ok (fields : object) : Response :=
  {| status := 200; body := (js "success", JBool true) :: fields |}.

(** The message of the RangeError of [toISOString] on an invalid date. *)
Definition invalidTime : jsstring := js "Invalid time value".

(** A [from] or [to] parameter that is present and not empty, as the
    [Date] built from it: [None] is an invalid date. *)
Definition dateParam := option (option Z).

Definition dateJson (t : Z) : json := JStr (toISOString t).

(** [const cached = await cache.get(key); if (cached) ...] *)
Definition cacheHit (cache : MooseCache.t) (now : Z) (key : jsstring) : option json :=
  match MooseCache.get cache now key with
  | Some cached => if truthy cached then Some cached else None
  | None => None
  end.

(** [s.split(",")] *)
Fixpoint splitOn_from (sep : Z) (cur : jsstring) (s : jsstring) : list jsstring :=
  match s with
  | [] => [rev cur]
  | c :: s' =>
      if c =? sep then rev cur :: splitOn_from sep [] s'
      else splitOn_from sep (c :: cur) s'
  end.

Definition splitOn (sep : Z) (s : jsstring) : list jsstring := splitOn_from sep [] s.

(** [words.join(",")] *)
Fixpoint join (sep : jsstring) (l : list jsstring) : jsstring :=
  match l with
  | [] => []
  | [w] => w
  | w :: l' => w ++ sep ++ join sep l'
  end.

Section Handlers.

Variable lowerNonAscii : jsstring -> Z -> jsstring -> jsstring.

Record SearchRequest := {
  q_word : option jsstring;
  q_from : dateParam;
  q_to : dateParam
}.

(** GET /search *)
Definition search (store : Store) (cache : MooseCache.t) (now : Z)
           (req : SearchRequest) : Response * MooseCache.t :=
  match toLowerCase lowerNonAscii <$> q_word req with
  | None | Some [] => (error400 "word parameter is required", cache)
  | Some word =>
      let defaultFrom := now - 60 * 60 * 1000 in
      let from := default (Some defaultFrom) (q_from req) in
      let to := default (Some now) (q_to req) in
      match MooseCache.down cache, from, to with
      | Some message, _, _ => (error500 message, cache)
      | None, Some from, Some to =>
          let cacheKey := js "trends:search:" ++ word ++ js ":"
                            ++ toISOString from ++ js ":" ++ toISOString to in
          match cacheHit cache now cacheKey with
          | Some cached =>
              (ok [(js "cached", JBool true); (js "data", cached)], cache)
          | None =>
              match store with
              | Unreachable message => (error500 message, cache)
              | Table rows =>
                  let data :=
                    JArr (List.map searchRow_json
                            (searchQuery rows word (formatDateForCH from)
                                         (formatDateForCH to))) in
                  (ok [(js "word", JStr word); (js "from", dateJson from);
                       (js "to", dateJson to); (js "data", data)],
                   MooseCache.set cache now cacheKey data 30)
              end
          end
      | None, _, _ => (error500 invalidTime, cache)
      end
  end.

Record TopRequest := {
  q_minutes : option jsstring;
  q_limit : option jsstring
}.

(** [parseInt(x) || d] *)
Definition parseInt_or (x : option jsstring) (d : Z) : Z :=
  match parseInt x None with
  | Some n => if n =? 0 then d else n
  | None => d
  end.

Definition top_minutes (req : TopRequest) : Z := parseInt_or (q_minutes req) 5.
Definition top_limit (req : TopRequest) : Z := parseInt_or (q_limit req) 20.

Definition topKey (minutes limit : Z) : jsstring :=
  js "trends:top:" ++ numToString minutes ++ js ":" ++ numToString limit.

(** GET /top *)
Definition top (store : Store) (cache : MooseCache.t) (now : Z)
           (req : TopRequest) : Response * MooseCache.t :=
  let minutes := top_minutes req in
  let limit := top_limit req in
  match MooseCache.down cache with
  | Some message => (error500 message, cache)
  | None =>
      let cacheKey := topKey minutes limit in
      match cacheHit cache now cacheKey with
      | Some cached =>
          (ok [(js "cached", JBool true); (js "data", cached)], cache)
      | None =>
          match TimeClip (now - minutes * 60 * 1000), store with
          | None, _ => (error500 invalidTime, cache)
          | Some cutoff, Unreachable message => (error500 message, cache)
          | Some cutoff, Table rows =>
              let data :=
                JArr (List.map topRow_json
                        (topQuery rows (formatDateForCH cutoff) limit)) in
              (ok [(js "minutes", JNum minutes); (js "limit", JNum limit);
                   (js "data", data)],
               MooseCache.set cache now cacheKey data 15)
          end
      end
  end.

Record CompareRequest := {
  q_words : option jsstring;
  q_cfrom : dateParam;
  q_cto : dateParam
}.

(** The cleaned word list of /compare. *)
Definition cleanWords (wordsParam : jsstring) : list jsstring :=
  List.filter (fun w => (0 <? length w)%nat)
    (List.map (fun w => toLowerCase lowerNonAscii (trim w))
              (splitOn 44 wordsParam)).

(** The loop that queries each word and stores [results[word]]. *)
Definition compareResults (rows : list WordTrend) (words : list jsstring)
           (from to : Z) : object :=
  fold_left
    (fun results word =>
       obj_assign results word
         (JArr (List.map searchRow_json
                  (searchQuery rows word (formatDateForCH from)
                               (formatDateForCH to)))))
    words [].

(** GET /compare *)
Definition compare (store : Store) (cache : MooseCache.t) (now : Z)
           (req : CompareRequest) : Response * MooseCache.t :=
  match q_words req with
  | None | Some [] => (error400 "words parameter is required", cache)
  | Some wordsParam =>
      let words := cleanWords wordsParam in
      if (length words =? 0)%nat then
        (error400 "At least one word is required", cache)
      else if (10 <? length words)%nat then
        (error400 "Maximum 10 words allowed", cache)
      else
        let defaultFrom := now - 60 * 60 * 1000 in
        let from := default (Some defaultFrom) (q_cfrom req) in
        let to := default (Some now) (q_cto req) in
        match MooseCache.down cache, from, to with
        | Some message, _, _ => (error500 message, cache)
        | None, Some from, Some to =>
            let cacheKey := js "trends:compare:" ++ join (js ",") words ++ js ":"
                              ++ toISOString from ++ js ":" ++ toISOString to in
            match cacheHit cache now cacheKey with
            | Some cached =>
                ({| status := 200;
                    body := spread [(js "success", JBool true);
                                    (js "cached", JBool true)] cached |},
                 cache)
            | None =>
                match store with
                | Unreachable message => (error500 message, cache)
                | Table rows =>
                    let results := compareResults rows words from to in
                    let response :=
                      [(js "words", JArr (List.map JStr words));
                       (js "from", dateJson from); (js "to", dateJson to);
                       (js "data", JObj results)] in
                    ({| status := 200;
                        body := spread [(js "success", JBool true)] (JObj response) |},
                     MooseCache.set cache now cacheKey (JObj response) 30)
                end
            end
        | None, _, _ => (error500 invalidTime, cache)
        end
  end.

(** GET /stats *)
Definition stats (store : Store) (cache : MooseCache.t) (now : Z)
  : Response * MooseCache.t :=
  match MooseCache.down cache with
  | Some message => (error500 message, cache)
  | None =>
      let cacheKey := js "trends:stats" in
      match cacheHit cache now cacheKey with
      | Some cached =>
          ({| status := 200;
              body := spread [(js "success", JBool true);
                              (js "cached", JBool true)] cached |},
           cache)
      | None =>
          match store with
          | Unreachable message => (error500 message, cache)
          | Table rows =>
              let stats := statsQuery rows in
              ({| status := 200;
                  body := spread [(js "success", JBool true)] stats |},
               MooseCache.set cache now cacheKey stats 60)
          end
      end
  end.

End Handlers.

End Trends.

(* ===================================================================== *)
(** * packages/moosestack-service/app/workflows/firehose.ts *)
(* ===================================================================== *)

Module Firehose.
Import JsString JsNumber Json Transforms.

Definition JETSTREAM_BASE_URL : jsstring :=
  js "wss://jetstream2.us-east.bsky.network/subscribe?wantedCollections=app.bsky.feed.post".

Definition CURSOR_KEY : jsstring := js "bluesky:firehose:cursor".

Definition BATCH_SIZE : nat := 100.
Definition BATCH_INTERVAL_MS : Z := 500.
Arguments BATCH_SIZE : simpl never.

Definition POST_COLLECTION : jsstring := js "app.bsky.feed.post".

Record PostRecord := {
  record_text : jsstring;
  record_createdAt : jsstring
}.

Record Commit := {
  operation : jsstring;
  collection : jsstring;
  rkey : jsstring;
  record : option PostRecord
}.

(** A message of the feed after [JSON.parse]. *)
Record JetStreamMessage := {
  did : jsstring;
  time_us : Z;
  kind : jsstring;
  commit : option Commit
}.

(** The module-level variables of the connector, the counter of the open
    connection, and what the connector acts on: the pending timeouts of
    the event loop (handle and due time), the batches handed to the
    stream, and the cache that keeps the cursor. *)
Record State := {
  postBatch : list BlueskyPost;
  batchTimer : option nat;
  postsProcessed : Z;
  lastStatsTime : Z;
  currentCursor : Z;
  messageCount : Z;
  timeouts : list (nat * Z);
  nextHandle : nat;
  sent : list (list BlueskyPost);
  cache : MooseCache.t
}.

Definition initial (startedAt : Z) (cache : MooseCache.t) : State :=
  {| postBatch := []; batchTimer := None; postsProcessed := 0;
     lastStatsTime := startedAt; currentCursor := 0; messageCount := 0;
     timeouts := []; nextHandle := 0; sent := []; cache := cache |}.

(** Assignments to one variable of the state. *)
Definition set_batch (batch : list BlueskyPost) (timer : option nat) (st : State) : State :=
  {| postBatch := batch; batchTimer := timer;
     postsProcessed := postsProcessed st; lastStatsTime := lastStatsTime st;
     currentCursor := currentCursor st; messageCount := messageCount st;
     timeouts := timeouts st; nextHandle := nextHandle st;
     sent := sent st; cache := cache st |}.

Definition set_stats (processed : Z) (statsTime : Z) (st : State) : State :=
  {| postBatch := postBatch st; batchTimer := batchTimer st;
     postsProcessed := processed; lastStatsTime := statsTime;
     currentCursor := currentCursor st; messageCount := messageCount st;
     timeouts := timeouts st; nextHandle := nextHandle st;
     sent := sent st; cache := cache st |}.

Definition set_cursor (cursor : Z) (count : Z) (st : State) : State :=
  {| postBatch := postBatch st; batchTimer := batchTimer st;
     postsProcessed := postsProcessed st; lastStatsTime := lastStatsTime st;
     currentCursor := cursor; messageCount := count;
     timeouts := timeouts st; nextHandle := nextHandle st;
     sent := sent st; cache := cache st |}.

Definition set_timeouts (pending : list (nat * Z)) (next : nat) (st : State) : State :=
  {| postBatch := postBatch st; batchTimer := batchTimer st;
     postsProcessed := postsProcessed st; lastStatsTime := lastStatsTime st;
     currentCursor := currentCursor st; messageCount := messageCount st;
     timeouts := pending; nextHandle := next;
     sent := sent st; cache := cache st |}.

Definition set_sent (batches : list (list BlueskyPost)) (st : State) : State :=
  {| postBatch := postBatch st; batchTimer := batchTimer st;
     postsProcessed := postsProcessed st; lastStatsTime := lastStatsTime st;
     currentCursor := currentCursor st; messageCount := messageCount st;
     timeouts := timeouts st; nextHandle := nextHandle st;
     sent := batches; cache := cache st |}.

Definition set_cache (c : MooseCache.t) (st : State) : State :=
  {| postBatch := postBatch st; batchTimer := batchTimer st;
     postsProcessed := postsProcessed st; lastStatsTime := lastStatsTime st;
     currentCursor := currentCursor st; messageCount := messageCount st;
     timeouts := timeouts st; nextHandle := nextHandle st;
     sent := sent st; cache := c |}.

(** [cache.set(CURSOR_KEY, cursor.toString(), 7 days)]; a failure is
    logged and nothing else. *)
Definition saveCursor (now : Z) (cursor : Z) (c : MooseCache.t) : MooseCache.t :=
  match MooseCache.down c with
  | Some _ => c
  | None => MooseCache.set c now CURSOR_KEY (JStr (numToString cursor))
                           (60 * 60 * 24 * 7)
  end.

(** The stored cursor, or 24 hours ago in microseconds.  A stored text
    that is no number reads as NaN, represented by 0: the connector only
    ever tests the cursor with [> 0], which both fail. *)
Definition loadCursor (now : Z) (c : MooseCache.t) : Z :=
  let fallback :=
    let twentyFourHoursAgoMs := now - 24 * 60 * 60 * 1000 in
    twentyFourHoursAgoMs * 1000 in
  match MooseCache.down c with
  | Some _ => fallback
  | None =>
      match MooseCache.get c now CURSOR_KEY with
      | Some (JStr (u :: value)) => default 0 (parseInt (Some (u :: value)) (Some 10))
      | _ => fallback
      end
  end.

(** Parse JetStream message and extract BlueskyPost. *)
Definition parseJetStreamMessage (data : option JetStreamMessage)
  : option BlueskyPost :=
  match data with
  | None => None
  | Some msg =>
      match commit msg with
      | Some c =>
          match record c with
          | Some r =>
              if negb (jsstring_eqb (kind msg) (js "commit"))
                 || negb (jsstring_eqb (operation c) (js "create"))
                 || negb (jsstring_eqb (collection c) POST_COLLECTION)
                 || (length (record_text r) =? 0)%nat
              then None
              else Some {| postId := js "at://" ++ did msg ++ js "/app.bsky.feed.post/"
                                       ++ rkey c;
                           text := record_text r;
                           createdAt := Z.quot (time_us msg) 1000;
                           authorDid := did msg |}
          | None => None
          end
      | None => None
      end
  end.

(** Log stats periodically. *)
Definition logStats (now : Z) (st : State) : State :=
  if 60 * 1000 <=? now - lastStatsTime st then set_stats 0 now st else st.

(** [clearTimeout(h)] *)
Definition clearTimeout (h : nat) (pending : list (nat * Z)) : list (nat * Z) :=
  List.filter (fun e => negb (Nat.eqb (fst e) h)) pending.

(** [setTimeout(flushBatch, delay)]: the new handle and the state. *)
Definition setTimeout (now delay : Z) (st : State) : nat * State :=
  let h := nextHandle st in
  (h, set_timeouts (timeouts st ++ [(h, now + delay)]) (S h) st).

(** Flush batch to Kafka: up to the call of [send].  What follows the
    [await] is [sendSettled]. *)
Definition flushBatch (st : State) : State :=
  let st1 :=
    match batchTimer st with
    | Some h =>
        set_batch (postBatch st) None
          (set_timeouts (clearTimeout h (timeouts st)) (nextHandle st) st)
    | None => st
    end in
  match postBatch st1 with
  | [] => st1
  | _ :: _ =>
      let batch := postBatch st1 in
      set_sent (sent st1 ++ [batch]) (set_batch [] (batchTimer st1) st1)
  end.

Definition sendSettled (succeeded : bool) (batchLength : Z) (st : State) : State :=
  if succeeded
  then set_stats (postsProcessed st + batchLength) (lastStatsTime st) st
  else st.

(** Queue post for batched sending. *)
Definition queuePost (now : Z) (post : BlueskyPost) (st : State) : State :=
  let st1 := set_batch (postBatch st ++ [post]) (batchTimer st) st in
  if (BATCH_SIZE <=? length (postBatch st1))%nat then flushBatch st1
  else
    match batchTimer st1 with
    | Some _ => st1
    | None =>
        let '(h, st2) := setTimeout now BATCH_INTERVAL_MS st1 in
        set_batch (postBatch st2) (Some h) st2
    end.

(** The position part of the message handler. *)
Definition trackCursor (now : Z) (data : option JetStreamMessage) (st : State)
  : State :=
  match data with
  | None => st
  | Some rawMsg =>
      if time_us rawMsg =? 0 then st
      else
        let st1 := set_cursor (time_us rawMsg) (messageCount st + 1) st in
        if messageCount st1 mod 1000 =? 0 then
          logStats now
            (set_cache (saveCursor now (currentCursor st1) (cache st1)) st1)
        else st1
  end.

(** [ws.on("message", ...)] *)
Definition onMessage (now : Z) (data : option JetStreamMessage) (st : State)
  : State :=
  let st1 := trackCursor now data st in
  match parseJetStreamMessage data with
  | Some post => queuePost now post st1
  | None => st1
  end.

(** [ws.on("close", ...)] *)
Definition onClose (now : Z) (st : State) : State :=
  let st1 := flushBatch st in
  if 0 <? currentCursor st1
  then set_cache (saveCursor now (currentCursor st1) (cache st1)) st1
  else st1.

(** The URL that [connectAndProcess] opens. *)
Definition connectUrl (st : State) : jsstring :=
  if 0 <? currentCursor st
  then JETSTREAM_BASE_URL ++ js "&cursor=" ++ numToString (currentCursor st)
  else JETSTREAM_BASE_URL.

(** [connectAndProcess] up to the new socket: a fresh message counter. *)
Definition connect (st : State) : State := set_cursor (currentCursor st) 0 st.

(** Start of [firehoseTask.run]: [currentCursor = await loadCursor()]. *)
Definition start (now : Z) (st : State) : State :=
  set_cursor (loadCursor now (cache st)) (messageCount st) st.

(** What can happen to the connector. *)
Inductive event :=
| Start
| Connect
| Message (data : option JetStreamMessage)
| TimerFires (h : nat)
| SendSettled (succeeded : bool) (batchLength : Z)
| Close.

(** A pending timeout leaves the table and runs its callback,
    [flushBatch], once it is due. *)
Definition onTimer (now : Z) (h : nat) (st : State) : option State :=
  match List.find (fun e => Nat.eqb (fst e) h) (timeouts st) with
  | Some (_, due) =>
      if due <=? now
      then Some (flushBatch
                   (set_timeouts (clearTimeout h (timeouts st)) (nextHandle st) st))
      else None
  | None => None
  end.

Definition step (now : Z) (e : event) (st : State) : option State :=
  match e with
  | Start => Some (start now st)
  | Connect => Some (connect st)
  | Message data => Some (onMessage now data st)
  | TimerFires h => onTimer now h st
  | SendSettled succeeded n => Some (sendSettled succeeded n st)
  | Close => Some (onClose now st)
  end.

Inductive reachable : State -> Prop :=
| reachable_initial startedAt cache : reachable (initial startedAt cache)
| reachable_step st now e st' :
    reachable st -> step now e st = Some st' -> reachable st'.

End Firehose.

(* ===================================================================== *)
(** * The cache that the API and the connector share *)
(* ===================================================================== *)

Module SharedCache.
Import JsString Json Trends Firehose.

(** [key.startsWith(prefix)] *)
Fixpoint startsWith (prefix s : jsstring) : bool :=
  match prefix, s with
  | [], _ => true
  | p :: prefix', c :: s' => (p =? c) && startsWith prefix' s'
  | _ :: _, [] => false
  end.

Section Writers.

Variable lowerNonAscii : jsstring -> Z -> jsstring -> jsstring.

(** The states of the cache.  It starts empty.  The four handlers of the
    API write their answers to it; the connector writes its cursor to
    the same [MooseCache] ([saveCursor]); other users of the store write
    under keys of their own (the [bar:] keys of [BarApi]), never under
    the [trends:top:] keys.  The store can go out of reach and come
    back. *)
Inductive served : MooseCache.t -> Prop :=
| served_empty : served MooseCache.empty
| served_search store cache now req :
    served cache -> served (search lowerNonAscii store cache now req).2
| served_top store cache now req :
    served cache -> served (top store cache now req).2
| served_compare store cache now req :
    served cache -> served (compare lowerNonAscii store cache now req).2
| served_stats store cache now :
    served cache -> served (stats store cache now).2
| served_cursor cache now cursor :
    served cache -> served (saveCursor now cursor cache)
| served_other cache now key v ttl :
    startsWith (js "trends:top:") key = false ->
    served cache -> served (MooseCache.set cache now key v ttl)
| served_outage cache message :
    served cache ->
    served {| MooseCache.down := message;
              MooseCache.entries := MooseCache.entries cache |}.

End Writers.

End SharedCache.

(* ===================================================================== *)
(** * Notions used to state the properties *)
(* ===================================================================== *)

Module Notions.
Import JsString Json.

(** Number of occurrences of a token in a list of tokens. *)
Definition occurrences (w : jsstring) (words : list jsstring) : Z :=
  Z.of_nat (length (List.filter (jsstring_eqb w) words)).

Definition mapKeys (m : Transforms.JsMap) : list jsstring := List.map fst m.
Definition sumCounts (m : Transforms.JsMap) : Z := fold_right Z.add 0 (List.map snd m).

Definition isDecimal (c : Z) : Prop := 48 <= c <= 57.

(** Rows in non-increasing order of their total. *)
Definition by_total_desc (a b : Trends.TopRow) : Prop := Trends.total b <= Trends.total a.

(** What the cache holds under the key of a /top request: rows in
    descending order of their total, no more than the limit. *)
Definition top_entries_fit (cache : MooseCache.t) : Prop :=
  forall minutes limit v expiry,
    MooseCache.entries cache !! Trends.topKey minutes limit = Some (v, expiry) ->
    exists rows, v = JArr (List.map Trends.topRow_json rows)
                 /\ (length rows <= Z.to_nat limit)%nat
                 /\ StronglySorted by_total_desc rows.

(** The series of one word over a window, as /search and /compare
    return it. *)
Definition series (rows : list Trends.WordTrend) (from to : Z) (w : jsstring) : json :=
  JArr (List.map Trends.searchRow_json
          (Trends.searchQuery rows w (Trends.formatDateForCH from)
                              (Trends.formatDateForCH to))).

(** The queue between two events: fewer posts than a full batch, and a
    pending timeout exactly while the batch is open; it is the one
    [batchTimer] holds. *)
Definition queue_ok (st : Firehose.State) : Prop :=
  (length (Firehose.postBatch st) < Firehose.BATCH_SIZE)%nat
  /\ ((Firehose.postBatch st = [] /\ Firehose.batchTimer st = None
       /\ Firehose.timeouts st = [])
      \/ (Firehose.postBatch st <> []
          /\ exists h due, Firehose.batchTimer st = Some h
                           /\ Firehose.timeouts st = [(h, due)])).

(** A case table for a handful of letters outside ASCII: the Kelvin sign,
    capital I with dot above, and the Latin-1 capitals. *)
Definition sampleLower (before : jsstring) (c : Z) (after : jsstring) : jsstring :=
  if c =? 8490 then [107]
  else if c =? 304 then [105; 775]
  else if in_range 192 222 c && negb (c =? 215) then [c + 32]
  else [c].

(** A message of the feed that is no post. *)
Definition identityEvent (position : Z) : Firehose.JetStreamMessage :=
  {| Firehose.did := js "did:plc:ewvi7nxzyoun6zhxrhs64oiz";
     Firehose.time_us := position;
     Firehose.kind := js "identity"; Firehose.commit := None |}.

(** Sample posts, and posts [1 .. n] queued at the same instant. *)
Definition samplePost (n : nat) : Transforms.BlueskyPost :=
  {| Transforms.postId :=
       js "at://did:plc:a/app.bsky.feed.post/" ++ JsNumber.numToString (Z.of_nat n);
     Transforms.text := js "moose";
     Transforms.createdAt := 1709210096789;
     Transforms.authorDid := js "did:plc:a" |}.

Definition queueMany (now : Z) (n : nat) (st : Firehose.State) : Firehose.State :=
  fold_left (fun s k => Firehose.queuePost now (samplePost k) s) (seq 1 n) st.

End Notions.

(* ===================================================================== *)
(** * Notions for the queries, the feed and the request windows *)
(* ===================================================================== *)

Module QueryNotions.
Import JsString Json Trends.

(** A row of the table that /search asks for. *)
Definition matches (w : jsstring) (from to : Z) (r : WordTrend) : Prop :=
  word r = w /\ from <= interval r <= to.

(** Sum of the counts of a word over the rows at or after the cutoff. *)
Definition windowSum (cutoff : Z) (w : jsstring) (rows : list WordTrend) : Z :=
  fold_right Z.add 0
    (List.map totalCount
       (List.filter (fun r => jsstring_eqb (word r) w && (cutoff <=? interval r)) rows)).

(** The word has a row at or after the cutoff. *)
Definition inWindow (cutoff : Z) (w : jsstring) (rows : list WordTrend) : Prop :=
  exists r, List.In r rows /\ word r = w /\ cutoff <= interval r.

(** Sum of the counts of a word over rows. *)
Definition wordSum (w : jsstring) (rows : list WordTrend) : Z :=
  fold_right Z.add 0
    (List.map totalCount (List.filter (fun r => jsstring_eqb (word r) w) rows)).

Definition hasWord (w : jsstring) (rows : list WordTrend) : bool :=
  existsb (fun r => jsstring_eqb (word r) w) rows.

(** The total a list of groups holds for a word. *)
Fixpoint groupTotal (acc : list TopRow) (w : jsstring) : option Z :=
  match acc with
  | [] => None
  | g :: acc' => if jsstring_eqb (top_word g) w then Some (total g) else groupTotal acc' w
  end.

End QueryNotions.

Module FeedNotions.
Import JsString Json Transforms Firehose.

(** Events applied in order, each at its time. *)
Fixpoint run (events : list (Z * event)) (st : State) : option State :=
  match events with
  | [] => Some st
  | (now, e) :: rest =>
      match step now e st with
      | Some st' => run rest st'
      | None => None
      end
  end.

(** The posts that the messages among the events turn into. *)
Definition accepted (events : list (Z * event)) : list BlueskyPost :=
  flat_map (fun timed =>
              match snd timed with
              | Message data =>
                  match parseJetStreamMessage data with
                  | Some post => [post]
                  | None => []
                  end
              | _ => []
              end)
           events.

(** Messages handled in order, each at its time. *)
Definition handleAll (messages : list (Z * option JetStreamMessage)) (st : State) : State :=
  fold_left (fun s m => onMessage (fst m) (snd m) s) messages st.

(** The messages that carry a position. *)
Definition positioned (messages : list (Z * option JetStreamMessage)) : nat :=
  length (List.filter (fun m => match snd m with
                                | Some msg => negb (time_us msg =? 0)
                                | None => false
                                end) messages).

(** A message of the feed that carries a post. *)
Definition postEvent (position : Z) (body : jsstring) : JetStreamMessage :=
  {| did := js "did:plc:ewvi7nxzyoun6zhxrhs64oiz";
     time_us := position;
     kind := js "commit";
     commit := Some {| operation := js "create";
                       collection := POST_COLLECTION;
                       rkey := js "3kmxvqzhd2s2a";
                       record := Some {| record_text := body;
                                         record_createdAt := js "2024-02-29T12:34:56.789Z" |} |} |}.

End FeedNotions.

Module WindowNotions.
Import JsDate.

(** An integer that a JavaScript number holds exactly
    ([Number.isSafeInteger]). *)
Definition safeInteger (n : Z) : Prop := Z.abs n <= 9007199254740991.

(** A date that [toISOString] writes with a year of four digits. *)
Definition fourDigitYear (t : Z) : Prop := 0 <= YearFromTime t <= 9999.

End WindowNotions.

(* ===================================================================== *)
(** * The batch queue of the earlier connector *)
(* ===================================================================== *)

Module Legacy.
Import JsString Json Transforms Firehose.

(** The earlier connector, which posts its batches to the ingest
    endpoint: the batch queue.  It shares the state of the connector;
    [sent] holds the batches passed to [sendBatch]. *)

Definition BATCH_SIZE : nat := 100.
Definition BATCH_INTERVAL_MS : Z := 1000.
Arguments BATCH_SIZE : simpl never.

(** Flush the current batch: up to the call of [sendBatch], which is
    not awaited. *)
Definition flushBatch (st : State) : State :=
  let st1 :=
    match batchTimer st with
    | Some h =>
        set_batch (postBatch st) None
          (set_timeouts (clearTimeout h (timeouts st)) (nextHandle st) st)
    | None => st
    end in
  if (0 <? length (postBatch st1))%nat then
    let batch := postBatch st1 in
    set_sent (sent st1 ++ [batch]) (set_batch [] (batchTimer st1) st1)
  else st1.

(** Queue a post for batched ingestion. *)
Definition queuePost (now : Z) (post : BlueskyPost) (st : State) : State :=
  let st1 := set_batch (postBatch st ++ [post]) (batchTimer st) st in
  let st2 :=
    if (BATCH_SIZE <=? length (postBatch st1))%nat then flushBatch st1 else st1 in
  match batchTimer st2 with
  | Some _ => st2
  | None =>
      let '(h, st3) := setTimeout now BATCH_INTERVAL_MS st2 in
      set_batch (postBatch st3) (Some h) st3
  end.

(** A pending timeout leaves the table and runs its callback,
    [() => { flushBatch(); }], once it is due. *)
Definition onTimer (now : Z) (h : nat) (st : State) : option State :=
  match List.find (fun e => Nat.eqb (fst e) h) (timeouts st) with
  | Some (_, due) =>
      if due <=? now
      then Some (flushBatch
                   (set_timeouts (clearTimeout h (timeouts st)) (nextHandle st) st))
      else None
  | None => None
  end.

(** What happens to the queue: a post arrives, a timeout fires, the
    connection closes (which flushes). *)
Inductive reachable : State -> Prop :=
| reachable_initial startedAt cache : reachable (initial startedAt cache)
| reachable_post st now post : reachable st -> reachable (queuePost now post st)
| reachable_timer st now h st' :
    reachable st -> onTimer now h st = Some st' -> reachable st'
| reachable_close st : reachable st -> reachable (flushBatch st).

(** Between two events: fewer posts than a full batch; either no
    timeout and nothing queued, or the one timeout [batchTimer] holds. *)
Definition queue_ok (st : State) : Prop :=
  (length (postBatch st) < BATCH_SIZE)%nat
  /\ ((postBatch st = [] /\ batchTimer st = None /\ timeouts st = [])
      \/ exists h due, batchTimer st = Some h /\ timeouts st = [(h, due)]).

(** Posts [1 .. n] queued at the same instant. *)
Definition queueMany (now : Z) (n : nat) (st : State) : State :=
  fold_left (fun s k => queuePost now (Notions.samplePost k) s) (seq 1 n) st.

End Legacy.

(* ===================================================================== *)
(** * The embedding on small inputs *)
(* ===================================================================== *)

Module Checks.
Import JsString JsNumber JsDate Regex Json Transforms Trends Firehose Notions.

Example split_keeps_empty_ends :
  split SPACES_RE (js " a  b ") = [js ""; js "a"; js "b"; js ""].
Proof. reflexivity. Qed.

Example split_empty_text : split SPACES_RE (js "") = [js ""].
Proof. reflexivity. Qed.

Example url_any_case :
  replaceAll URL_RE [] (js "see HTTPS://Example.org/a?b=1 and http://x.y now")
  = js "see  and  now".
Proof. reflexivity. Qed.

Example url_needs_a_target : replaceAll URL_RE [] (js "https:// x") = js "https:// x".
Proof. reflexivity. Qed.

Example mention_with_dots :
  replaceAll MENTION_RE [] (js "hi @bob.bsky.social! mail a@b.c") = js "hi ! mail a".
Proof. reflexivity. Qed.

Example hashes_only_in_front :
  replaceFirst HASHES_RE [] (js "##tag#x") = js "tag#x"
  /\ replaceFirst HASHES_RE [] (js "a#b") = js "a#b".
Proof. split; reflexivity. Qed.

Example number_test :
  test NUMBER_RE (js "2024") = true
  /\ test NUMBER_RE (js "2024x") = false
  /\ test NUMBER_RE (js "") = false.
Proof. repeat split; reflexivity. Qed.

Example extract_keeps_duplicates :
  extractWords sampleLower (js "Moose moose MOOSE! The #moose, 42 & 7th @elk.bsky.social")
  = [js "moose"; js "moose"; js "moose"; js "moose"; js "7th"].
Proof. vm_compute. reflexivity. Qed.

Example iso_epoch : toISOString 0 = js "1970-01-01T00:00:00.000Z".
Proof. vm_compute. reflexivity. Qed.

Example iso_leap_day : toISOString 1709210096789 = js "2024-02-29T12:34:56.789Z".
Proof. vm_compute. reflexivity. Qed.

Example iso_before_epoch : toISOString (-1) = js "1969-12-31T23:59:59.999Z".
Proof. vm_compute. reflexivity. Qed.

Example truncate_today :
  toISOString (truncateToInterval 0 1709210096789) = js "2024-02-29T12:34:50.000Z".
Proof. vm_compute. reflexivity. Qed.

Example truncate_other_zone :
  truncateToInterval (-18000000) 1709210096789 = 1709210090000.
Proof. vm_compute. reflexivity. Qed.

Example number_text :
  numToString 1700000000000000 = js "1700000000000000"
  /\ numToString 0 = js "0" /\ numToString (-12) = js "-12".
Proof. vm_compute. repeat split; reflexivity. Qed.

Example parseInt_samples :
  parseInt (Some (js " 42px")) None = Some 42
  /\ parseInt (Some (js "0x1F")) None = Some 31
  /\ parseInt (Some (js "0x1F")) (Some 10) = Some 0
  /\ parseInt (Some (js "-7")) (Some 10) = Some (-7)
  /\ parseInt (Some (js "abc")) None = None
  /\ parseInt None None = None.
Proof. vm_compute. repeat split; reflexivity. Qed.

Example top_defaults :
  top_minutes {| q_minutes := None; q_limit := None |} = 5
  /\ top_limit {| q_minutes := None; q_limit := None |} = 20
  /\ top_limit {| q_minutes := None; q_limit := Some (js "0") |} = 20
  /\ top_limit {| q_minutes := None; q_limit := Some (js "7") |} = 7.
Proof. vm_compute. repeat split; reflexivity. Qed.

Example transform_sample :
  transform 0 sampleLower
    {| postId := js "at://did:plc:a/app.bsky.feed.post/1";
       text := js "Moose and moose: the #Moose of Bluesky!";
       createdAt := 1709210096789;
       authorDid := js "did:plc:a" |}
  = [{| intervalTimestamp := 1709210090000; Transforms.word := js "moose"; count := 3 |};
     {| intervalTimestamp := 1709210090000; Transforms.word := js "bluesky"; count := 1 |}].
Proof. vm_compute. reflexivity. Qed.

Example transform_nothing_left :
  transform 0 sampleLower
    {| postId := js "at://did:plc:a/app.bsky.feed.post/2";
       text := js "It is 42 :) https://bsky.app";
       createdAt := 1709210096789;
       authorDid := js "did:plc:a" |}
  = [].
Proof. vm_compute. reflexivity. Qed.

Example ninety_nine_posts_wait :
  let st := queueMany 1000 99 (initial 0 MooseCache.empty) in
  sent st = [] /\ length (postBatch st) = 99%nat
  /\ batchTimer st = Some 0%nat /\ timeouts st = [(0%nat, 1500)].
Proof. vm_compute. repeat split; reflexivity. Qed.

Example hundred_posts_flush_at_once :
  let st := queueMany 1000 100 (initial 0 MooseCache.empty) in
  List.map (@length BlueskyPost) (sent st) = [100%nat]
  /\ postBatch st = [] /\ batchTimer st = None /\ timeouts st = [].
Proof. vm_compute. repeat split; reflexivity. Qed.

Example timer_flushes_short_batch :
  let st := queueMany 1000 3 (initial 0 MooseCache.empty) in
  onTimer 1499 0 st = None
  /\ (List.map (@length BlueskyPost) ∘ sent) <$> onTimer 1500 0 st = Some [3%nat]
  /\ timeouts <$> onTimer 1500 0 st = Some [].
Proof. vm_compute. repeat split; reflexivity. Qed.

Example ten_words_accepted :
  status (compare sampleLower (Table []) MooseCache.empty 1700000000000
            {| q_words := Some (js "a, B ,c,d,e,f,g,h,i,j,,");
               q_cfrom := None; q_cto := None |}).1 = 200.
Proof. vm_compute. reflexivity. Qed.

(** The keys of the object that /compare fills: array indices first, in
    ascending order, then the other words as they came; a word asked
    twice keeps its place, and [__proto__] makes no key. *)
Example compare_keys_in_order :
  obj_keys (compareResults [] [js "sky"; js "10"; js "moose"; js "__proto__";
                               js "9"; js "sky"; js "007"]
                           1699999000000 1700000100000)
  = [js "9"; js "10"; js "sky"; js "moose"; js "007"].
Proof. vm_compute. reflexivity. Qed.

Example array_index_samples :
  arrayIndex (js "0") = Some 0
  /\ arrayIndex (js "4294967294") = Some 4294967294
  /\ arrayIndex (js "4294967295") = None
  /\ arrayIndex (js "007") = None
  /\ arrayIndex (js "1e3") = None
  /\ arrayIndex (js "") = None.
Proof. vm_compute. repeat split; reflexivity. Qed.

End Checks.

(* ===================================================================== *)
(** * Properties *)
(* ===================================================================== *)

Module StringFacts.
Import JsString Notions.

Lemma jsstring_eqb_eq (a b : jsstring) : jsstring_eqb a b = true <-> a = b.
Proof.
  revert b. induction a as [|x a IH]; intros [|y b]; simpl; split;
    try congruence; try reflexivity.
  - intros H. apply andb_true_iff in H as [Hx Hab].
    apply Z.eqb_eq in Hx. apply IH in Hab. congruence.
  - intros H. injection H as -> ->. rewrite Z.eqb_refl. simpl. now apply IH.
Qed.

Lemma jsstring_eqb_refl (a : jsstring) : jsstring_eqb a a = true.
Proof. now apply jsstring_eqb_eq. Qed.

Lemma jsstring_eqb_neq (a b : jsstring) : jsstring_eqb a b = false <-> a <> b.
Proof.
  rewrite <- jsstring_eqb_eq. destruct (jsstring_eqb a b); split; congruence.
Qed.

Lemma asciiLower_not_upper (c : Z) : isUpper (asciiLower c) = false.
Proof.
  unfold asciiLower, isUpper, in_range.
  destruct (65 <=? c) eqn:H1, (c <=? 90) eqn:H2; simpl; rewrite ?H1, ?H2; simpl; lia.
Qed.

Section Lowercase.
Variable lowerNonAscii : jsstring -> Z -> jsstring -> jsstring.
Hypothesis lowerNonAscii_lower :
  forall before c after x,
    128 <= c -> List.In x (lowerNonAscii before c after) -> isUpper x = false.

Lemma toLowerCase_from_not_upper (s before : jsstring) :
  Forall (fun c => isUpper c = false) (toLowerCase_from lowerNonAscii before s).
Proof.
  revert before. induction s as [|c s IH]; intros before; simpl.
  - constructor.
  - apply Forall_app. split; [|apply IH].
    destruct (c <? 128) eqn:Hc.
    + repeat constructor. apply asciiLower_not_upper.
    + apply List.Forall_forall. intros x Hx.
      apply (lowerNonAscii_lower before c s); [lia | exact Hx].
Qed.

Lemma toLowerCase_not_upper (s : jsstring) :
  Forall (fun c => isUpper c = false) (toLowerCase lowerNonAscii s).
Proof. apply toLowerCase_from_not_upper. Qed.
End Lowercase.
End StringFacts.

Module RegexFacts.
Import JsString Regex Notions.

(** A lone class: every unit of the class is replaced, the others stay. *)
Lemma replaceAll_class (p : Z -> bool) (x : Z) (s : jsstring) (bol : bool) :
  replaceAll_from [Chr p] [x] 0 bol s = List.map (fun c => if p c then x else c) s.
Proof.
  revert bol. induction s as [|c s IH]; intros bol; simpl.
  - reflexivity.
  - destruct (p c); simpl; now rewrite IH.
Qed.

(** With nothing after it, a run always matches: it takes the units of the
    class and stops in front of the first other unit. *)
Lemma star_run (p : Z -> bool) (k : jsstring -> option nat) (s : jsstring) :
  (forall s', k s' = Some 0%nat) ->
  exists n, star p k s = Some n
            /\ (exists run, s = run ++ skipn n s /\ length run = n)
            /\ (forall c rest, skipn n s = c :: rest -> p c = false).
Proof.
  intros Hk.
  induction s as [|c s (n & Hn & (run & Hrun & Hlen) & Hstop)]; cbn [star].
  - exists 0%nat. repeat split; auto. + now exists []. + discriminate.
  - destruct (p c) eqn:Hc.
    + rewrite Hn. exists (S n). repeat split.
      * exists (c :: run). simpl. split; congruence.
      * exact Hstop.
    + exists 0%nat. repeat split; auto.
      * now exists [].
      * simpl. intros c' rest [= <- _]. exact Hc.
Qed.

(** A run up to the end of the input. *)
Lemma star_to_end (p : Z -> bool) (k : jsstring -> option nat) (s : jsstring) :
  k [] = Some 0%nat -> forallb p s = true -> star p k s = Some (length s).
Proof.
  intros Hk. induction s as [|c s IH]; cbn [star forallb]; [now intros _|].
  intros H. apply andb_true_iff in H as [-> Hs]. now rewrite IH.
Qed.

Lemma exec_Bol_later (r : regex) (s : jsstring) : exec (Bol :: r) false s = None.
Proof. reflexivity. Qed.

Lemma replaceFirst_Bol_later (r : regex) (repl s : jsstring) :
  replaceFirst_from (Bol :: r) repl false s = s.
Proof.
  induction s as [|c s IH]; simpl; [reflexivity|]. now rewrite IH.
Qed.

(** Stripping a leading run: what is left is a suffix that does not
    begin with a unit of the class. *)
Lemma replaceFirst_leading_run (p : Z -> bool) (s : jsstring) :
  exists run, s = run ++ replaceFirst [Bol; Plus p] [] s
              /\ forall c rest, replaceFirst [Bol; Plus p] [] s = c :: rest -> p c = false.
Proof.
  unfold replaceFirst. destruct s as [|c s].
  - exists []. split; [reflexivity | discriminate].
  - cbn [replaceFirst_from exec]. destruct (p c) eqn:Hc.
    + match goal with
      | |- context [star p ?k s] =>
          destruct (star_run p k s) as (n & Hn & (run & Hrun & Hlen) & Hstop);
          [reflexivity|]
      end.
      rewrite Hn. simpl. exists (c :: run). split.
      * simpl. congruence.
      * exact Hstop.
    + rewrite replaceFirst_Bol_later. exists []. split; [reflexivity|].
      intros c' rest [= <- _]. exact Hc.
Qed.

(** Splitting at runs of a class: no piece holds a unit of the class,
    and every unit of a piece comes from the subject. *)
Lemma split_from_run (p : Z -> bool) (s : jsstring) :
  forall skip bol cur piece,
    Forall (fun c => p c = false) cur ->
    List.In piece (split_from [Plus p] skip bol cur s) ->
    Forall (fun c => p c = false /\ (List.In c cur \/ List.In c s)) piece.
Proof.
  induction s as [|c s IH]; intros skip bol cur piece Hcur Hin.
  - simpl in Hin. destruct Hin as [<-|[]].
    apply List.Forall_forall. intros x Hx. apply List.in_rev in Hx.
    split; [|now left]. rewrite List.Forall_forall in Hcur. now apply Hcur.
  - assert (Hweak : forall cur',
               Forall (fun c0 => p c0 = false /\ (List.In c0 cur' \/ List.In c0 s)) piece ->
               (forall x, List.In x cur' -> List.In x cur \/ x = c) ->
               Forall (fun c0 => p c0 = false /\ (List.In c0 cur \/ List.In c0 (c :: s))) piece).
    { intros cur' HF Hsub. eapply List.Forall_impl; [|exact HF].
      intros x [Hx [Hx'|Hx']]; split; auto.
      - destruct (Hsub x Hx'); [now left | right; left; congruence].
      - right. now right. }
    cbn [split_from] in Hin. destruct skip as [|k].
    + cbn [exec] in Hin. destruct (p c) eqn:Hc.
      * match type of Hin with
        | context [star p ?k s] =>
            destruct (star_run p k s) as (n & Hn & _); [reflexivity|]
        end.
        rewrite Hn in Hin. simpl in Hin.
        destruct Hin as [<-|Hin].
        -- apply List.Forall_forall. intros x Hx. apply List.in_rev in Hx.
           split; [|now left]. rewrite List.Forall_forall in Hcur. now apply Hcur.
        -- apply (Hweak []); [|intros x []].
           apply (IH _ _ _ _ ltac:(constructor) Hin).
      * apply (Hweak (c :: cur)).
        -- apply (IH _ _ (c :: cur) _ ltac:(constructor; assumption) Hin).
        -- intros x [->|Hx]; auto.
    + apply (Hweak cur); [|auto]. apply (IH _ _ _ _ Hcur Hin).
Qed.

Lemma split_run (p : Z -> bool) (s piece : jsstring) :
  List.In piece (split [Plus p] s) ->
  Forall (fun c => p c = false /\ List.In c s) piece.
Proof.
  unfold split. destruct s as [|c s].
  - simpl. intros [<-|[]]. constructor.
  - intros Hin. apply split_from_run in Hin; [|constructor].
    eapply List.Forall_impl; [|exact Hin]. intros x [Hx [[]|Hx']]. now split.
Qed.

(** A text made of digits only matches [^\d+$]. *)
Lemma test_all_in_class (p : Z -> bool) (s : jsstring) :
  s <> [] -> forallb p s = true -> test [Bol; Plus p; Eol] s = true.
Proof.
  destruct s as [|c s]; [congruence|]. intros _ H. simpl in H.
  apply andb_true_iff in H as [Hc Hs].
  unfold test. cbn [test_from exec]. rewrite Hc.
  match goal with
  | |- context [star p ?k s] => rewrite (star_to_end p k s eq_refl Hs)
  end.
  reflexivity.
Qed.
End RegexFacts.

Module DateFacts.
Import JsDate.

(** [yearFromDay] is the year of the ECMAScript definition: the largest
    one that starts no later than the day. *)
Lemma yearFromDay_spec (d : Z) :
  DayFromYear (yearFromDay d) <= d < DayFromYear (yearFromDay d + 1).
Proof.
  unfold yearFromDay.
  set (y0 := 1970 + 400 * d / 146097).
  assert (H0 : 146097 * (y0 - 1970) <= 400 * d < 146097 * (y0 - 1970) + 146097).
  { unfold y0. pose proof (Z.div_mod (400 * d) 146097 ltac:(lia)).
    pose proof (Z.mod_pos_bound (400 * d) 146097 ltac:(lia)). lia. }
  clearbody y0.
  assert (Hb : forall y, 400 * DayFromYear y <= 146097 * (y - 1970) + 589
                         /\ 146097 * (y - 1970) - 506 <= 400 * DayFromYear y).
  { intros y. unfold DayFromYear.
    pose proof (Z.div_mod (y - 1969) 4 ltac:(lia)).
    pose proof (Z.mod_pos_bound (y - 1969) 4 ltac:(lia)).
    pose proof (Z.div_mod (y - 1901) 100 ltac:(lia)).
    pose proof (Z.mod_pos_bound (y - 1901) 100 ltac:(lia)).
    pose proof (Z.div_mod (y - 1601) 400 ltac:(lia)).
    pose proof (Z.mod_pos_bound (y - 1601) 400 ltac:(lia)).
    lia. }
  pose proof (Hb (y0 - 1)). pose proof (Hb y0). pose proof (Hb (y0 + 1)).
  pose proof (Hb (y0 + 2)).
  destruct (d <? DayFromYear y0) eqn:E1; [apply Z.ltb_lt in E1 | apply Z.ltb_ge in E1].
  - replace (y0 - 1 + 1) with y0 by lia. lia.
  - destruct (DayFromYear (y0 + 1) <=? d) eqn:E2;
      [apply Z.leb_le in E2 | apply Z.leb_gt in E2].
    + replace (y0 + 1 + 1) with (y0 + 2) by lia. lia.
    + lia.
Qed.

Lemma monthOfDay_range (d leap : Z) : 0 <= monthOfDay d leap <= 11.
Proof.
  unfold monthOfDay.
  repeat match goal with |- context [if ?b then _ else _] => destruct b end; lia.
Qed.

(** Year, month and date of a time give back its day. *)
Lemma MakeDay_of_fields (l : Z) :
  MakeDay (YearFromTime l) (MonthFromTime l) (DateFromTime l) = Day l.
Proof.
  unfold MakeDay, DateFromTime.
  pose proof (monthOfDay_range (DayWithinYear l) (InLeapYear l)) as Hm.
  fold (MonthFromTime l) in Hm.
  rewrite (Z.div_small (MonthFromTime l) 12) by lia.
  rewrite (Z.mod_small (MonthFromTime l) 12) by lia.
  rewrite Z.add_0_r. fold (InLeapYear l). unfold DayWithinYear. lia.
Qed.

(** The time fields with the seconds cut to a multiple of ten. *)
Lemma MakeTime_of_fields (l : Z) :
  MakeDate (Day l)
    (MakeTime (HourFromTime l) (MinFromTime l) (SecFromTime l / 10 * 10) 0)
  = l - l mod 10000.
Proof.
  unfold MakeDate, MakeTime, Day, HourFromTime, MinFromTime, SecFromTime,
    msPerDay, msPerHour, msPerMinute, msPerSecond.
  Z.div_mod_to_equations. lia.
Qed.
Lemma DayFromYear_bounds (y : Z) :
  146097 * (y - 1970) - 506 <= 400 * DayFromYear y <= 146097 * (y - 1970) + 589.
Proof.
  unfold DayFromYear.
  pose proof (Z.div_mod (y - 1969) 4 ltac:(lia)).
  pose proof (Z.mod_pos_bound (y - 1969) 4 ltac:(lia)).
  pose proof (Z.div_mod (y - 1901) 100 ltac:(lia)).
  pose proof (Z.mod_pos_bound (y - 1901) 100 ltac:(lia)).
  pose proof (Z.div_mod (y - 1601) 400 ltac:(lia)).
  pose proof (Z.mod_pos_bound (y - 1601) 400 ltac:(lia)).
  lia.
Qed.

Lemma DayFromYear_lt (a b : Z) : a < b -> DayFromYear a < DayFromYear b.
Proof.
  intros H. pose proof (DayFromYear_bounds a). pose proof (DayFromYear_bounds b). lia.
Qed.

Lemma DayFromYear_le (a b : Z) : a <= b -> DayFromYear a <= DayFromYear b.
Proof.
  intros H. destruct (Z.eq_dec a b) as [->|Hne]; [lia|].
  pose proof (DayFromYear_lt a b ltac:(lia)). lia.
Qed.

Lemma yearFromDay_unique (d y : Z) :
  DayFromYear y <= d < DayFromYear (y + 1) -> yearFromDay d = y.
Proof.
  intros H. pose proof (yearFromDay_spec d) as Hs.
  destruct (Z.lt_trichotomy (yearFromDay d) y) as [Hlt|[Heq|Hgt]]; [|exact Heq|].
  - pose proof (DayFromYear_le (yearFromDay d + 1) y ltac:(lia)). lia.
  - pose proof (DayFromYear_le (y + 1) (yearFromDay d) ltac:(lia)). lia.
Qed.

Lemma year_length (y : Z) :
  DayFromYear (y + 1) = DayFromYear y + 365 + (if isLeapYear y then 1 else 0).
Proof.
  unfold DayFromYear, isLeapYear.
  replace (y + 1 - 1969) with (y - 1969 + 1) by lia.
  replace (y + 1 - 1901) with (y - 1901 + 1) by lia.
  replace (y + 1 - 1601) with (y - 1601 + 1) by lia.
  destruct (y mod 4 =? 0) eqn:E4; destruct (y mod 100 =? 0) eqn:E100;
    destruct (y mod 400 =? 0) eqn:E400; simpl;
    rewrite ?Z.eqb_eq, ?Z.eqb_neq in *;
    Z.div_mod_to_equations; lia.
Qed.

Lemma DayWithinYear_range (l : Z) :
  0 <= DayWithinYear l < 365 + InLeapYear l.
Proof.
  unfold DayWithinYear, InLeapYear, YearFromTime.
  pose proof (yearFromDay_spec (Day l)) as Hs.
  rewrite year_length in Hs. lia.
Qed.

(** The same month and date in a year of the other kind: still a day of
    that year. *)
Lemma day_in_other_year (d leap leap' : Z) :
  0 <= d < 365 + leap -> 0 <= leap <= 1 -> 0 <= leap' <= 1 ->
  let m := monthOfDay d leap in
  0 <= monthStart m leap' + (d - monthStart m leap + 1) - 1 < 365 + leap'.
Proof.
  intros Hd Hl Hl'. cbn zeta. unfold monthOfDay.
  repeat match goal with
         | |- context [if ?a <? ?b then _ else _] =>
             destruct (Z.ltb_spec a b)
         end; cbn; lia.
Qed.

Lemma time_fields_range (l : Z) :
  0 <= MakeTime (HourFromTime l) (MinFromTime l) (SecFromTime l / 10 * 10) 0 < msPerDay
  /\ MakeTime (HourFromTime l) (MinFromTime l) (SecFromTime l / 10 * 10) 0 mod 10000 = 0.
Proof.
  unfold MakeTime, HourFromTime, MinFromTime, SecFromTime,
    msPerDay, msPerHour, msPerMinute, msPerSecond.
  Z.div_mod_to_equations. lia.
Qed.
End DateFacts.

Module TransformFacts.
Import JsString Regex JsDate Transforms StringFacts RegexFacts DateFacts.

Lemma truncateToInterval_plain (tza t : Z) :
  ~ (0 <= getFullYear tza t <= 99) ->
  truncateToInterval tza t = t - (t + tza) mod 10000.
Proof.
  intros Hy. unfold truncateToInterval, newDate.
  replace ((0 <=? getFullYear tza t) && (getFullYear tza t <=? 99)) with false
    by (symmetry; apply andb_false_iff; lia).
  unfold getFullYear, getMonth, getDate, getHours, getMinutes, getSeconds, UTC.
  rewrite MakeDay_of_fields, MakeTime_of_fields. unfold LocalTime. lia.
Qed.

Lemma truncateToInterval_year (tza t : Z) :
  ~ (0 <= getFullYear tza t <= 99) ->
  getFullYear tza (truncateToInterval tza t) = getFullYear tza t.
Proof.
  intros Hy. rewrite truncateToInterval_plain by exact Hy.
  unfold getFullYear, YearFromTime, LocalTime, Day, msPerDay. f_equal.
  Z.div_mod_to_equations. lia.
Qed.

(** Outside the years 0 to 99, truncation is idempotent and never moves
    a time forward. *)
Lemma truncateToInterval_outside_two_digit_years (tza t : Z) :
  ~ (0 <= getFullYear tza t <= 99) ->
  truncateToInterval tza (truncateToInterval tza t) = truncateToInterval tza t
  /\ truncateToInterval tza t <= t.
Proof.
  intros Hy. split.
  - rewrite (truncateToInterval_plain tza (truncateToInterval tza t))
      by (rewrite truncateToInterval_year; exact Hy).
    rewrite (truncateToInterval_plain tza t) by exact Hy.
    Z.div_mod_to_equations. lia.
  - rewrite truncateToInterval_plain by exact Hy.
    pose proof (Z.mod_pos_bound (t + tza) 10000 ltac:(lia)). lia.
Qed.

Section TwoDigitYears.
Variable tza : Z.
Variable t : Z.
Hypothesis two_digits : 0 <= getFullYear tza t <= 99.

Lemma truncateToInterval_shifted :
  exists day time,
    truncateToInterval tza t = day * msPerDay + time - tza
    /\ DayFromYear (1900 + getFullYear tza t) <= day
       < DayFromYear (1900 + getFullYear tza t + 1)
    /\ 0 <= time < msPerDay /\ time mod 10000 = 0.
Proof.
  set (l := t + tza).
  exists (MakeDay (1900 + YearFromTime l) (MonthFromTime l) (DateFromTime l)),
         (MakeTime (HourFromTime l) (MinFromTime l) (SecFromTime l / 10 * 10) 0).
  split; [|split; [|apply time_fields_range]].
  - unfold truncateToInterval, newDate.
    replace ((0 <=? getFullYear tza t) && (getFullYear tza t <=? 99)) with true
      by (symmetry; apply andb_true_iff; lia).
    reflexivity.
  - unfold getFullYear, LocalTime. fold l. unfold MakeDay.
    pose proof (monthOfDay_range (DayWithinYear l) (InLeapYear l)) as Hm.
    fold (MonthFromTime l) in Hm.
    rewrite (Z.div_small (MonthFromTime l) 12) by lia.
    rewrite (Z.mod_small (MonthFromTime l) 12) by lia.
    rewrite Z.add_0_r, year_length. unfold DateFromTime, MonthFromTime.
    pose proof (DayWithinYear_range l) as Hd.
    assert (Hl : 0 <= InLeapYear l <= 1)
      by (unfold InLeapYear; destruct (isLeapYear _); lia).
    set (leap' := if isLeapYear (1900 + YearFromTime l) then 1 else 0).
    assert (Hl' : 0 <= leap' <= 1) by (subst leap'; destruct (isLeapYear _); lia).
    pose proof (day_in_other_year (DayWithinYear l) (InLeapYear l) leap' Hd Hl Hl').
    cbn zeta in *. lia.
Qed.

(** In the years 0 to 99 the result lies 1900 years later. *)
Lemma truncateToInterval_two_digit_later : t < truncateToInterval tza t.
Proof.
  destruct truncateToInterval_shifted as (day & time & -> & [Hlo _] & Htime & _).
  pose proof (yearFromDay_spec (Day (t + tza))) as Hs.
  fold (YearFromTime (t + tza)) in Hs.
  change (YearFromTime (t + tza)) with (getFullYear tza t) in Hs.
  pose proof (DayFromYear_le (getFullYear tza t + 1) (1900 + getFullYear tza t)
                ltac:(lia)) as Hle.
  unfold Day, msPerDay in *. Z.div_mod_to_equations. lia.
Qed.

Lemma truncateToInterval_two_digit_year_after :
  getFullYear tza (truncateToInterval tza t) = 1900 + getFullYear tza t
  /\ (truncateToInterval tza t + tza) mod 10000 = 0.
Proof.
  destruct truncateToInterval_shifted as (day & time & -> & Hday & Htime & Hmod).
  split.
  - unfold getFullYear at 1. unfold YearFromTime, LocalTime.
    apply yearFromDay_unique.
    replace (Day (day * msPerDay + time - tza + tza)) with day; [exact Hday|].
    unfold Day, msPerDay in *. Z.div_mod_to_equations. lia.
  - unfold msPerDay in *. Z.div_mod_to_equations. lia.
Qed.

End TwoDigitYears.

(** Truncation is idempotent on every date. *)
Lemma truncateToInterval_idempotent (tza t : Z) :
  truncateToInterval tza (truncateToInterval tza t) = truncateToInterval tza t.
Proof.
  destruct (Z_le_dec 0 (getFullYear tza t)) as [H0|H0];
    [destruct (Z_le_dec (getFullYear tza t) 99) as [H1|H1]|];
    try (apply truncateToInterval_outside_two_digit_years; lia).
  destruct (truncateToInterval_two_digit_year_after tza t ltac:(lia)) as [Hy Hm].
  rewrite truncateToInterval_plain by (rewrite Hy; lia).
  rewrite Hm. lia.
Qed.

(** It moves a date forward exactly in the years 0 to 99. *)
Lemma truncateToInterval_le_iff (tza t : Z) :
  truncateToInterval tza t <= t <-> ~ (0 <= getFullYear tza t <= 99).
Proof.
  split.
  - intros Hle Hy. pose proof (truncateToInterval_two_digit_later tza t Hy). lia.
  - intros Hy. now apply truncateToInterval_outside_two_digit_years.
Qed.

(** C3 (evaluation at the failing input). A post dated 0001-01-01T00:00:00Z
    on a server on UTC: [getFullYear] is 1, which [new Date(1, ...)] reads
    as 1901, so the truncated time is 1901-01-01T00:00:00Z, after the
    input, where the claim wants a time not after it. *)
Theorem truncateToInterval_two_digit_year :
  toISOString (-62135596800000) = js "0001-01-01T00:00:00.000Z"
  /\ getFullYear 0 (-62135596800000) = 1
  /\ truncateToInterval 0 (-62135596800000) = -2177452800000
  /\ toISOString (truncateToInterval 0 (-62135596800000))
     = js "1901-01-01T00:00:00.000Z"
  /\ ~ (truncateToInterval 0 (-62135596800000) <= -62135596800000).
Proof. vm_compute. repeat split; congruence. Qed.
End TransformFacts.

Module ExtractFacts.
Import JsString Regex JsDate Transforms StringFacts RegexFacts DateFacts Notions.

Lemma STOP_WORDS_has_spec (w : jsstring) :
  STOP_WORDS_has w = true <-> List.In w STOP_WORDS.
Proof.
  unfold STOP_WORDS_has. rewrite existsb_exists. split.
  - intros (x & Hx & Heq). apply jsstring_eqb_eq in Heq. now subst.
  - intros H. exists w. split; [exact H | apply jsstring_eqb_refl].
Qed.

(** C2. The extractor on the sample text of the specification: the URL
    goes first, "out" and "is" are stop words, and "#AI" becomes "ai",
    which is shorter than the minimum length. *)
Theorem extractWords_sample (lowerNonAscii : jsstring -> Z -> jsstring -> jsstring) :
  extractWords lowerNonAscii (js "Check out https://x.com #AI is amazing!")
    = [js "check"; js "amazing"]
  /\ replaceAll URL_RE [] (js "Check out https://x.com #AI is amazing!")
     = js "Check out  #AI is amazing!"
  /\ split SPACES_RE
       (replaceAll PUNCT_RE (js " ")
          (toLowerCase lowerNonAscii (js "Check out  #AI is amazing!")))
     = [js "check"; js "out"; js "#ai"; js "is"; js "amazing"; js ""]
  /\ STOP_WORDS_has (js "out") = true
  /\ STOP_WORDS_has (js "is") = true
  /\ replaceFirst HASHES_RE [] (js "#ai") = js "ai"
  /\ (length (js "ai") < MIN_WORD_LENGTH)%nat.
Proof. vm_compute. repeat split; lia. Qed.

Section Normalized.

Variable lowerNonAscii : jsstring -> Z -> jsstring -> jsstring.
Hypothesis lowerNonAscii_lower :
  forall before c after x,
    128 <= c -> List.In x (lowerNonAscii before c after) -> isUpper x = false.

(** Every piece the extractor splits off is free of white space and of
    upper-case ASCII letters. *)
Lemma pieces_clean (text piece : jsstring) :
  List.In piece
    (split SPACES_RE
       (replaceAll PUNCT_RE (js " ") (toLowerCase lowerNonAscii text))) ->
  Forall (fun c => isSpace c = false /\ isUpper c = false) piece.
Proof.
  intros Hin. apply split_run in Hin.
  eapply List.Forall_impl; [|exact Hin]. intros c [Hsp Hc]. split; [exact Hsp|].
  unfold replaceAll in Hc. change (js " ") with [32] in Hc.
  unfold PUNCT_RE in Hc. rewrite replaceAll_class in Hc.
  apply in_map_iff in Hc as (c0 & Hc0 & Hin0).
  pose proof (toLowerCase_not_upper lowerNonAscii lowerNonAscii_lower text) as Hlow.
  rewrite List.Forall_forall in Hlow. specialize (Hlow c0 Hin0).
  destruct (negb _) in Hc0; subst c; [reflexivity | exact Hlow].
Qed.

(** C10. Every token of the extractor's output is normalized: no
    upper-case ASCII letter, no white space, at least three units, no
    leading '#', not a stop word, and not made of decimal digits only.
    The case table of the runtime is taken to produce no upper-case
    ASCII letter, as Unicode's lower-case mapping does. *)
Theorem extractWords_normalized (text word : jsstring) :
  List.In word (extractWords lowerNonAscii text) ->
  Forall (fun c => isUpper c = false) word
  /\ Forall (fun c => isSpace c = false) word
  /\ (3 <= length word)%nat
  /\ hd_error word <> Some (unit_of "#")
  /\ ~ List.In word STOP_WORDS
  /\ forallb isDigit word = false.
Proof.
  unfold extractWords. intros Hin.
  apply filter_In in Hin as [Hin Hnum].
  apply filter_In in Hin as [Hin Hstop].
  apply filter_In in Hin as [Hin Hlen].
  apply in_map_iff in Hin as (piece & Hword & Hpiece).
  apply pieces_clean in Hpiece.
  destruct (replaceFirst_leading_run (eqc "#") piece) as (run & Hrun & Hhead).
  unfold HASHES_RE in Hword. rewrite Hword in Hrun, Hhead.
  rewrite Hrun in Hpiece. apply Forall_app in Hpiece as [_ Hclean].
  apply Nat.leb_le in Hlen.
  repeat split.
  - eapply List.Forall_impl; [|exact Hclean]. now intros c [_ H].
  - eapply List.Forall_impl; [|exact Hclean]. now intros c [H _].
  - exact Hlen.
  - destruct word as [|c rest]; [discriminate|]. simpl. intros [= Hc].
    specialize (Hhead c rest eq_refl). unfold eqc in Hhead. lia.
  - intros Hsw. apply STOP_WORDS_has_spec in Hsw. now rewrite Hsw in Hstop.
  - destruct (forallb isDigit word) eqn:Hd; [|reflexivity].
    unfold NUMBER_RE in Hnum.
    rewrite (test_all_in_class isDigit word) in Hnum; [discriminate| |exact Hd].
    intros ->. simpl in Hlen. unfold MIN_WORD_LENGTH in Hlen. lia.
Qed.

End Normalized.

Lemma sampleLower_lower (before : jsstring) (c : Z) (after : jsstring) (x : Z) :
  128 <= c -> List.In x (sampleLower before c after) -> isUpper x = false.
Proof.
  unfold sampleLower, isUpper, in_range. intros Hc.
  repeat match goal with |- context [if ?b then _ else _] => destruct b eqn:? end;
    simpl; intros H; repeat destruct H as [<-|H]; try contradiction; lia.
Qed.

Lemma extractWords_normalized_witness :
  Forall (fun c => isUpper c = false) (js "kelvin")
  /\ Forall (fun c => isSpace c = false) (js "kelvin")
  /\ (3 <= length (js "kelvin"))%nat
  /\ hd_error (js "kelvin") <> Some (unit_of "#")
  /\ ~ List.In (js "kelvin") STOP_WORDS
  /\ forallb isDigit (js "kelvin") = false.
Proof.
  apply (extractWords_normalized sampleLower sampleLower_lower
           (8490 :: js "ELVIN is #1 at 300")).
  vm_compute. left. reflexivity.
Defined.

End ExtractFacts.

Module CountFacts.
Import JsString Regex JsDate Transforms StringFacts Notions.

Lemma occurrences_nonneg w words : 0 <= occurrences w words.
Proof. unfold occurrences. lia. Qed.

Lemma occurrences_pos w words : List.In w words <-> 0 < occurrences w words.
Proof.
  unfold occurrences. induction words as [|x words IH]; simpl.
  - split; [tauto | lia].
  - destruct (jsstring_eqb w x) eqn:E.
    + apply jsstring_eqb_eq in E. subst. simpl. split; [lia | auto].
    + apply jsstring_eqb_neq in E. rewrite <- IH. split; [|auto].
      intros [->|H]; [congruence | exact H].
Qed.

Lemma occurrences_snoc w words x :
  occurrences w (words ++ [x])
  = occurrences w words + (if jsstring_eqb x w then 1 else 0).
Proof.
  unfold occurrences. rewrite List.filter_app, List.length_app. simpl.
  destruct (jsstring_eqb w x) eqn:E.
  - apply jsstring_eqb_eq in E. subst. rewrite jsstring_eqb_refl. simpl. lia.
  - apply jsstring_eqb_neq in E.
    destruct (jsstring_eqb x w) eqn:E'; [apply jsstring_eqb_eq in E'; congruence|].
    simpl. lia.
Qed.

Lemma Map_get_set (m : JsMap) (k k' : jsstring) (v : Z) :
  Map_get (Map_set m k v) k' = if jsstring_eqb k k' then Some v else Map_get m k'.
Proof.
  induction m as [|[k0 v0] m IH]; simpl.
  - reflexivity.
  - destruct (jsstring_eqb k0 k) eqn:E; simpl.
    + apply jsstring_eqb_eq in E. subst k0.
      destruct (jsstring_eqb k k'); reflexivity.
    + rewrite IH. destruct (jsstring_eqb k0 k') eqn:E'; [|reflexivity].
      apply jsstring_eqb_eq in E'. subst k0.
      apply jsstring_eqb_neq in E.
      destruct (jsstring_eqb k k') eqn:E''; [|reflexivity].
      apply jsstring_eqb_eq in E''. congruence.
Qed.

Lemma Map_get_None (m : JsMap) (k : jsstring) :
  Map_get m k = None <-> ~ List.In k (mapKeys m).
Proof.
  induction m as [|[k0 v0] m IH]; simpl.
  - tauto.
  - destruct (jsstring_eqb k0 k) eqn:E.
    + apply jsstring_eqb_eq in E. split; [discriminate | tauto].
    + apply jsstring_eqb_neq in E. rewrite IH. tauto.
Qed.

Lemma Map_get_In (m : JsMap) (k : jsstring) (v : Z) :
  List.NoDup (mapKeys m) -> List.In (k, v) m -> Map_get m k = Some v.
Proof.
  induction m as [|[k0 v0] m IH]; simpl; [tauto|].
  intros Hnd [H|H].
  - injection H as -> ->. now rewrite jsstring_eqb_refl.
  - apply List.NoDup_cons_iff in Hnd as [Hk0 Hnd].
    destruct (jsstring_eqb k0 k) eqn:E; [|now apply IH].
    apply jsstring_eqb_eq in E. subst k0. exfalso. apply Hk0.
    unfold mapKeys. apply in_map_iff. now exists (k, v).
Qed.

(** Setting a key keeps the entries in place and appends a new key. *)
Lemma keys_Map_set (m : JsMap) (k : jsstring) (v : Z) :
  mapKeys (Map_set m k v)
  = match Map_get m k with Some _ => mapKeys m | None => mapKeys m ++ [k] end.
Proof.
  induction m as [|[k0 v0] m IH]; simpl; [reflexivity|].
  destruct (jsstring_eqb k0 k) eqn:E; simpl; [reflexivity|].
  fold (mapKeys (Map_set m k v)). rewrite IH.
  destruct (Map_get m k); reflexivity.
Qed.

Lemma total_Map_set (m : JsMap) (k : jsstring) (v : Z) :
  sumCounts (Map_set m k v) = sumCounts m + v - default 0 (Map_get m k).
Proof.
  unfold sumCounts. induction m as [|[k0 v0] m IH]; simpl; [lia|].
  destruct (jsstring_eqb k0 k); simpl; lia.
Qed.

(** What the counting loop has in hand after the tokens [done]. *)
Record counted (done : list jsstring) (m : JsMap) : Prop := {
  counted_nodup : List.NoDup (mapKeys m);
  counted_get : forall w,
    Map_get m w = if occurrences w done =? 0 then None else Some (occurrences w done);
  counted_total : sumCounts m = Z.of_nat (length done)
}.

Lemma counted_step (done : list jsstring) (m : JsMap) (word : jsstring) :
  counted done m ->
  counted (done ++ [word]) (Map_set m word (or_zero (Map_get m word) + 1)).
Proof.
  intros [Hnd Hget Htot].
  assert (Hor : or_zero (Map_get m word) = occurrences word done).
  { rewrite Hget. destruct (occurrences word done =? 0) eqn:E; simpl.
    - lia.
    - now rewrite E. }
  constructor.
  - rewrite keys_Map_set. destruct (Map_get m word) eqn:E; [exact Hnd|].
    apply List.NoDup_app; [exact Hnd | repeat constructor; simpl; tauto |].
    intros x Hx [<-|[]].
    now apply Map_get_None in E.
  - intros w. rewrite Map_get_set, occurrences_snoc, Hor.
    pose proof (occurrences_nonneg w done).
    destruct (jsstring_eqb word w) eqn:E.
    + apply jsstring_eqb_eq in E. subst w.
      destruct (occurrences word done + 1 =? 0) eqn:E0; [lia | reflexivity].
    + rewrite Z.add_0_r. apply Hget.
  - rewrite total_Map_set, Htot, Hor, Hget, List.length_app. simpl.
    pose proof (occurrences_nonneg word done).
    destruct (occurrences word done =? 0) eqn:E; simpl; lia.
Qed.

Lemma counted_fold (words done : list jsstring) (m : JsMap) :
  counted done m ->
  counted (done ++ words)
    (fold_left (fun wordCounts word =>
                  Map_set wordCounts word (or_zero (Map_get wordCounts word) + 1))
               words m).
Proof.
  revert done m. induction words as [|w words IH]; intros done m H; simpl.
  - now rewrite List.app_nil_r.
  - replace (done ++ w :: words) with ((done ++ [w]) ++ words)
      by now rewrite <- List.app_assoc.
    apply IH. now apply counted_step.
Qed.

Lemma countWords_counted (words : list jsstring) : counted words (countWords words).
Proof.
  apply (counted_fold words [] []). constructor; simpl.
  - constructor.
  - reflexivity.
  - reflexivity.
Qed.

Lemma countWords_keys (words : list jsstring) (w : jsstring) :
  List.In w (mapKeys (countWords words)) <-> List.In w words.
Proof.
  destruct (countWords_counted words) as [_ Hget _].
  rewrite (occurrences_pos w words). specialize (Hget w).
  pose proof (occurrences_nonneg w words).
  destruct (occurrences w words =? 0) eqn:E.
  - apply Map_get_None in Hget. apply Z.eqb_eq in E. split; [tauto | lia].
  - apply Z.eqb_neq in E. split; [lia|]. intros _.
    destruct (in_dec (List.list_eq_dec Z.eq_dec) w (mapKeys (countWords words))) as [Hi|Hn];
      [exact Hi|]. apply Map_get_None in Hn. congruence.
Qed.

Lemma countWords_distinct (words : list jsstring) :
  length (countWords words) = length (nodup (List.list_eq_dec Z.eq_dec) words).
Proof.
  rewrite <- (List.length_map fst (countWords words)). fold (mapKeys (countWords words)).
  apply Nat.le_antisymm.
  - apply List.NoDup_incl_length; [apply countWords_counted|].
    intros w Hw. apply nodup_In. now apply countWords_keys.
  - apply List.NoDup_incl_length; [apply List.NoDup_nodup|].
    intros w Hw. apply nodup_In in Hw. now apply countWords_keys.
Qed.

Section Transform.
Variable tza : Z.
Variable lowerNonAscii : jsstring -> Z -> jsstring -> jsstring.

Lemma transform_countWords (post : BlueskyPost) :
  transform tza lowerNonAscii post
  = List.map (fun '(word, count) =>
                {| intervalTimestamp := truncateToInterval tza (createdAt post);
                   word := word; count := count |})
             (countWords (extractWords lowerNonAscii (text post))).
Proof.
  unfold transform. destruct (extractWords lowerNonAscii (text post)); reflexivity.
Qed.

(** C4. For every post the transform emits one record per distinct
    token of the extracted list, in the post's interval, with the
    number of times the token occurs in the list: the records' words
    are pairwise distinct and are exactly the extracted tokens, there
    are as many records as distinct tokens, the counts add up to the
    number of extracted tokens, and an empty list gives no record. *)
Theorem transform_one_record_per_distinct_token (post : BlueskyPost) :
  let words := extractWords lowerNonAscii (text post) in
  let out := transform tza lowerNonAscii post in
  List.NoDup (List.map word out)
  /\ (forall w, List.In w (List.map word out) <-> List.In w words)
  /\ (forall r, List.In r out ->
        count r = occurrences (word r) words
        /\ 1 <= count r
        /\ intervalTimestamp r = truncateToInterval tza (createdAt post))
  /\ length out = length (nodup (List.list_eq_dec Z.eq_dec) words)
  /\ fold_right Z.add 0 (List.map count out) = Z.of_nat (length words)
  /\ (words = [] -> out = []).
Proof.
  intros words out. subst out. rewrite transform_countWords. fold words.
  destruct (countWords_counted words) as [Hnd Hget Htot].
  assert (Hw : List.map word
                 (List.map (fun '(word, count) =>
                    {| intervalTimestamp := truncateToInterval tza (createdAt post);
                       word := word; count := count |}) (countWords words))
               = mapKeys (countWords words)).
  { rewrite List.map_map. apply List.map_ext. now intros [w c]. }
  assert (Hc : List.map count
                 (List.map (fun '(word, count) =>
                    {| intervalTimestamp := truncateToInterval tza (createdAt post);
                       word := word; count := count |}) (countWords words))
               = List.map snd (countWords words)).
  { rewrite List.map_map. apply List.map_ext. now intros [w c]. }
  rewrite Hw, Hc. repeat split.
  - exact Hnd.
  - apply countWords_keys.
  - apply countWords_keys.
  - apply in_map_iff in H as ([w c] & <- & Hin). simpl.
    apply Map_get_In in Hin; [|exact Hnd]. rewrite Hget in Hin.
    destruct (occurrences w words =? 0); congruence.
  - apply in_map_iff in H as ([w c] & <- & Hin). simpl.
    apply Map_get_In in Hin; [|exact Hnd]. rewrite Hget in Hin.
    pose proof (occurrences_nonneg w words).
    destruct (occurrences w words =? 0) eqn:E; [discriminate|].
    injection Hin as <-. lia.
  - apply in_map_iff in H as ([w c] & <- & Hin). reflexivity.
  - rewrite List.length_map. apply countWords_distinct.
  - exact Htot.
  - intros ->. reflexivity.
Qed.
End Transform.
End CountFacts.

Module NumberFacts.
Import JsString JsNumber Notions.

Lemma units_of_uint_decimal (d : Decimal.uint) : Forall isDecimal (units_of_uint d).
Proof. induction d; simpl; constructor; unfold isDecimal; auto; lia. Qed.

Lemma units_of_uint_inj (d d' : Decimal.uint) :
  units_of_uint d = units_of_uint d' -> d = d'.
Proof.
  revert d'. induction d; intros []; simpl; intros H; try discriminate;
    try reflexivity; injection H as H; f_equal; auto.
Qed.

Lemma numToString_units (n : Z) :
  Forall (fun c => isDecimal c \/ c = 45) (numToString n).
Proof.
  unfold numToString. destruct (Z.to_int n) as [d|d];
    [|constructor; [now right|]];
    (eapply List.Forall_impl; [|apply units_of_uint_decimal]); now left.
Qed.

Lemma numToString_inj (n m : Z) : numToString n = numToString m -> n = m.
Proof.
  unfold numToString. intros H. apply DecimalZ.to_int_inj.
  pose proof (units_of_uint_decimal) as Hd.
  destruct (Z.to_int n) as [d|d], (Z.to_int m) as [d'|d'].
  - f_equal. now apply units_of_uint_inj.
  - specialize (Hd d). rewrite H in Hd. inversion Hd as [|? ? Hc]. unfold isDecimal in Hc. lia.
  - specialize (Hd d'). rewrite <- H in Hd. inversion Hd as [|? ? Hc]. unfold isDecimal in Hc. lia.
  - injection H as H. f_equal. now apply units_of_uint_inj.
Qed.

Lemma readDigits_acc (d : Decimal.uint) (p : positive) :
  readDigits 10 (Some (Z.pos p)) (units_of_uint d) = Some (Z.pos (Pos.of_uint_acc d p)).
Proof.
  revert p. induction d; intros p; simpl; try reflexivity;
    match goal with
    | |- readDigits 10 (Some ?v) _ = Some (Z.pos (Pos.of_uint_acc _ ?q)) =>
        replace v with (Z.pos q) by lia; apply IHd
    end.
Qed.

Lemma readDigits_zero (d : Decimal.uint) :
  readDigits 10 (Some 0) (units_of_uint d) = Some (Z.of_N (Pos.of_uint d)).
Proof.
  induction d; simpl; try reflexivity; try exact IHd; apply readDigits_acc.
Qed.

Lemma readDigits_start (d : Decimal.uint) :
  d <> Decimal.Nil ->
  readDigits 10 None (units_of_uint d) = Some (Z.of_N (Pos.of_uint d)).
Proof.
  destruct d; simpl; try congruence; intros _;
    try apply readDigits_zero; apply readDigits_acc.
Qed.

Lemma to_uint_head (p : positive) :
  exists c rest, units_of_uint (Pos.to_uint p) = c :: rest /\ isDecimal c.
Proof.
  pose proof (DecimalPos.Unsigned.to_uint_nonnil p) as Hn.
  pose proof (units_of_uint_decimal (Pos.to_uint p)) as Hd.
  destruct (Pos.to_uint p); [congruence|..]; simpl in *;
    inversion Hd; subst; eauto.
Qed.

Lemma decimal_plain (c : Z) : isDecimal c -> isSpace c = false /\ c <> 45 /\ c <> 43.
Proof.
  unfold isDecimal, isSpace, in_range. intros H. split; [|lia].
  repeat (apply orb_false_iff; split); lia.
Qed.

(** Reading back the text of an integer gives the integer. *)
Lemma parseInt_numToString (n : Z) :
  parseInt (Some (numToString n)) (Some 10) = Some n.
Proof.
  unfold numToString, parseInt. destruct n as [|p|p]; simpl Z.to_int.
  - reflexivity.
  - destruct (to_uint_head p) as (c & rest & Heq & Hc).
    pose proof (readDigits_start (Pos.to_uint p) (DecimalPos.Unsigned.to_uint_nonnil p)) as Hr.
    rewrite DecimalPos.Unsigned.of_to in Hr.
    destruct (decimal_plain c Hc) as (Hs & H45 & H43).
    rewrite Heq in *. cbn [trimStart]. rewrite Hs.
    apply Z.eqb_neq in H45, H43. rewrite H45, H43. cbn [andb].
    rewrite Hr. simpl. reflexivity.
  - pose proof (readDigits_start (Pos.to_uint p) (DecimalPos.Unsigned.to_uint_nonnil p)) as Hr.
    rewrite DecimalPos.Unsigned.of_to in Hr.
    cbn [trimStart]. change (isSpace 45) with false. cbv iota.
    change (45 =? 45) with true. cbv iota. cbn [andb].
    rewrite Hr. reflexivity.
Qed.
End NumberFacts.

Module TrendsFacts.
Import JsString JsNumber JsDate Json Trends SharedCache StringFacts NumberFacts Notions.

Lemma obj_get_set (o : object) (k k' : jsstring) (v : json) :
  obj_get (obj_set o k v) k' = if jsstring_eqb k k' then Some v else obj_get o k'.
Proof.
  induction o as [|[k0 v0] o IH]; simpl.
  - reflexivity.
  - destruct (jsstring_eqb k0 k) eqn:E; simpl.
    + apply jsstring_eqb_eq in E. subst k0.
      destruct (jsstring_eqb k k'); reflexivity.
    + rewrite IH. destruct (jsstring_eqb k0 k') eqn:E'; [|reflexivity].
      apply jsstring_eqb_eq in E'. subst k0.
      apply jsstring_eqb_neq in E.
      destruct (jsstring_eqb k k') eqn:E''; [|reflexivity].
      apply jsstring_eqb_eq in E''. congruence.
Qed.

Lemma obj_get_app (o : object) (k k' : jsstring) (v : json) :
  obj_get (o ++ [(k, v)]) k'
  = match obj_get o k' with
    | Some x => Some x
    | None => if jsstring_eqb k k' then Some v else None
    end.
Proof.
  induction o as [|[k0 v0] o IH]; simpl; [reflexivity|].
  destruct (jsstring_eqb k0 k'); [reflexivity | exact IH].
Qed.

Lemma obj_get_insert_index (n : Z) (o : object) (k k' : jsstring) (v : json) :
  obj_get o k = None ->
  obj_get (obj_insert_index n k v o) k'
  = if jsstring_eqb k k' then Some v else obj_get o k'.
Proof.
  induction o as [|[k0 v0] o IH]; simpl; [reflexivity|].
  destruct (jsstring_eqb k0 k) eqn:E0; [discriminate|]. intros Hk.
  assert (Hhere : obj_get ((k, v) :: (k0, v0) :: o) k'
                  = if jsstring_eqb k k' then Some v
                    else if jsstring_eqb k0 k' then Some v0 else obj_get o k')
    by reflexivity.
  destruct (arrayIndex k0) as [n'|]; [|exact Hhere].
  destruct (n' <? n); [|exact Hhere].
  simpl. rewrite (IH Hk).
  destruct (jsstring_eqb k0 k') eqn:E1; [|reflexivity].
  apply jsstring_eqb_eq in E1. subst k'. apply jsstring_eqb_neq in E0.
  destruct (jsstring_eqb k k0) eqn:E2; [|reflexivity].
  apply jsstring_eqb_eq in E2. congruence.
Qed.

Lemma obj_get_assign (o : object) (k k' : jsstring) (v : json) :
  obj_get (obj_assign o k v) k'
  = if jsstring_eqb k (js "__proto__") then obj_get o k'
    else if jsstring_eqb k k' then Some v else obj_get o k'.
Proof.
  unfold obj_assign. destruct (jsstring_eqb k (js "__proto__")); [reflexivity|].
  destruct (obj_get o k) as [x|] eqn:Hk; [apply obj_get_set|].
  unfold obj_insert. destruct (arrayIndex k) as [n|].
  - now apply obj_get_insert_index.
  - rewrite obj_get_app. destruct (jsstring_eqb k k') eqn:E.
    + apply jsstring_eqb_eq in E. subst k'. now rewrite Hk.
    + now destruct (obj_get o k').
Qed.

(** ** The cache *)

Lemma get_set_same (c : MooseCache.t) (now now' : Z) (k : jsstring) (v : json) (ttl : Z) :
  now' < now + ttl * 1000 ->
  MooseCache.get (MooseCache.set c now k v ttl) now' k = Some v.
Proof.
  intros H. unfold MooseCache.get, MooseCache.set. simpl.
  rewrite lookup_insert_eq. apply Z.ltb_lt in H. now rewrite H.
Qed.

Lemma get_set_expired (c : MooseCache.t) (now now' : Z) (k : jsstring) (v : json) (ttl : Z) :
  now + ttl * 1000 <= now' ->
  MooseCache.get (MooseCache.set c now k v ttl) now' k = None.
Proof.
  intros H. unfold MooseCache.get, MooseCache.set. simpl.
  rewrite lookup_insert_eq. apply Z.ltb_ge in H. now rewrite H.
Qed.

Lemma down_set (c : MooseCache.t) (now : Z) (k : jsstring) (v : json) (ttl : Z) :
  MooseCache.down (MooseCache.set c now k v ttl) = MooseCache.down c.
Proof. reflexivity. Qed.

Lemma cacheHit_entry (c : MooseCache.t) (now : Z) (k : jsstring) (v : json) :
  cacheHit c now k = Some v ->
  exists expiry, MooseCache.entries c !! k = Some (v, expiry).
Proof.
  unfold cacheHit, MooseCache.get.
  destruct (MooseCache.entries c !! k) as [[v' expiry]|]; [|discriminate].
  destruct (now <? expiry); [|discriminate].
  destruct (truthy v'); [|discriminate]. intros [= ->]. now exists expiry.
Qed.

(** ** Ordering *)

Lemma insert_by_In {A} (le : A -> A -> bool) (x y : A) (l : list A) :
  List.In y (insert_by le x l) -> y = x \/ List.In y l.
Proof.
  induction l as [|z l IH]; simpl.
  - intros [<-|[]]. now left.
  - destruct (le x z); simpl; intros [H|H]; auto.
    destruct (IH H); auto.
Qed.

Lemma insert_by_total_desc (x : TopRow) (l : list TopRow) :
  StronglySorted by_total_desc l ->
  StronglySorted by_total_desc (insert_by (fun a b => total b <=? total a) x l).
Proof.
  induction 1 as [|z l Hs IH Hz]; simpl.
  - repeat constructor.
  - destruct (total z <=? total x) eqn:E.
    + apply Z.leb_le in E. constructor; [now constructor|].
      constructor; [exact E|]. eapply List.Forall_impl; [|exact Hz].
      unfold by_total_desc. intros. lia.
    + apply Z.leb_gt in E. constructor; [exact IH|].
      apply List.Forall_forall. intros y Hy. apply insert_by_In in Hy as [->|Hy].
      * unfold by_total_desc. lia.
      * rewrite List.Forall_forall in Hz. now apply Hz.
Qed.

Lemma order_by_total_desc (l : list TopRow) :
  StronglySorted by_total_desc (order_by (fun a b => total b <=? total a) l).
Proof.
  induction l as [|x l IH]; simpl; [constructor|]. now apply insert_by_total_desc.
Qed.

Lemma firstn_incl {A} (n : nat) (l : list A) (y : A) :
  List.In y (firstn n l) -> List.In y l.
Proof.
  revert n. induction l as [|x l IH]; intros [|n]; simpl; try tauto.
  intros [H|H]; [now left | right; eauto].
Qed.

Lemma firstn_sorted {A} (R : A -> A -> Prop) (n : nat) (l : list A) :
  StronglySorted R l -> StronglySorted R (firstn n l).
Proof.
  intros H. revert n. induction H as [|x l Hs IH Hx]; intros [|n]; simpl;
    try constructor; auto.
  apply List.Forall_forall. intros y Hy. apply firstn_incl in Hy.
  rewrite List.Forall_forall in Hx. now apply Hx.
Qed.

(** [ORDER BY total DESC LIMIT limit] *)
Lemma topQuery_bounded_sorted (rows : list WordTrend) (cutoff limit : Z) :
  (length (topQuery rows cutoff limit) <= Z.to_nat limit)%nat
  /\ StronglySorted by_total_desc (topQuery rows cutoff limit).
Proof.
  unfold topQuery. split.
  - apply List.firstn_le_length.
  - apply firstn_sorted, order_by_total_desc.
Qed.

(** ** Cache keys *)

Lemma colon_split (a a' b b' : jsstring) :
  ~ List.In 58 a -> ~ List.In 58 a' ->
  a ++ 58 :: b = a' ++ 58 :: b' -> a = a' /\ b = b'.
Proof.
  revert a'. induction a as [|x a IH]; intros [|x' a'] Ha Ha'; simpl; intros H.
  - injection H as H. now split.
  - injection H as H _. exfalso. apply Ha'. left. congruence.
  - injection H as H _. exfalso. apply Ha. left. congruence.
  - injection H as -> H. destruct (IH a') as [-> ->]; auto.
    + intros Hi. apply Ha. now right.
    + intros Hi. apply Ha'. now right.
Qed.

Lemma numToString_no_colon (n : Z) : ~ List.In 58 (numToString n).
Proof.
  intros H. pose proof (numToString_units n) as Hu.
  rewrite List.Forall_forall in Hu. destruct (Hu 58 H) as [Hd|Hd].
  - unfold isDecimal in Hd. lia.
  - lia.
Qed.

Lemma topKey_inj (m l m' l' : Z) : topKey m l = topKey m' l' -> m = m' /\ l = l'.
Proof.
  unfold topKey. intros H. apply List.app_inv_head in H.
  change (js ":") with [58] in H. simpl in H.
  apply colon_split in H; try apply numToString_no_colon.
  destruct H as [H1 H2]. split; now apply numToString_inj.
Qed.

Lemma topKey_tag (m l : Z) : nth 7 (topKey m l) 0 = 116.
Proof. reflexivity. Qed.

Section Handlers.
Variable lowerNonAscii : jsstring -> Z -> jsstring -> jsstring.

Lemma fit_set_other (cache : MooseCache.t) (now : Z) (key : jsstring) (v : json) (ttl : Z) :
  nth 7 key 0 <> 116 ->
  top_entries_fit cache -> top_entries_fit (MooseCache.set cache now key v ttl).
Proof.
  intros Hkey Hfit minutes limit v' expiry. unfold MooseCache.set. simpl.
  rewrite lookup_insert_ne; [apply Hfit|].
  intros ->. now rewrite topKey_tag in Hkey.
Qed.

Lemma startsWith_app (prefix rest : jsstring) : startsWith prefix (prefix ++ rest) = true.
Proof.
  induction prefix as [|c prefix IH]; simpl; [reflexivity|].
  now rewrite Z.eqb_refl, IH.
Qed.

Lemma fit_set_foreign (cache : MooseCache.t) (now : Z) (key : jsstring) (v : json) (ttl : Z) :
  startsWith (js "trends:top:") key = false ->
  top_entries_fit cache -> top_entries_fit (MooseCache.set cache now key v ttl).
Proof.
  intros Hkey Hfit minutes limit v' expiry. unfold MooseCache.set. simpl.
  rewrite lookup_insert_ne; [apply Hfit|].
  intros ->. unfold topKey in Hkey. now rewrite startsWith_app in Hkey.
Qed.

Lemma fit_set_top (cache : MooseCache.t) (now : Z) (rows : list WordTrend)
      (minutes limit cutoff ttl : Z) :
  top_entries_fit cache ->
  top_entries_fit
    (MooseCache.set cache now (topKey minutes limit)
       (JArr (List.map topRow_json (topQuery rows cutoff limit))) ttl).
Proof.
  intros Hfit minutes' limit' v' expiry. unfold MooseCache.set. simpl.
  destruct (decide (topKey minutes limit = topKey minutes' limit')) as [E|E].
  - rewrite E, lookup_insert_eq. intros [= <- _].
    apply topKey_inj in E as [_ <-].
    exists (topQuery rows cutoff limit). split; [reflexivity|].
    apply topQuery_bounded_sorted.
  - rewrite lookup_insert_ne by exact E. apply Hfit.
Qed.

Lemma served_fit (cache : MooseCache.t) :
  served lowerNonAscii cache -> top_entries_fit cache.
Proof.
  induction 1 as [|store cache now req _ IH|store cache now req _ IH
                  |store cache now req _ IH|store cache now _ IH
                  |cache now cursor _ IH|cache now key v ttl Hkey _ IH
                  |cache message _ IH].
  - intros minutes limit v expiry. simpl. now rewrite lookup_empty.
  - unfold search.
    repeat match goal with
           | |- context [match ?x with _ => _ end] => destruct x
           end; simpl; try exact IH.
    apply fit_set_other; [|exact IH]. discriminate.
  - unfold top.
    repeat match goal with
           | |- context [match ?x with _ => _ end] => destruct x
           end; simpl; try exact IH.
    now apply fit_set_top.
  - unfold compare.
    repeat match goal with
           | |- context [match ?x with _ => _ end] => destruct x
           | |- context [if ?x then _ else _] => destruct x
           end; simpl; try exact IH.
    apply fit_set_other; [|exact IH]. discriminate.
  - unfold stats.
    repeat match goal with
           | |- context [match ?x with _ => _ end] => destruct x
           end; simpl; try exact IH.
    apply fit_set_other; [|exact IH]. discriminate.
  - unfold Firehose.saveCursor. destruct (MooseCache.down cache); [exact IH|].
    apply fit_set_foreign; [reflexivity | exact IH].
  - now apply fit_set_foreign.
  - exact IH.
Qed.

(** C6. With the default window and limit (minutes 5, limit 20), a
    successful answer of /top, fresh or from the cache, carries at most
    20 rows, in non-increasing order of their summed count; and the
    answer is successful whenever cache and store can be reached.  The
    cache is in any state that the handlers of the API, the connector
    saving its cursor, other users of the store under keys of their own,
    and outages can bring about. *)
Theorem top_default_bounded_sorted
        (store : Store) (cache : MooseCache.t) (now : Z) (req : TopRequest) :
  served lowerNonAscii cache ->
  top_minutes req = 5 -> top_limit req = 20 ->
  let response := (top store cache now req).1 in
  (status response = 200 ->
   exists rows,
     obj_get (body response) (js "data") = Some (JArr (List.map topRow_json rows))
     /\ (length rows <= 20)%nat
     /\ StronglySorted by_total_desc rows)
  /\ (MooseCache.down cache = None -> (exists rows, store = Table rows) ->
      0 <= now <= 8640000000000000 ->
      status response = 200).
Proof.
  intros Hserved Hm Hl. apply served_fit in Hserved.
  unfold top. rewrite Hm, Hl. cbn zeta.
  destruct (MooseCache.down cache) as [message|];
    [simpl; split; intros; discriminate|].
  destruct (cacheHit cache now (topKey 5 20)) as [cached|] eqn:Hhit.
  - apply cacheHit_entry in Hhit as [expiry Hentry].
    destruct (Hserved 5 20 cached expiry Hentry) as (rows & -> & Hlen & Hsorted).
    simpl. split; [|reflexivity]. intros _. exists rows. auto.
  - destruct (TimeClip (now - 5 * 60 * 1000)) as [cutoff|] eqn:Hclip.
    + destruct store as [message|trows]; simpl.
      * split; [discriminate|]. intros _ [? [=]].
      * split; [|reflexivity]. intros _.
        exists (topQuery trows (formatDateForCH cutoff) 20).
        split; [reflexivity|]. apply (topQuery_bounded_sorted trows _ 20).
    + simpl. split; [discriminate|]. intros _ _ Hnow.
      unfold TimeClip in Hclip.
      destruct (Z.abs (now - 5 * 60 * 1000) <=? 8640000000000000) eqn:E;
        [discriminate | apply Z.leb_gt in E; lia].
Qed.


(** ** /compare *)

Lemma compareResults_get (rows : list WordTrend) (from to : Z)
      (words : list jsstring) (acc : object) (w : jsstring) :
  obj_get (fold_left (fun results word =>
                        obj_assign results word (series rows from to word))
                     words acc) w
  = if existsb (jsstring_eqb w) words && negb (jsstring_eqb w (js "__proto__"))
    then Some (series rows from to w) else obj_get acc w.
Proof.
  revert acc. induction words as [|x words IH]; intros acc; simpl; [reflexivity|].
  rewrite IH, obj_get_assign.
  destruct (jsstring_eqb w (js "__proto__")) eqn:Hp; cbn [negb].
  - rewrite !andb_false_r.
    destruct (jsstring_eqb x (js "__proto__")) eqn:Hx; [reflexivity|].
    destruct (jsstring_eqb x w) eqn:E; [|reflexivity].
    apply jsstring_eqb_eq in E. subst x. congruence.
  - rewrite !andb_true_r.
    destruct (existsb (jsstring_eqb w) words); [now rewrite orb_true_r|].
    rewrite orb_false_r.
    destruct (jsstring_eqb w x) eqn:E.
    + apply jsstring_eqb_eq in E. subst x. now rewrite Hp, jsstring_eqb_refl.
    + destruct (jsstring_eqb x (js "__proto__")); [reflexivity|].
      destruct (jsstring_eqb x w) eqn:E'; [|reflexivity].
      apply jsstring_eqb_eq in E'. subst x. now rewrite jsstring_eqb_refl in E.
Qed.

Lemma compareResults_lookup (rows : list WordTrend) (from to : Z)
      (words : list jsstring) (w : jsstring) :
  obj_get (compareResults rows words from to) w
  = if existsb (jsstring_eqb w) words && negb (jsstring_eqb w (js "__proto__"))
    then Some (series rows from to w) else None.
Proof. apply (compareResults_get rows from to words [] w). Qed.

Lemma existsb_eqb_In (w : jsstring) (words : list jsstring) :
  existsb (jsstring_eqb w) words = true <-> List.In w words.
Proof.
  rewrite existsb_exists. split.
  - intros (x & Hx & E). apply jsstring_eqb_eq in E. now subst.
  - intros H. exists w. split; [exact H | apply jsstring_eqb_refl].
Qed.

(** What holds of /compare.  It answers 400 when the [words] parameter
    is missing or empty, when cleaning it leaves no word, and when it
    leaves more than 10; with 1 to 10 words, a reachable cache without an
    entry for the request, valid dates and a reachable store, it answers
    200 with the words, the window, and under [data] an object that maps
    each word other than [__proto__] to the series of the query for that
    word, and nothing else. *)
Lemma compare_validation
        (store : Store) (cache : MooseCache.t) (now : Z) (req : CompareRequest) :
  let response := (compare lowerNonAscii store cache now req).1 in
  (q_words req = None \/ q_words req = Some [] -> status response = 400)
  /\ (forall wordsParam,
        q_words req = Some wordsParam ->
        cleanWords lowerNonAscii wordsParam = [] -> status response = 400)
  /\ (forall wordsParam,
        q_words req = Some wordsParam ->
        (10 < length (cleanWords lowerNonAscii wordsParam))%nat ->
        status response = 400)
  /\ (forall wordsParam rows from to,
        q_words req = Some wordsParam ->
        (1 <= length (cleanWords lowerNonAscii wordsParam) <= 10)%nat ->
        MooseCache.down cache = None ->
        default (Some (now - 60 * 60 * 1000)) (q_cfrom req) = Some from ->
        default (Some now) (q_cto req) = Some to ->
        cacheHit cache now
          (js "trends:compare:" ++ join (js ",") (cleanWords lowerNonAscii wordsParam)
             ++ js ":" ++ toISOString from ++ js ":" ++ toISOString to) = None ->
        store = Table rows ->
        let words := cleanWords lowerNonAscii wordsParam in
        exists results,
          status response = 200
          /\ body response
             = [(js "success", JBool true);
                (js "words", JArr (List.map JStr words));
                (js "from", dateJson from); (js "to", dateJson to);
                (js "data", JObj results)]
          /\ (forall w, List.In w words -> w <> js "__proto__" ->
                obj_get results w = Some (series rows from to w))
          /\ (forall w, ~ List.In w words \/ w = js "__proto__" ->
                obj_get results w = None)).
Proof.
  cbn zeta. unfold compare. repeat split.
  - intros [-> | ->]; reflexivity.
  - intros wordsParam -> Hclean. destruct wordsParam; [reflexivity|].
    now rewrite Hclean.
  - intros wordsParam -> Hlen. destruct wordsParam; [reflexivity|].
    destruct (length _ =? 0)%nat; [reflexivity|].
    apply Nat.ltb_lt in Hlen. now rewrite Hlen.
  - intros wordsParam rows from to -> [Hlo Hhi] Hdown Hfrom Hto Hmiss ->.
    destruct wordsParam as [|u wordsParam]; [simpl in Hlo; lia|].
    set (words := cleanWords lowerNonAscii (u :: wordsParam)) in *.
    replace (length words =? 0)%nat with false by (symmetry; apply Nat.eqb_neq; lia).
    replace (10 <? length words)%nat with false by (symmetry; apply Nat.ltb_ge; lia).
    rewrite Hdown, Hfrom, Hto, Hmiss.
    exists (compareResults rows words from to). repeat split.
    + intros w Hw Hp. rewrite compareResults_lookup.
      apply existsb_eqb_In in Hw. apply jsstring_eqb_neq in Hp.
      now rewrite Hw, Hp.
    + intros w Hw. rewrite compareResults_lookup.
      destruct Hw as [Hw| ->]; [|now rewrite jsstring_eqb_refl, andb_false_r].
      destruct (existsb (jsstring_eqb w) words) eqn:E; [|reflexivity].
      apply existsb_eqb_In in E. contradiction.
Qed.


(** ** /search *)

(** The true half of C1: once a fresh answer is cached, a request with
    the same word and window, inside the 30 seconds of the entry, is
    answered from the cache with the same [data]. *)
Lemma search_hit_same_data
      (store : Store) (rows : list WordTrend) (cache : MooseCache.t)
      (now now' : Z) (req : SearchRequest) (from to : Z) (u : Z) (w : jsstring) :
  q_word req = Some (u :: w) ->
  q_from req = Some (Some from) -> q_to req = Some (Some to) ->
  MooseCache.down cache = None ->
  cacheHit cache now
    (js "trends:search:" ++ toLowerCase lowerNonAscii (u :: w) ++ js ":"
       ++ toISOString from ++ js ":" ++ toISOString to) = None ->
  toLowerCase lowerNonAscii (u :: w) <> [] ->
  now' < now + 30 * 1000 ->
  let first := search lowerNonAscii (Table rows) cache now req in
  let second := search lowerNonAscii store first.2 now' req in
  exists data,
    obj_get (body first.1) (js "data") = Some data
    /\ body second.1
       = [(js "success", JBool true); (js "cached", JBool true); (js "data", data)]
    /\ status first.1 = 200 /\ status second.1 = 200.
Proof.
  intros Hw Hf Ht Hdown Hmiss Hne Hnow. cbn zeta. unfold search.
  rewrite Hw, Hf, Ht. cbn [fmap option_fmap option_map default from_option id].
  destruct (toLowerCase lowerNonAscii (u :: w)) as [|c word] eqn:Hword;
    [congruence|].
  assert (Hhit : forall k v,
             cacheHit (MooseCache.set cache now k (JArr v) 30) now' k = Some (JArr v)).
  { intros k v. unfold cacheHit. now rewrite get_set_same by exact Hnow. }
  rewrite Hdown, Hmiss. cbn [snd]. rewrite down_set, Hdown, Hhit.
  eexists. repeat split.
Qed.

End Handlers.

Lemma top_default_bounded_sorted_witness :
  let cache := Firehose.saveCursor 1699999000000 1699998999000123 MooseCache.empty in
  let response :=
    (top (Table [{| word := js "moose"; interval := 1699999990; totalCount := 3 |};
                 {| word := js "sky"; interval := 1699999980; totalCount := 7 |}])
         cache 1700000000000
         {| q_minutes := None; q_limit := Some (js "20") |}).1 in
  (status response = 200 ->
   exists rows,
     obj_get (body response) (js "data") = Some (JArr (List.map topRow_json rows))
     /\ (length rows <= 20)%nat
     /\ StronglySorted by_total_desc rows)
  /\ (MooseCache.down cache = None ->
      (exists rows,
         Table [{| word := js "moose"; interval := 1699999990; totalCount := 3 |};
                {| word := js "sky"; interval := 1699999980; totalCount := 7 |}]
         = Table rows) ->
      0 <= 1700000000000 <= 8640000000000000 ->
      status response = 200).
Proof.
  apply (top_default_bounded_sorted sampleLower);
    [apply served_cursor, served_empty | reflexivity | reflexivity].
Defined.

Lemma compare_validation_witness :
  status (compare sampleLower (Table []) MooseCache.empty 1700000000000
            {| q_words := Some (js "a,b,c,d,e,f,g,h,i,j,k");
               q_cfrom := None; q_cto := None |}).1 = 400
  /\ status (compare sampleLower (Table []) MooseCache.empty 1700000000000
               {| q_words := Some (js ""); q_cfrom := None; q_cto := None |}).1 = 400
  /\ status (compare sampleLower (Table []) MooseCache.empty 1700000000000
               {| q_words := Some (js " , ,"); q_cfrom := None; q_cto := None |}).1 = 400.
Proof.
  split; [|split].
  - destruct (compare_validation sampleLower (Table []) MooseCache.empty 1700000000000
                {| q_words := Some (js "a,b,c,d,e,f,g,h,i,j,k");
                   q_cfrom := None; q_cto := None |}) as (_ & _ & H & _).
    apply (H (js "a,b,c,d,e,f,g,h,i,j,k")); [reflexivity | vm_compute; lia].
  - destruct (compare_validation sampleLower (Table []) MooseCache.empty 1700000000000
                {| q_words := Some (js ""); q_cfrom := None; q_cto := None |})
      as (H & _).
    apply H. right. reflexivity.
  - destruct (compare_validation sampleLower (Table []) MooseCache.empty 1700000000000
                {| q_words := Some (js " , ,"); q_cfrom := None; q_cto := None |})
      as (_ & H & _).
    apply (H (js " , ,")); [reflexivity | vm_compute; reflexivity].
Defined.

(** C5 (evaluation at the failing input). GET /compare?words=__proto__
    with an explicit window, over a store that holds two rows of the
    token [__proto__].  The word passes the cleaning and the answer is
    200 with that word under [words], but [data] is the empty object:
    [results[word] = ...] ran the setter that [Object.prototype] gives
    every object, and no entry was made.  The series that the claim
    wants under [data] is not empty; /search returns it for the same
    word and window. *)
Theorem compare_drops_proto_word
        (lowerNonAscii : jsstring -> Z -> jsstring -> jsstring) :
  let rows :=
    [{| word := js "__proto__"; interval := 1700000000; totalCount := 3 |};
     {| word := js "moose"; interval := 1700000010; totalCount := 1 |};
     {| word := js "__proto__"; interval := 1700000020; totalCount := 5 |}] in
  let from := 1699999000000 in
  let to := 1700000100000 in
  let now := 1700000100000 in
  let answer :=
    (compare lowerNonAscii (Table rows) MooseCache.empty now
       {| q_words := Some (js "__proto__");
          q_cfrom := Some (Some from); q_cto := Some (Some to) |}).1 in
  let found :=
    (search lowerNonAscii (Table rows) MooseCache.empty now
       {| q_word := Some (js "__proto__");
          q_from := Some (Some from); q_to := Some (Some to) |}).1 in
  cleanWords lowerNonAscii (js "__proto__") = [js "__proto__"]
  /\ status answer = 200
  /\ obj_get (body answer) (js "words") = Some (JArr [JStr (js "__proto__")])
  /\ obj_get (body answer) (js "data") = Some (JObj [])
  /\ series rows from to (js "__proto__")
     = JArr [JObj [(js "interval", JNum 1700000000); (js "count", JNum 3)];
             JObj [(js "interval", JNum 1700000020); (js "count", JNum 5)]]
  /\ obj_get (body found) (js "data") = Some (series rows from to (js "__proto__"))
  /\ obj_get (body answer) (js "data")
     <> Some (JObj [(js "__proto__", series rows from to (js "__proto__"))]).
Proof.
  vm_compute. repeat split; try reflexivity. discriminate.
Qed.

(** C1 (evaluation at the failing input). GET /search?word=Moose with an
    explicit window, asked twice one second apart over an empty cache.
    The fresh answer has the fields success, word, from, to and data; the
    answer from the cache has success, cached and data only.  The data
    are the same, but without the cached flag the two answers differ:
    word, from and to are missing from the second. *)
Theorem search_cache_hit_drops_fields
        (lowerNonAscii : jsstring -> Z -> jsstring -> jsstring) :
  let store :=
    Table [{| word := js "moose"; interval := 1700000000; totalCount := 3 |};
           {| word := js "sky"; interval := 1700000010; totalCount := 1 |};
           {| word := js "moose"; interval := 1700000020; totalCount := 5 |}] in
  let req := {| q_word := Some (js "Moose");
                q_from := Some (Some 1699999000000);
                q_to := Some (Some 1700000100000) |} in
  let fresh := search lowerNonAscii store MooseCache.empty 1700000100000 req in
  let hit := search lowerNonAscii store fresh.2 1700000101000 req in
  status fresh.1 = 200 /\ status hit.1 = 200
  /\ obj_keys (body fresh.1) = List.map js ["success"; "word"; "from"; "to"; "data"]%string
  /\ obj_keys (body hit.1) = List.map js ["success"; "cached"; "data"]%string
  /\ MooseCache.get fresh.2 1700000101000
       (js "trends:search:moose:2023-11-14T21:56:40.000Z:2023-11-14T22:15:00.000Z")
     = obj_get (body fresh.1) (js "data")
  /\ obj_get (body hit.1) (js "data") = obj_get (body fresh.1) (js "data")
  /\ obj_get (body fresh.1) (js "data")
     = Some (JArr [JObj [(js "interval", JNum 1700000000); (js "count", JNum 3)];
                   JObj [(js "interval", JNum 1700000020); (js "count", JNum 5)]])
  /\ obj_get (body fresh.1) (js "word") = Some (JStr (js "moose"))
  /\ obj_get (body hit.1) (js "word") = None
  /\ obj_remove (body hit.1) (js "cached") <> body fresh.1.
Proof.
  vm_compute. repeat split; try reflexivity. discriminate.
Qed.
End TrendsFacts.

Module FirehoseFacts.
Import JsString JsNumber Json Transforms Firehose StringFacts NumberFacts TrendsFacts Notions.

(** ** The batch queue *)

Lemma clearTimeout_single (h : nat) (due : Z) : clearTimeout h [(h, due)] = [].
Proof. unfold clearTimeout. simpl. now rewrite Nat.eqb_refl. Qed.

Lemma flushBatch_effect (st : State) :
  (batchTimer st = None /\ timeouts st = []
   \/ exists h, batchTimer st = Some h
                /\ (timeouts st = [] \/ exists due, timeouts st = [(h, due)])) ->
  postBatch (flushBatch st) = []
  /\ batchTimer (flushBatch st) = None
  /\ timeouts (flushBatch st) = []
  /\ sent (flushBatch st)
     = match postBatch st with [] => sent st | _ :: _ => sent st ++ [postBatch st] end
  /\ currentCursor (flushBatch st) = currentCursor st
  /\ cache (flushBatch st) = cache st.
Proof.
  intros H. unfold flushBatch. destruct st as [batch timer ? ? ? ? pending ? ? ?].
  simpl in H.
  destruct H as [[-> ->]|(h & -> & [->|[due ->]])]; cbn;
    rewrite ?Nat.eqb_refl; destruct batch; cbn; repeat split; reflexivity.
Qed.

Lemma queue_ok_flushBatch (st : State) : queue_ok st -> queue_ok (flushBatch st).
Proof.
  intros [Hlen Hq].
  destruct (flushBatch_effect st) as (Hb & Ht & Hp & _).
  { destruct Hq as [(_ & -> & ->)|(_ & h & due & -> & ->)]; [now left|].
    right. exists h. split; [reflexivity|]. right. now exists due. }
  split; [rewrite Hb; unfold BATCH_SIZE; simpl; lia|]. now left.
Qed.

Lemma queuePost_full (now : Z) (post : BlueskyPost) (st : State) :
  queue_ok st -> S (length (postBatch st)) = BATCH_SIZE ->
  let st' := queuePost now post st in
  sent st' = sent st ++ [postBatch st ++ [post]]
  /\ postBatch st' = [] /\ batchTimer st' = None /\ timeouts st' = [].
Proof.
  intros [_ Hq] Hfull. unfold queuePost. cbn zeta.
  set (st1 := set_batch (postBatch st ++ [post]) (batchTimer st) st).
  assert (Hlen : length (postBatch st1) = BATCH_SIZE).
  { subst st1. cbn [postBatch set_batch]. rewrite List.length_app. cbn [length]. lia. }
  rewrite Hlen, Nat.leb_refl.
  destruct (flushBatch_effect st1) as (Hb & Ht & Hp & Hs & _).
  { subst st1. simpl.
    destruct Hq as [(_ & -> & ->)|(_ & h & due & -> & ->)]; [now left|].
    right. exists h. split; [reflexivity|]. right. now exists due. }
  rewrite Hb, Ht, Hp, Hs. subst st1. simpl.
  destruct (postBatch st ++ [post]) eqn:E; [|auto].
  now apply List.app_eq_nil in E as [_ [=]].
Qed.

Lemma queuePost_open (now : Z) (post : BlueskyPost) (st : State) :
  queue_ok st -> (S (length (postBatch st)) < BATCH_SIZE)%nat ->
  let st' := queuePost now post st in
  sent st' = sent st
  /\ postBatch st' = postBatch st ++ [post]
  /\ currentCursor st' = currentCursor st
  /\ exists h due,
       batchTimer st' = Some h /\ timeouts st' = [(h, due)]
       /\ (postBatch st = [] -> due = now + BATCH_INTERVAL_MS)
       /\ (postBatch st <> [] -> batchTimer st' = batchTimer st /\ timeouts st' = timeouts st).
Proof.
  intros [_ Hq] Hopen. unfold queuePost. cbn zeta.
  set (st1 := set_batch (postBatch st ++ [post]) (batchTimer st) st).
  assert (Hlen : (BATCH_SIZE <=? length (postBatch st1))%nat = false).
  { subst st1. cbn [postBatch set_batch]. rewrite List.length_app. cbn [length].
    apply Nat.leb_gt. lia. }
  rewrite Hlen. subst st1. destruct st as [batch timer ? ? ? ? pending next ? ?].
  simpl in Hq |- *.
  destruct Hq as [(-> & -> & ->)|(Hb & h & due & -> & ->)]; simpl.
  - repeat split. exists next, (now + BATCH_INTERVAL_MS). repeat split; congruence.
  - repeat split. exists h, due. repeat split; congruence.
Qed.

Lemma queue_ok_queuePost (now : Z) (post : BlueskyPost) (st : State) :
  queue_ok st -> queue_ok (queuePost now post st).
Proof.
  intros Hok. pose proof Hok as [Hlen _].
  destruct (Nat.eq_dec (S (length (postBatch st))) BATCH_SIZE) as [E|E].
  - destruct (queuePost_full now post st Hok E) as (_ & Hb & Ht & Hp).
    split; [rewrite Hb; unfold BATCH_SIZE; simpl; lia|]. now left.
  - destruct (queuePost_open now post st Hok ltac:(lia))
      as (_ & Hb & _ & h & due & Ht & Hp & _).
    split; [rewrite Hb, List.length_app; simpl; lia|].
    right. split; [|now exists h, due].
    rewrite Hb. intros H. now apply List.app_eq_nil in H as [_ [=]].
Qed.

Lemma logStats_queue (now : Z) (st : State) :
  postBatch (logStats now st) = postBatch st
  /\ batchTimer (logStats now st) = batchTimer st
  /\ timeouts (logStats now st) = timeouts st
  /\ sent (logStats now st) = sent st
  /\ currentCursor (logStats now st) = currentCursor st.
Proof. unfold logStats. destruct (_ <=? _); simpl; auto. Qed.

Lemma trackCursor_queue (now : Z) (data : option JetStreamMessage) (st : State) :
  postBatch (trackCursor now data st) = postBatch st
  /\ batchTimer (trackCursor now data st) = batchTimer st
  /\ timeouts (trackCursor now data st) = timeouts st
  /\ sent (trackCursor now data st) = sent st.
Proof.
  unfold trackCursor. destruct data as [rawMsg|]; [|auto].
  destruct (time_us rawMsg =? 0); [auto|]. cbn zeta.
  destruct (_ mod 1000 =? 0); [|simpl; auto].
  match goal with |- context [logStats now ?s] =>
    destruct (logStats_queue now s) as (-> & -> & -> & -> & _) end.
  simpl. auto.
Qed.

Lemma queue_ok_fields (st st' : State) :
  postBatch st' = postBatch st -> batchTimer st' = batchTimer st ->
  timeouts st' = timeouts st -> queue_ok st -> queue_ok st'.
Proof. unfold queue_ok. intros -> -> ->. auto. Qed.

Lemma onTimer_due (now : Z) (h : nat) (due : Z) (st : State) :
  batchTimer st = Some h -> timeouts st = [(h, due)] ->
  (now < due -> onTimer now h st = None)
  /\ (due <= now ->
      exists st', onTimer now h st = Some st'
                  /\ sent st'
                     = match postBatch st with
                       | [] => sent st
                       | _ :: _ => sent st ++ [postBatch st]
                       end
                  /\ postBatch st' = [] /\ batchTimer st' = None /\ timeouts st' = []).
Proof.
  intros Ht Hp. unfold onTimer. rewrite Hp. simpl. rewrite Nat.eqb_refl. split.
  - intros H. apply Z.leb_gt in H. now rewrite H.
  - intros H. apply Z.leb_le in H. rewrite H. simpl.
    match goal with |- context [flushBatch ?s] => set (st1 := s) end.
    destruct (flushBatch_effect st1) as (Hb & Ht' & Hp' & Hs & _).
    { subst st1. simpl. right. exists h. split; [exact Ht|]. now left. }
    exists (flushBatch st1). repeat split; auto.
Qed.

Lemma queue_ok_onTimer (now : Z) (h : nat) (st st' : State) :
  queue_ok st -> onTimer now h st = Some st' -> queue_ok st'.
Proof.
  intros [Hlen Hq] Hstep.
  destruct Hq as [(_ & _ & Hp)|(_ & h' & due & Ht & Hp)].
  - unfold onTimer in Hstep. rewrite Hp in Hstep. discriminate.
  - destruct (Nat.eq_dec h' h) as [->|Hne].
    + destruct (Z_lt_le_dec now due) as [Hl|Hl].
      * destruct (onTimer_due now h due st Ht Hp) as [Hn _].
        rewrite (Hn Hl) in Hstep. discriminate.
      * destruct (onTimer_due now h due st Ht Hp) as [_ Hd].
        destruct (Hd Hl) as (st'' & E & _ & Hb & Ht' & Hp').
        rewrite E in Hstep. injection Hstep as <-.
        split; [rewrite Hb; unfold BATCH_SIZE; simpl; lia|]. now left.
    + unfold onTimer in Hstep. rewrite Hp in Hstep. simpl in Hstep.
      apply Nat.eqb_neq in Hne. rewrite Hne in Hstep. discriminate.
Qed.

Lemma queue_ok_reachable (st : State) : reachable st -> queue_ok st.
Proof.
  induction 1 as [startedAt c|st now e st' _ IH Hstep].
  - split; [unfold BATCH_SIZE; simpl; lia|]. now left.
  - destruct e as [| |data|h|succeeded n|]; simpl in Hstep;
      try (injection Hstep as <-).
    + eapply queue_ok_fields; [| | |exact IH]; reflexivity.
    + eapply queue_ok_fields; [| | |exact IH]; reflexivity.
    + unfold onMessage.
      assert (Hc : queue_ok (trackCursor now data st)).
      { destruct (trackCursor_queue now data st) as (H1 & H2 & H3 & _).
        eapply queue_ok_fields; eauto. }
      destruct (parseJetStreamMessage data); [now apply queue_ok_queuePost | exact Hc].
    + eapply queue_ok_onTimer; eauto.
    + unfold sendSettled. destruct succeeded; [|exact IH].
      eapply queue_ok_fields; [| | |exact IH]; reflexivity.
    + unfold onClose. pose proof (queue_ok_flushBatch st IH) as Hf.
      destruct (0 <? _); [|exact Hf].
      eapply queue_ok_fields; [| | |exact Hf]; reflexivity.
Qed.

(** C8. The batch queue flushes on whichever trigger comes first.  In
    every state the connector can reach there is at most one pending
    timeout, and there is one exactly while a batch is open.  The post
    that fills the batch (BATCH_SIZE, 100) is sent with it inside
    [queuePost], and the timeout is cleared, so the flush does not wait
    for it.  A post that leaves the batch short keeps the batch and its
    single timeout, due BATCH_INTERVAL_MS after the first post of the
    batch; the timeout does nothing before it is due, and when it fires
    it sends the batch. *)
Theorem batch_queue_flush_triggers (st : State) :
  reachable st ->
  (length (timeouts st) <= 1)%nat
  /\ (length (postBatch st) < BATCH_SIZE)%nat
  /\ (postBatch st = [] -> batchTimer st = None /\ timeouts st = [])
  /\ (postBatch st <> [] ->
      exists h due, batchTimer st = Some h /\ timeouts st = [(h, due)])
  /\ (forall now post,
        S (length (postBatch st)) = BATCH_SIZE ->
        let st' := queuePost now post st in
        sent st' = sent st ++ [postBatch st ++ [post]]
        /\ postBatch st' = [] /\ batchTimer st' = None /\ timeouts st' = [])
  /\ (forall now post,
        (S (length (postBatch st)) < BATCH_SIZE)%nat ->
        let st' := queuePost now post st in
        sent st' = sent st
        /\ postBatch st' = postBatch st ++ [post]
        /\ exists h due,
             batchTimer st' = Some h /\ timeouts st' = [(h, due)]
             /\ (postBatch st = [] -> due = now + BATCH_INTERVAL_MS)
             /\ (postBatch st <> [] -> timeouts st' = timeouts st)
             /\ (forall now', now' < due -> onTimer now' h st' = None)
             /\ (forall now', due <= now' ->
                   exists st'',
                     onTimer now' h st' = Some st''
                     /\ sent st'' = sent st' ++ [postBatch st']
                     /\ postBatch st'' = [] /\ batchTimer st'' = None
                     /\ timeouts st'' = [])).
Proof.
  intros Hreach. pose proof (queue_ok_reachable st Hreach) as Hok.
  pose proof Hok as [Hlen Hq]. repeat split.
  - destruct Hq as [(_ & _ & ->)|(_ & h & due & _ & ->)]; simpl; lia.
  - exact Hlen.
  - destruct Hq as [(_ & Ht & _)|(Hb & _)]; [exact Ht | contradiction].
  - destruct Hq as [(_ & _ & Hp)|(Hb & _)]; [exact Hp | contradiction].
  - intros Hb. destruct Hq as [(Hb' & _)|(_ & Hq)]; [contradiction | exact Hq].
  - apply (queuePost_full now post st Hok H).
  - apply (queuePost_full now post st Hok H).
  - apply (queuePost_full now post st Hok H).
  - apply (queuePost_full now post st Hok H).
  - apply (queuePost_open now post st Hok H).
  - apply (queuePost_open now post st Hok H).
  - destruct (queuePost_open now post st Hok H)
      as (Hs & Hb & _ & h & due & Ht & Hp & Hdue & Hsame).
    exists h, due.
    destruct (onTimer_due (due - 1) h due _ Ht Hp) as [_ _].
    repeat split; auto.
    + intros Hne. now apply Hsame.
    + intros now' Hn. now apply (onTimer_due now' h due _ Ht Hp).
    + intros now' Hn.
      destruct (onTimer_due now' h due _ Ht Hp) as [_ Hfire].
      destruct (Hfire Hn) as (st'' & E & Hs'' & Hrest).
      exists st''. split; [exact E|]. split; [|exact Hrest].
      rewrite Hs'', Hb. destruct (postBatch st ++ [post]) eqn:E'; [|reflexivity].
      now apply List.app_eq_nil in E' as [_ [=]].
Qed.

Lemma batch_queue_flush_triggers_witness :
  let st := initial 1700000000000 MooseCache.empty in
  (length (timeouts st) <= 1)%nat
  /\ (length (postBatch st) < BATCH_SIZE)%nat
  /\ (postBatch st = [] -> batchTimer st = None /\ timeouts st = [])
  /\ (postBatch st <> [] ->
      exists h due, batchTimer st = Some h /\ timeouts st = [(h, due)])
  /\ (forall now post,
        S (length (postBatch st)) = BATCH_SIZE ->
        let st' := queuePost now post st in
        sent st' = sent st ++ [postBatch st ++ [post]]
        /\ postBatch st' = [] /\ batchTimer st' = None /\ timeouts st' = [])
  /\ (forall now post,
        (S (length (postBatch st)) < BATCH_SIZE)%nat ->
        let st' := queuePost now post st in
        sent st' = sent st
        /\ postBatch st' = postBatch st ++ [post]
        /\ exists h due,
             batchTimer st' = Some h /\ timeouts st' = [(h, due)]
             /\ (postBatch st = [] -> due = now + BATCH_INTERVAL_MS)
             /\ (postBatch st <> [] -> timeouts st' = timeouts st)
             /\ (forall now', now' < due -> onTimer now' h st' = None)
             /\ (forall now', due <= now' ->
                   exists st'',
                     onTimer now' h st' = Some st''
                     /\ sent st'' = sent st' ++ [postBatch st']
                     /\ postBatch st'' = [] /\ batchTimer st'' = None
                     /\ timeouts st'' = [])).
Proof.
  apply (batch_queue_flush_triggers (initial 1700000000000 MooseCache.empty)).
  apply reachable_initial.
Defined.

(** ** The cursor *)

Lemma flushBatch_cursor (st : State) :
  currentCursor (flushBatch st) = currentCursor st.
Proof.
  unfold flushBatch. destruct st as [batch [h|] ? ? ? ? ? ? ? ?]; cbn;
    destruct batch; reflexivity.
Qed.

Lemma queuePost_cursor (now : Z) (post : BlueskyPost) (st : State) :
  currentCursor (queuePost now post st) = currentCursor st.
Proof.
  unfold queuePost. cbn zeta. destruct (_ <=? _)%nat.
  - now rewrite flushBatch_cursor.
  - destruct st as [batch [h|] ? ? ? ? ? ? ? ?]; reflexivity.
Qed.

Lemma trackCursor_cursor (now : Z) (data : option JetStreamMessage) (st : State) :
  currentCursor (trackCursor now data st)
  = match data with
    | Some msg => if time_us msg =? 0 then currentCursor st else time_us msg
    | None => currentCursor st
    end.
Proof.
  unfold trackCursor. destruct data as [msg|]; [|reflexivity].
  destruct (time_us msg =? 0); [reflexivity|]. cbn zeta.
  destruct (_ mod 1000 =? 0); [|reflexivity].
  match goal with |- context [logStats now ?s] =>
    destruct (logStats_queue now s) as (_ & _ & _ & _ & ->) end.
  reflexivity.
Qed.

(** The handler leaves in the cursor the position of the message, when
    it has one. *)
Lemma onMessage_cursor (now : Z) (data : option JetStreamMessage) (st : State) :
  currentCursor (onMessage now data st)
  = match data with
    | Some msg => if time_us msg =? 0 then currentCursor st else time_us msg
    | None => currentCursor st
    end.
Proof.
  unfold onMessage. cbn zeta. destruct (parseJetStreamMessage data).
  - rewrite queuePost_cursor. apply trackCursor_cursor.
  - apply trackCursor_cursor.
Qed.

(** C9 (counterexample). Two messages whose positions arrive out of
    order: the second one lowers the cursor. *)
Lemma cursor_can_decrease :
  ~ (forall st now data,
       reachable st -> currentCursor st <= currentCursor (onMessage now data st)).
Proof.
  intros H.
  specialize (H (onMessage 1700000000001 (Some (identityEvent 1700000000000200))
                           (initial 1700000000000 MooseCache.empty))
                1700000000002 (Some (identityEvent 1700000000000100))).
  rewrite !onMessage_cursor in H. simpl in H.
  assert (Hr : reachable (onMessage 1700000000001 (Some (identityEvent 1700000000000200))
                            (initial 1700000000000 MooseCache.empty))).
  { apply (reachable_step (initial 1700000000000 MooseCache.empty) 1700000000001
                          (Message (Some (identityEvent 1700000000000200))));
      [apply reachable_initial | reflexivity]. }
  specialize (H Hr). lia.
Qed.

(** C9 (amended). After a message the cursor is the position of that
    message, whether it is above or below the cursor, or unchanged when
    the message has none or cannot be parsed; so it does not go down as
    long as the feed hands out positions that are at least the current
    cursor. *)
Theorem cursor_follows_feed (st : State) (now : Z) (data : option JetStreamMessage) :
  currentCursor (onMessage now data st)
  = match data with
    | Some msg => if time_us msg =? 0 then currentCursor st else time_us msg
    | None => currentCursor st
    end
  /\ ((forall msg, data = Some msg -> time_us msg <> 0 ->
                   currentCursor st <= time_us msg) ->
      currentCursor st <= currentCursor (onMessage now data st)).
Proof.
  split; [apply onMessage_cursor|]. intros Hfeed.
  rewrite onMessage_cursor. destruct data as [msg|]; [|lia].
  destruct (time_us msg =? 0) eqn:E; [lia|].
  apply Z.eqb_neq in E. now apply Hfeed.
Qed.

Lemma cursor_follows_feed_witness :
  let st := onMessage 1700000000001 (Some (identityEvent 1700000000000200))
                      (initial 1700000000000 MooseCache.empty) in
  let data := Some (identityEvent 1700000000000100) in
  currentCursor st = 1700000000000200
  /\ currentCursor (onMessage 1700000000002 data st) = 1700000000000100.
Proof.
  split; [reflexivity|].
  apply (proj1 (cursor_follows_feed
                  (onMessage 1700000000001 (Some (identityEvent 1700000000000200))
                             (initial 1700000000000 MooseCache.empty))
                  1700000000002 (Some (identityEvent 1700000000000100)))).
Defined.

Lemma numToString_nonempty (n : Z) : numToString n <> [].
Proof.
  intros E. pose proof (parseInt_numToString n) as H. rewrite E in H. discriminate.
Qed.

Lemma loadCursor_stored (now : Z) (c : MooseCache.t) (C : Z) :
  MooseCache.down c = None ->
  MooseCache.get c now CURSOR_KEY = Some (JStr (numToString C)) ->
  loadCursor now c = C.
Proof.
  intros Hdown Hget. unfold loadCursor. rewrite Hdown, Hget.
  pose proof (numToString_nonempty C) as Hne.
  pose proof (parseInt_numToString C) as Hparse.
  destruct (numToString C) as [|u value]; [congruence|].
  cbv beta iota. exact (f_equal (default 0) Hparse).
Qed.

Lemma loadCursor_absent (now : Z) (c : MooseCache.t) :
  MooseCache.down c <> None \/ MooseCache.get c now CURSOR_KEY = None ->
  loadCursor now c = (now - 24 * 60 * 60 * 1000) * 1000.
Proof.
  unfold loadCursor. intros [H|H].
  - destruct (MooseCache.down c); [reflexivity | congruence].
  - rewrite H. destruct (MooseCache.down c); reflexivity.
Qed.

Lemma connectUrl_positive (st : State) :
  0 < currentCursor st ->
  connectUrl st = JETSTREAM_BASE_URL ++ js "&cursor=" ++ numToString (currentCursor st).
Proof. intros H. unfold connectUrl. apply Z.ltb_lt in H. now rewrite H. Qed.

(** C7. At the start of the task the cursor is loaded, and the first
    connection is opened with it.  A cursor C that was saved before (and
    has not expired) comes back as C, and the URL carries
    [&cursor=C].  With nothing stored, or a store that cannot be reached,
    the cursor is the current time minus 24 hours, in microseconds; the
    URL carries that value, which lies before now. *)
Theorem resume_from_cursor (st : State) (now : Z) :
  (forall C,
     0 < C ->
     MooseCache.down (cache st) = None ->
     MooseCache.get (cache st) now CURSOR_KEY = Some (JStr (numToString C)) ->
     currentCursor (start now st) = C
     /\ connectUrl (connect (start now st))
        = JETSTREAM_BASE_URL ++ js "&cursor=" ++ numToString C)
  /\ (forall C savedAt c0,
        0 < C ->
        MooseCache.down c0 = None ->
        cache st = saveCursor savedAt C c0 ->
        now < savedAt + 7 * 24 * 60 * 60 * 1000 ->
        currentCursor (start now st) = C
        /\ connectUrl (connect (start now st))
           = JETSTREAM_BASE_URL ++ js "&cursor=" ++ numToString C)
  /\ (MooseCache.down (cache st) <> None
      \/ MooseCache.get (cache st) now CURSOR_KEY = None ->
      24 * 60 * 60 * 1000 < now ->
      currentCursor (start now st) = (now - 24 * 60 * 60 * 1000) * 1000
      /\ connectUrl (connect (start now st))
         = JETSTREAM_BASE_URL ++ js "&cursor="
             ++ numToString ((now - 24 * 60 * 60 * 1000) * 1000)
      /\ currentCursor (start now st) < now * 1000).
Proof.
  assert (Hstored : forall C,
             0 < C -> MooseCache.down (cache st) = None ->
             MooseCache.get (cache st) now CURSOR_KEY = Some (JStr (numToString C)) ->
             currentCursor (start now st) = C
             /\ connectUrl (connect (start now st))
                = JETSTREAM_BASE_URL ++ js "&cursor=" ++ numToString C).
  { intros C HC Hdown Hget.
    assert (E : currentCursor (start now st) = C)
      by (cbn; now apply loadCursor_stored).
    split; [exact E|]. rewrite connectUrl_positive; cbn; cbn in E; rewrite E; auto. }
  split; [exact Hstored|]. split.
  - intros C savedAt c0 HC Hdown Hcache Hnow. apply Hstored; [exact HC | |].
    + rewrite Hcache. unfold saveCursor. now rewrite Hdown.
    + rewrite Hcache. unfold saveCursor. rewrite Hdown.
      apply get_set_same. lia.
  - intros Habsent Hnow.
    assert (E : currentCursor (start now st) = (now - 24 * 60 * 60 * 1000) * 1000)
      by (cbn; now apply loadCursor_absent).
    split; [exact E|]. split; [|lia].
    rewrite connectUrl_positive; cbn; cbn in E; rewrite E; auto. lia.
Qed.

Lemma resume_from_cursor_witness :
  let st := initial 1700000000000
              (saveCursor 1699999000000 1699998999000123 MooseCache.empty) in
  currentCursor (start 1700000000000 st) = 1699998999000123
  /\ connectUrl (connect (start 1700000000000 st))
     = JETSTREAM_BASE_URL ++ js "&cursor=" ++ numToString 1699998999000123.
Proof.
  apply (proj1 (proj2 (resume_from_cursor
                         (initial 1700000000000
                            (saveCursor 1699999000000 1699998999000123 MooseCache.empty))
                         1700000000000))
               1699998999000123 1699999000000 MooseCache.empty);
    [lia | reflexivity | reflexivity | lia].
Defined.
End FirehoseFacts.

(* ===================================================================== *)
(** * The response cache of the API *)
(* ===================================================================== *)

Module TrendsCacheFacts.
Import JsString JsNumber JsDate Json Trends Notions WindowNotions.
Import StringFacts NumberFacts TrendsFacts.

Lemma cacheHit_set_same (c : MooseCache.t) (now now' : Z) (k : jsstring) (v : json) (ttl : Z) :
  truthy v = true -> now' < now + ttl * 1000 ->
  cacheHit (MooseCache.set c now k v ttl) now' k = Some v.
Proof.
  intros Hv Hnow. unfold cacheHit. rewrite get_set_same by exact Hnow. now rewrite Hv.
Qed.

Lemma cacheHit_set_expired (c : MooseCache.t) (now now' : Z) (k : jsstring) (v : json) (ttl : Z) :
  now + ttl * 1000 <= now' ->
  cacheHit (MooseCache.set c now k v ttl) now' k = None.
Proof.
  intros Hnow. unfold cacheHit. now rewrite get_set_expired by exact Hnow.
Qed.

Lemma cacheHit_set_other (c : MooseCache.t) (now now' : Z) (k k' : jsstring) (v : json) (ttl : Z) :
  k <> k' ->
  cacheHit (MooseCache.set c now k v ttl) now' k' = cacheHit c now' k'.
Proof.
  intros Hk. unfold cacheHit, MooseCache.get, MooseCache.set. simpl.
  now rewrite lookup_insert_ne by exact Hk.
Qed.

Lemma cacheHit_empty (now : Z) (k : jsstring) : cacheHit MooseCache.empty now k = None.
Proof. unfold cacheHit, MooseCache.get. simpl. now rewrite lookup_empty. Qed.

Ltac search_failing :=
  first [ left; congruence
        | right; left; reflexivity
        | right; right; left; reflexivity
        | right; right; right; split;
          [eauto | intros ? ? [= <-] [= <-]; assumption] ].

Ltac search_refute H :=
  destruct H as [H|[H|[H|[[? ?] H]]]]; try congruence;
  try (specialize (H _ _ eq_refl eq_refl); congruence).

Section Handlers.
Variable lowerNonAscii : jsstring -> Z -> jsstring -> jsstring.


(** X2. /stats keeps every field on a cache hit, for the 60 seconds of the
    entry; at the end of them the store is asked again. *)
Theorem stats_hit_keeps_fields
        (store' : Store) (rows rows' : list WordTrend) (cache : MooseCache.t)
        (now now' : Z) :
  MooseCache.down cache = None ->
  cacheHit cache now (js "trends:stats") = None ->
  let first := stats (Table rows) cache now in
  (now' < now + 60 * 1000 ->
   let second := stats store' first.2 now' in
   status second.1 = 200
   /\ obj_get (body second.1) (js "cached") = Some (JBool true)
   /\ obj_remove (body second.1) (js "cached") = body first.1
   /\ second.2 = first.2)
  /\ (now + 60 * 1000 <= now' ->
      (stats (Table rows') first.2 now').1
      = (stats (Table rows') MooseCache.empty now').1).
Proof.
  intros Hdown Hmiss. cbn zeta. unfold stats. rewrite Hdown, Hmiss.
  cbn [snd fst]. rewrite down_set, Hdown. split.
  - intros Hnow. rewrite cacheHit_set_same by (reflexivity || exact Hnow).
    repeat split.
  - intros Hnow. rewrite cacheHit_set_expired by exact Hnow. reflexivity.
Qed.

(** X3. /top serves its cache for 15 seconds and no longer: after a fresh
    answer the same request gets the cached rows, marked [cached], until the
    entry is 15 seconds old, even when the store has become unreachable;
    from then on it is answered from the store again.  For requests whose
    limit and window, in milliseconds, are safe integers, at a time that
    is one: there the numbers of the runtime are the integers here. *)
Theorem top_cache_window
        (store' : Store) (rows rows' : list WordTrend) (cache : MooseCache.t)
        (now now' : Z) (req : TopRequest) (cutoff : Z) :
  safeInteger (top_limit req) ->
  safeInteger (top_minutes req * 60 * 1000) ->
  safeInteger now ->
  MooseCache.down cache = None ->
  cacheHit cache now (topKey (top_minutes req) (top_limit req)) = None ->
  TimeClip (now - top_minutes req * 60 * 1000) = Some cutoff ->
  let first := top (Table rows) cache now req in
  let data :=
    JArr (List.map topRow_json (topQuery rows (formatDateForCH cutoff) (top_limit req))) in
  body first.1
  = [(js "success", JBool true); (js "minutes", JNum (top_minutes req));
     (js "limit", JNum (top_limit req)); (js "data", data)]
  /\ (now' < now + 15 * 1000 ->
      (top store' first.2 now' req).1
      = {| status := 200;
           body := [(js "success", JBool true); (js "cached", JBool true);
                    (js "data", data)] |})
  /\ (now + 15 * 1000 <= now' ->
      (top (Table rows') first.2 now' req).1
      = (top (Table rows') MooseCache.empty now' req).1).
Proof.
  intros _ _ _ Hdown Hmiss Hclip. cbn zeta. unfold top. rewrite Hdown, Hmiss, Hclip.
  cbn [snd fst]. rewrite down_set, Hdown. split; [reflexivity|]. split.
  - intros Hnow. rewrite cacheHit_set_same by (reflexivity || exact Hnow). reflexivity.
  - intros Hnow. rewrite cacheHit_set_expired by exact Hnow.
    rewrite cacheHit_empty. cbn [MooseCache.down MooseCache.empty].
    destruct (TimeClip (now' - _)); reflexivity.
Qed.

(** X4. Two /top requests share a cache entry only when they agree on
    minutes and limit: a fresh answer for one pair leaves the lookup for
    every other pair as it was.  For pairs of safe integers: there the
    numbers of the runtime, and their text in the key, are the integers
    here. *)
Theorem top_entries_do_not_mix
        (store : Store) (cache : MooseCache.t) (now now' : Z) (req : TopRequest)
        (minutes limit : Z) :
  safeInteger (top_minutes req) -> safeInteger (top_limit req) ->
  safeInteger minutes -> safeInteger limit ->
  (minutes, limit) <> (top_minutes req, top_limit req) ->
  cacheHit (top store cache now req).2 now' (topKey minutes limit)
  = cacheHit cache now' (topKey minutes limit).
Proof.
  intros _ _ _ _ Hne. unfold top.
  repeat match goal with
         | |- context [match ?x with _ => _ end] => destruct x
         end; cbn [snd]; try reflexivity.
  apply cacheHit_set_other. intros E. apply topKey_inj in E as [E1 E2]. congruence.
Qed.

(** X5. The handlers write the cache only with a fresh, successful answer.
    Each of /search, /top, /compare and /stats either leaves the cache as it
    found it, or answers 200 without the [cached] flag and adds one entry, with
    a time to live of 30, 15, 30 and 60 seconds. *)
Theorem cache_written_only_by_fresh_answers
        (store : Store) (cache : MooseCache.t) (now : Z) :
  let fresh (ttl : Z) (out : Response * MooseCache.t) :=
    out.2 = cache
    \/ (status out.1 = 200 /\ obj_get (body out.1) (js "cached") = None
        /\ exists key value, out.2 = MooseCache.set cache now key value ttl) in
  (forall req, fresh 30 (search lowerNonAscii store cache now req))
  /\ (forall req, fresh 15 (top store cache now req))
  /\ (forall req, fresh 30 (compare lowerNonAscii store cache now req))
  /\ fresh 60 (stats store cache now).
Proof.
  cbn zeta. repeat split; try intros req.
  - unfold search.
    repeat match goal with
           | |- context [match ?x with _ => _ end] => destruct x
           end; cbn [snd fst]; try (now left).
    right. repeat split. eauto.
  - unfold top.
    repeat match goal with
           | |- context [match ?x with _ => _ end] => destruct x
           end; cbn [snd fst]; try (now left).
    right. repeat split. eauto.
  - unfold compare.
    repeat match goal with
           | |- context [match ?x with _ => _ end] => destruct x
           | |- context [if ?x then _ else _] => destruct x
           end; cbn [snd fst]; try (now left).
    right. repeat split. eauto.
  - unfold stats.
    repeat match goal with
           | |- context [match ?x with _ => _ end] => destruct x
           end; cbn [snd fst]; try (now left).
    right. split; [reflexivity|]. split; [|eauto].
    unfold statsQuery. destruct rows; reflexivity.
Qed.

(** X6. The status of /search: 400 exactly when the word is missing or
    empty (also after lower-casing); otherwise 500 exactly when the cache
    cannot be reached, a date is invalid, or the request misses the cache
    and the store cannot be reached; otherwise 200. *)
Theorem search_status
        (store : Store) (cache : MooseCache.t) (now : Z) (req : SearchRequest) :
  let response := (search lowerNonAscii store cache now req).1 in
  let word := default [] (toLowerCase lowerNonAscii <$> q_word req) in
  let from := default (Some (now - 60 * 60 * 1000)) (q_from req) in
  let to := default (Some now) (q_to req) in
  let failing :=
    MooseCache.down cache <> None \/ from = None \/ to = None
    \/ (exists message, store = Unreachable message)
       /\ (forall f t, from = Some f -> to = Some t ->
             cacheHit cache now
               (js "trends:search:" ++ word ++ js ":" ++ toISOString f ++ js ":"
                  ++ toISOString t) = None) in
  (status response = 400 <-> word = [])
  /\ (status response = 500 <-> word <> [] /\ failing)
  /\ (status response = 200 <-> word <> [] /\ ~ failing).
Proof.
  cbn zeta. unfold search.
  destruct (q_word req) as [w|]; cbn [fmap option_fmap option_map default from_option id];
    [|repeat split; try discriminate; try tauto; intros [H _]; congruence].
  destruct (toLowerCase lowerNonAscii w) as [|c word] eqn:Hword;
    [repeat split; try discriminate; try tauto; intros [H _]; congruence|].
  destruct (MooseCache.down cache) as [message|] eqn:Hdown.
  { repeat split; try discriminate; try congruence.
    - now left.
    - intros [_ Hn]. exfalso. apply Hn. now left. }
  destruct (q_from req) as [[f|]|], (q_to req) as [[t|]|];
    cbn [default from_option id];
    try (repeat split; try discriminate; try congruence; try tauto;
         intros [_ Hn]; exfalso; apply Hn; tauto).
  all: match goal with
       | |- context [cacheHit ?c ?n ?k] =>
           destruct (cacheHit c n k) as [cached|] eqn:Hhit
       end.
  all: try destruct store as [message|rows]; cbn [fst status error500 ok].
  all: repeat split; intros; try discriminate; try congruence.
  all: try match goal with H : _ /\ _ |- _ => destruct H end.
  all: try (match goal with |- ~ _ => intros HF; search_refute HF end).
  all: try (match goal with HF : _ \/ _ |- _ => search_refute HF end).
  all: try (match goal with Hn : ~ _ |- _ => exfalso; apply Hn; search_failing end).
  all: try search_failing.
Qed.

End Handlers.
End TrendsCacheFacts.

(* ===================================================================== *)
(** * The queries of the API *)
(* ===================================================================== *)

Module QueryFacts.
Import JsString JsNumber JsDate Json Trends Notions QueryNotions StringFacts TrendsFacts.

Lemma insert_by_perm {A} (le : A -> A -> bool) (x : A) (l : list A) :
  Permutation (insert_by le x l) (x :: l).
Proof.
  induction l as [|y l IH]; simpl; [reflexivity|].
  destruct (le x y); [reflexivity|].
  rewrite IH. apply perm_swap.
Qed.

Lemma order_by_perm {A} (le : A -> A -> bool) (l : list A) :
  Permutation (order_by le l) l.
Proof.
  induction l as [|x l IH]; simpl; [reflexivity|].
  rewrite insert_by_perm. now constructor.
Qed.

Lemma insert_by_interval_asc (x : WordTrend) (l : list WordTrend) :
  StronglySorted (fun a b => interval a <= interval b) l ->
  StronglySorted (fun a b => interval a <= interval b)
    (insert_by (fun a b => interval a <=? interval b) x l).
Proof.
  induction 1 as [|z l Hs IH Hz]; simpl.
  - repeat constructor.
  - destruct (interval x <=? interval z) eqn:E.
    + apply Z.leb_le in E. constructor; [now constructor|].
      constructor; [exact E|]. eapply List.Forall_impl; [|exact Hz].
      cbn. intros. lia.
    + apply Z.leb_gt in E. constructor; [exact IH|].
      apply List.Forall_forall. intros y Hy. apply insert_by_In in Hy as [->|Hy].
      * lia.
      * rewrite List.Forall_forall in Hz. now apply Hz.
Qed.

Lemma order_by_interval_asc (l : list WordTrend) :
  StronglySorted (fun a b => interval a <= interval b)
    (order_by (fun a b => interval a <=? interval b) l).
Proof.
  induction l as [|x l IH]; simpl; [constructor|]. now apply insert_by_interval_asc.
Qed.

Lemma filter_split {A} (f : A -> bool) (l : list A) :
  Permutation l (List.filter f l ++ List.filter (fun x => negb (f x)) l).
Proof.
  induction l as [|x l IH]; simpl; [reflexivity|].
  destruct (f x); simpl.
  - now constructor.
  - now apply Permutation_cons_app.
Qed.

(** X7. The query of /search returns all the rows of the word inside the
    window and nothing else, each as often as the table has it, in
    ascending order of the interval. *)
Theorem searchQuery_sound_complete_sorted
        (rows : list WordTrend) (w : jsstring) (from to : Z) :
  let result := searchQuery rows w from to in
  (forall r, List.In r result <-> List.In r rows /\ matches w from to r)
  /\ (exists others,
        Permutation rows (result ++ others)
        /\ Forall (fun r => ~ matches w from to r) others)
  /\ StronglySorted (fun a b => interval a <= interval b) result.
Proof.
  cbn zeta. unfold searchQuery.
  set (f := fun r => jsstring_eqb (word r) w && (from <=? interval r) && (interval r <=? to)).
  assert (Hf : forall r, f r = true <-> matches w from to r).
  { intros r. unfold f, matches. rewrite !andb_true_iff, jsstring_eqb_eq, !Z.leb_le. tauto. }
  split; [|split].
  - intros r. split.
    + intros Hin. apply (Permutation_in _ (order_by_perm _ _)) in Hin.
      apply filter_In in Hin as [Hin Hm]. split; [exact Hin | now apply Hf].
    + intros [Hin Hm]. apply (Permutation_in _ (Permutation_sym (order_by_perm _ _))).
      apply filter_In. split; [exact Hin | now apply Hf].
  - exists (List.filter (fun r => negb (f r)) rows). split.
    + rewrite order_by_perm. apply filter_split.
    + apply List.Forall_forall. intros r Hr. apply filter_In in Hr as [_ Hr].
      rewrite <- Hf. destruct (f r); [discriminate | congruence].
  - apply order_by_interval_asc.
Qed.

(** ** Grouping *)

Lemma wordSum_snoc (w : jsstring) (rows : list WordTrend) (r : WordTrend) :
  wordSum w (rows ++ [r])
  = wordSum w rows + (if jsstring_eqb (word r) w then totalCount r else 0).
Proof.
  unfold wordSum. rewrite List.filter_app, List.map_app, fold_right_app. simpl.
  destruct (jsstring_eqb (word r) w); simpl.
  - generalize (List.map totalCount (List.filter (fun r0 => jsstring_eqb (word r0) w) rows)).
    intros l. induction l as [|x l IH]; simpl; lia.
  - lia.
Qed.

Lemma hasWord_snoc (w : jsstring) (rows : list WordTrend) (r : WordTrend) :
  hasWord w (rows ++ [r]) = hasWord w rows || jsstring_eqb (word r) w.
Proof. unfold hasWord. rewrite existsb_app. simpl. now rewrite orb_false_r. Qed.

Lemma hasWord_In (w : jsstring) (rows : list WordTrend) :
  hasWord w rows = true <-> exists r, List.In r rows /\ word r = w.
Proof.
  unfold hasWord. rewrite existsb_exists. split; intros (r & Hr & E); exists r;
    (split; [exact Hr|]); now apply jsstring_eqb_eq.
Qed.

Lemma groupTotal_add (acc : list TopRow) (w w' : jsstring) (n : Z) :
  groupTotal (add_total acc w n) w'
  = if jsstring_eqb w w' then Some (default 0 (groupTotal acc w) + n)
    else groupTotal acc w'.
Proof.
  induction acc as [|g acc IH]; simpl.
  - destruct (jsstring_eqb w w'); reflexivity.
  - destruct (jsstring_eqb (top_word g) w) eqn:E; simpl.
    + apply jsstring_eqb_eq in E. rewrite E.
      destruct (jsstring_eqb w w'); reflexivity.
    + rewrite IH. destruct (jsstring_eqb (top_word g) w') eqn:E'; [|reflexivity].
      apply jsstring_eqb_eq in E'. apply jsstring_eqb_neq in E.
      destruct (jsstring_eqb w w') eqn:E''; [|reflexivity].
      apply jsstring_eqb_eq in E''. congruence.
Qed.

Lemma groupTotal_None (acc : list TopRow) (w : jsstring) :
  groupTotal acc w = None <-> ~ List.In w (List.map top_word acc).
Proof.
  induction acc as [|g acc IH]; simpl; [tauto|].
  destruct (jsstring_eqb (top_word g) w) eqn:E.
  - apply jsstring_eqb_eq in E. split; [discriminate | tauto].
  - apply jsstring_eqb_neq in E. rewrite IH. tauto.
Qed.

Lemma groupTotal_In (acc : list TopRow) (g : TopRow) :
  List.NoDup (List.map top_word acc) -> List.In g acc ->
  groupTotal acc (top_word g) = Some (total g).
Proof.
  induction acc as [|g0 acc IH]; simpl; [tauto|].
  intros Hnd [->|H].
  - now rewrite jsstring_eqb_refl.
  - apply List.NoDup_cons_iff in Hnd as [Hg0 Hnd].
    destruct (jsstring_eqb (top_word g0) (top_word g)) eqn:E; [|now apply IH].
    apply jsstring_eqb_eq in E. exfalso. apply Hg0. rewrite E. now apply in_map.
Qed.

Lemma groupTotal_Some (acc : list TopRow) (w : jsstring) (n : Z) :
  groupTotal acc w = Some n ->
  exists g, List.In g acc /\ top_word g = w /\ total g = n.
Proof.
  induction acc as [|g acc IH]; simpl; [discriminate|].
  destruct (jsstring_eqb (top_word g) w) eqn:E.
  - apply jsstring_eqb_eq in E. intros [= <-]. exists g. auto.
  - intros H. destruct (IH H) as (g' & Hg' & Hw). exists g'. auto.
Qed.

Lemma words_add_total (acc : list TopRow) (w : jsstring) (n : Z) :
  List.map top_word (add_total acc w n)
  = match groupTotal acc w with
    | Some _ => List.map top_word acc
    | None => List.map top_word acc ++ [w]
    end.
Proof.
  induction acc as [|g acc IH]; simpl; [reflexivity|].
  destruct (jsstring_eqb (top_word g) w) eqn:E; simpl.
  - apply jsstring_eqb_eq in E. now rewrite E.
  - rewrite IH. destruct (groupTotal acc w); reflexivity.
Qed.

(** What the grouping loop holds after the rows [done]. *)
Record grouped (done : list WordTrend) (acc : list TopRow) : Prop := {
  grouped_nodup : List.NoDup (List.map top_word acc);
  grouped_total : forall w,
    groupTotal acc w = if hasWord w done then Some (wordSum w done) else None
}.

Lemma grouped_step (done : list WordTrend) (acc : list TopRow) (r : WordTrend) :
  grouped done acc -> grouped (done ++ [r]) (add_total acc (word r) (totalCount r)).
Proof.
  intros [Hnd Htot]. constructor.
  - rewrite words_add_total. destruct (groupTotal acc (word r)) eqn:E; [exact Hnd|].
    apply List.NoDup_app; [exact Hnd | repeat constructor; simpl; tauto |].
    intros x Hx [<-|[]]. now apply groupTotal_None in E.
  - intros w. rewrite groupTotal_add, hasWord_snoc, wordSum_snoc, (Htot w), (Htot (word r)).
    destruct (jsstring_eqb (word r) w) eqn:E.
    + apply jsstring_eqb_eq in E. subst w. rewrite orb_true_r.
      destruct (hasWord (word r) done) eqn:Hh; simpl; [reflexivity|].
      f_equal. unfold wordSum.
      assert (Hnone : List.filter (fun r0 => jsstring_eqb (word r0) (word r)) done = []).
      { destruct (List.filter _ done) as [|x l] eqn:Hfl; [reflexivity|].
        assert (Hx : List.In x (x :: l)) by now left.
        rewrite <- Hfl in Hx. apply filter_In in Hx as [Hx Hw].
        unfold hasWord in Hh. rewrite <- not_true_iff_false, existsb_exists in Hh.
        exfalso. apply Hh. eauto. }
      rewrite Hnone. reflexivity.
    + rewrite orb_false_r, Z.add_0_r. reflexivity.
Qed.

Lemma grouped_fold (rows done : list WordTrend) (acc : list TopRow) :
  grouped done acc ->
  grouped (done ++ rows)
    (fold_left (fun acc r => add_total acc (word r) (totalCount r)) rows acc).
Proof.
  revert done acc. induction rows as [|r rows IH]; intros done acc H; simpl.
  - now rewrite List.app_nil_r.
  - replace (done ++ r :: rows) with ((done ++ [r]) ++ rows)
      by now rewrite <- List.app_assoc.
    apply IH. now apply grouped_step.
Qed.

Lemma group_totals_grouped (rows : list WordTrend) : grouped rows (group_totals rows).
Proof.
  apply (grouped_fold rows [] []). constructor; [constructor | reflexivity].
Qed.

Lemma windowSum_wordSum (cutoff : Z) (w : jsstring) (rows : list WordTrend) :
  wordSum w (List.filter (fun r => cutoff <=? interval r) rows) = windowSum cutoff w rows.
Proof.
  unfold wordSum, windowSum. f_equal. f_equal.
  induction rows as [|r rows IH]; simpl; [reflexivity|].
  destruct (cutoff <=? interval r), (jsstring_eqb (word r) w) eqn:E; simpl;
    rewrite ?E, IH; reflexivity.
Qed.

Lemma inWindow_hasWord (cutoff : Z) (w : jsstring) (rows : list WordTrend) :
  hasWord w (List.filter (fun r => cutoff <=? interval r) rows) = true
  <-> inWindow cutoff w rows.
Proof.
  rewrite hasWord_In. unfold inWindow. split.
  - intros (r & Hr & Hw). apply filter_In in Hr as [Hr Hc]. apply Z.leb_le in Hc. eauto.
  - intros (r & Hr & Hw & Hc). exists r. split; [|exact Hw].
    apply filter_In. split; [exact Hr | now apply Z.leb_le].
Qed.

Lemma sorted_app_order {A} (R : A -> A -> Prop) (l1 l2 : list A) :
  StronglySorted R (l1 ++ l2) ->
  forall x y, List.In x l1 -> List.In y l2 -> R x y.
Proof.
  induction l1 as [|a l1 IH]; simpl; [tauto|].
  intros H x y [->|Hx] Hy; inversion H as [|? ? Hs Ha]; subst.
  - rewrite List.Forall_forall in Ha. apply Ha. apply in_or_app. now right.
  - now apply IH.
Qed.

Lemma firstn_nodup {A} (n : nat) (l : list A) : List.NoDup l -> List.NoDup (firstn n l).
Proof.
  intros H. rewrite <- (firstn_skipn n l) in H. now apply List.NoDup_app_remove_r in H.
Qed.

(** X8. The query of /top returns one row per word, with the sum of the
    word's counts over the rows at or after the cutoff, and only words that
    have such a row.  A word of the window that is left out is left out
    because the limit is reached, and then its sum is not above the total of
    any row that is returned. *)
Theorem topQuery_totals_and_cut
        (rows : list WordTrend) (cutoff limit : Z) :
  let result := topQuery rows cutoff limit in
  List.NoDup (List.map top_word result)
  /\ (forall g, List.In g result ->
        total g = windowSum cutoff (top_word g) rows
        /\ inWindow cutoff (top_word g) rows)
  /\ (forall w, inWindow cutoff w rows ->
        (exists g, List.In g result /\ top_word g = w)
        \/ (length result = Z.to_nat limit
            /\ forall g, List.In g result -> windowSum cutoff w rows <= total g)).
Proof.
  cbn zeta. unfold topQuery.
  set (window := List.filter (fun r => cutoff <=? interval r) rows).
  set (sorted := order_by (fun a b => total b <=? total a) (group_totals window)).
  destruct (group_totals_grouped window) as [Hnd Htot].
  assert (Hperm : Permutation sorted (group_totals window)) by apply order_by_perm.
  assert (Hnd' : List.NoDup (List.map top_word sorted)).
  { eapply Permutation_NoDup; [|exact Hnd]. apply Permutation_map.
    now apply Permutation_sym. }
  assert (Hsorted : StronglySorted by_total_desc sorted) by apply order_by_total_desc.
  assert (Hgroup : forall g, List.In g sorted ->
             total g = windowSum cutoff (top_word g) rows
             /\ inWindow cutoff (top_word g) rows).
  { intros g Hg. apply (Permutation_in _ Hperm) in Hg.
    pose proof (groupTotal_In _ g Hnd Hg) as Hget. rewrite Htot in Hget.
    destruct (hasWord (top_word g) window) eqn:Hh; [|discriminate].
    injection Hget as Hget. split.
    - rewrite <- windowSum_wordSum. fold window. congruence.
    - now apply inWindow_hasWord. }
  split; [|split].
  - rewrite <- List.firstn_map. now apply firstn_nodup.
  - intros g Hg. apply Hgroup. now apply firstn_incl in Hg.
  - intros w Hw. apply inWindow_hasWord in Hw. fold window in Hw.
    pose proof (Htot w) as Hget. rewrite Hw in Hget.
    apply groupTotal_Some in Hget as (g & Hg & Hgw & Hgt).
    apply (Permutation_in _ (Permutation_sym Hperm)) in Hg.
    rewrite <- (firstn_skipn (Z.to_nat limit) sorted) in Hg.
    apply in_app_or in Hg as [Hg|Hg]; [left; eauto|]. right. split.
    + rewrite List.length_firstn. apply Nat.min_l.
      destruct (Nat.le_gt_cases (Z.to_nat limit) (length sorted)) as [Hle|Hmore];
        [exact Hle|].
      rewrite List.skipn_all2 in Hg by lia. contradiction.
    + intros g' Hg'. rewrite <- (firstn_skipn (Z.to_nat limit) sorted) in Hsorted.
      pose proof (sorted_app_order _ _ _ Hsorted g' g Hg' Hg) as Hord.
      unfold by_total_desc in Hord.
      rewrite <- windowSum_wordSum. fold window. lia.
Qed.
End QueryFacts.

(* ===================================================================== *)
(** * The connector over sequences of events *)
(* ===================================================================== *)

Module FeedFacts.
Import JsString JsNumber Json Transforms Firehose Notions FeedNotions.
Import StringFacts NumberFacts TrendsFacts FirehoseFacts.

Lemma flushBatch_sent (st : State) :
  sent (flushBatch st)
  = match postBatch st with [] => sent st | _ :: _ => sent st ++ [postBatch st] end
  /\ postBatch (flushBatch st) = []
  /\ cache (flushBatch st) = cache st
  /\ messageCount (flushBatch st) = messageCount st.
Proof.
  unfold flushBatch. destruct st as [batch [h|] ? ? ? ? ? ? ? ?]; cbn;
    destruct batch; cbn; auto.
Qed.

Lemma queuePost_sent (now : Z) (post : BlueskyPost) (st : State) :
  concat (sent (queuePost now post st)) ++ postBatch (queuePost now post st)
  = concat (sent st) ++ postBatch st ++ [post]
  /\ cache (queuePost now post st) = cache st
  /\ messageCount (queuePost now post st) = messageCount st.
Proof.
  unfold queuePost. cbn zeta. destruct (_ <=? _)%nat.
  - match goal with |- context [flushBatch ?s] =>
      destruct (flushBatch_sent s) as (Hs & Hb & Hc & Hm) end.
    rewrite Hs, Hb, Hc, Hm. cbn [postBatch sent cache messageCount set_batch].
    destruct (postBatch st ++ [post]) eqn:E.
    + now apply List.app_eq_nil in E as [_ [=]].
    + rewrite concat_app. simpl. now rewrite !List.app_nil_r.
  - destruct st as [batch [h|] ? ? ? ? ? ? ? ?]; cbn; auto.
Qed.

Lemma trackCursor_fields (now : Z) (data : option JetStreamMessage) (st : State) :
  cache (trackCursor now data st)
  = match data with
    | Some msg =>
        if (time_us msg =? 0) || negb ((messageCount st + 1) mod 1000 =? 0)
        then cache st
        else saveCursor now (time_us msg) (cache st)
    | None => cache st
    end
  /\ messageCount (trackCursor now data st)
     = match data with
       | Some msg => if time_us msg =? 0 then messageCount st else messageCount st + 1
       | None => messageCount st
       end.
Proof.
  unfold trackCursor. destruct data as [msg|]; [|auto].
  destruct (time_us msg =? 0); [auto|]. cbn zeta.
  cbn [messageCount set_cursor orb].
  destruct (_ mod 1000 =? 0); cbn [negb]; [|auto].
  unfold logStats. destruct (_ <=? _); cbn; auto.
Qed.

Lemma onMessage_fields (now : Z) (data : option JetStreamMessage) (st : State) :
  cache (onMessage now data st)
  = match data with
    | Some msg =>
        if (time_us msg =? 0) || negb ((messageCount st + 1) mod 1000 =? 0)
        then cache st
        else saveCursor now (time_us msg) (cache st)
    | None => cache st
    end
  /\ messageCount (onMessage now data st)
     = match data with
       | Some msg => if time_us msg =? 0 then messageCount st else messageCount st + 1
       | None => messageCount st
       end.
Proof.
  unfold onMessage. cbn zeta.
  destruct (trackCursor_fields now data st) as [Hc Hm].
  destruct (parseJetStreamMessage data) as [post|]; [|auto].
  destruct (queuePost_sent now post (trackCursor now data st)) as (_ & -> & ->). auto.
Qed.

(** ** No post is lost *)

Lemma step_conserves (now : Z) (e : event) (st st' : State) :
  step now e st = Some st' ->
  concat (sent st') ++ postBatch st'
  = concat (sent st) ++ postBatch st ++ accepted [(now, e)].
Proof.
  assert (Hflush : forall s, concat (sent (flushBatch s)) ++ postBatch (flushBatch s)
                             = concat (sent s) ++ postBatch s).
  { intros s. destruct (flushBatch_sent s) as (-> & -> & _).
    destruct (postBatch s); [reflexivity|].
    rewrite concat_app. simpl. now rewrite !List.app_nil_r. }
  unfold accepted. destruct e as [| |data|h|succeeded n|]; simpl; intros Hstep;
    try (injection Hstep as <-); rewrite ?List.app_nil_r; try reflexivity.
  - unfold onMessage. cbn zeta.
    destruct (trackCursor_queue now data st) as (Hb & _ & _ & Hs).
    destruct (parseJetStreamMessage data) as [post|]; simpl.
    + destruct (queuePost_sent now post (trackCursor now data st)) as (-> & _).
      now rewrite Hb, Hs.
    + now rewrite Hb, Hs, List.app_nil_r.
  - unfold onTimer in Hstep. destruct (List.find _ _) as [[h' due]|]; [|discriminate].
    destruct (due <=? now); [|discriminate]. injection Hstep as <-.
    now rewrite Hflush.
  - unfold sendSettled. destruct succeeded; reflexivity.
  - unfold onClose. cbn zeta. destruct (0 <? _); cbn; apply Hflush.
Qed.

Lemma run_conserves (events : list (Z * event)) (st st' : State) :
  run events st = Some st' ->
  concat (sent st') ++ postBatch st'
  = concat (sent st) ++ postBatch st ++ accepted events.
Proof.
  revert st. induction events as [|[now e] events IH]; intros st; simpl.
  - intros [= <-]. now rewrite List.app_nil_r.
  - destruct (step now e st) as [st1|] eqn:Hstep; [|discriminate].
    intros Hrun. rewrite (IH st1 Hrun), List.app_assoc.
    rewrite (step_conserves now e st st1 Hstep).
    unfold accepted. simpl. now rewrite List.app_nil_r, <- !List.app_assoc.
Qed.

(** X9. Batching neither loses, nor repeats, nor reorders posts: after any
    sequence of events, the batches handed to the stream followed by the
    open batch are the posts of the messages, in their order of arrival. *)
Theorem posts_conserved
        (events : list (Z * event)) (startedAt : Z) (c : MooseCache.t) (st : State) :
  run events (initial startedAt c) = Some st ->
  concat (sent st) ++ postBatch st = accepted events.
Proof. intros Hrun. now rewrite (run_conserves events _ st Hrun). Qed.


(** ** The size of the batches *)

Lemma flushBatch_sizes (st : State) :
  queue_ok st ->
  Forall (fun b => (1 <= length b <= BATCH_SIZE)%nat) (sent st) ->
  Forall (fun b => (1 <= length b <= BATCH_SIZE)%nat) (sent (flushBatch st)).
Proof.
  intros [Hlen _] Hall. destruct (flushBatch_sent st) as (-> & _).
  destruct (postBatch st) as [|p batch] eqn:E; [exact Hall|].
  apply Forall_app. split; [exact Hall|].
  apply List.Forall_cons; [|apply List.Forall_nil]. simpl in *. lia.
Qed.

Lemma step_sizes (now : Z) (e : event) (st st' : State) :
  queue_ok st -> step now e st = Some st' ->
  Forall (fun b => (1 <= length b <= BATCH_SIZE)%nat) (sent st) ->
  Forall (fun b => (1 <= length b <= BATCH_SIZE)%nat) (sent st').
Proof.
  intros Hq Hstep Hall.
  destruct e as [| |data|h|succeeded n|]; simpl in Hstep;
    try (injection Hstep as <-); try exact Hall.
  - unfold onMessage. cbn zeta.
    destruct (trackCursor_queue now data st) as (Hb & Ht & Hp & Hs).
    assert (Hq1 : queue_ok (trackCursor now data st))
      by (apply (queue_ok_fields st); assumption).
    destruct (parseJetStreamMessage data) as [post|]; [|now rewrite Hs].
    destruct Hq1 as [Hlen Hshape].
    destruct (Nat.eq_dec (S (length (postBatch (trackCursor now data st)))) BATCH_SIZE)
      as [Hfull|Hopen].
    + destruct (queuePost_full now post _ (conj Hlen Hshape) Hfull) as (-> & _).
      rewrite Hs. apply Forall_app. split; [exact Hall|].
      apply List.Forall_cons; [|apply List.Forall_nil].
      rewrite List.length_app. simpl. lia.
    + destruct (queuePost_open now post _ (conj Hlen Hshape) ltac:(lia)) as (-> & _).
      now rewrite Hs.
  - unfold onTimer in Hstep. destruct (List.find _ _) as [[h' due]|] eqn:Hfind;
      [|discriminate].
    destruct (due <=? now); [|discriminate]. injection Hstep as <-.
    match goal with |- context [flushBatch ?s] =>
      destruct (flushBatch_sent s) as (-> & _) end.
    cbn [postBatch sent set_timeouts].
    destruct Hq as [Hlen _].
    destruct (postBatch st) as [|p batch] eqn:E; [exact Hall|].
    apply Forall_app. split; [exact Hall|].
    apply List.Forall_cons; [|apply List.Forall_nil]. simpl in *. lia.
  - unfold sendSettled. destruct succeeded; exact Hall.
  - unfold onClose. cbn zeta.
    assert (H := flushBatch_sizes st Hq Hall).
    destruct (0 <? _); exact H.
Qed.

(** X10. The stream is never handed an empty batch, nor one of more than
    [BATCH_SIZE] posts. *)
Theorem sent_batches_sized (st : State) :
  reachable st ->
  Forall (fun batch => (1 <= length batch <= BATCH_SIZE)%nat) (sent st).
Proof.
  induction 1 as [startedAt c | st now e st' Hreach IH Hstep].
  - apply List.Forall_nil.
  - eapply step_sizes; eauto. now apply queue_ok_reachable.
Qed.

(** ** Closing the connection *)

Lemma onClose_fields (now : Z) (st : State) :
  postBatch (onClose now st) = []
  /\ sent (onClose now st)
     = match postBatch st with [] => sent st | _ :: _ => sent st ++ [postBatch st] end
  /\ currentCursor (onClose now st) = currentCursor st
  /\ cache (onClose now st)
     = if 0 <? currentCursor st
       then saveCursor now (currentCursor st) (cache st)
       else cache st.
Proof.
  unfold onClose. cbn zeta. rewrite flushBatch_cursor.
  destruct (flushBatch_sent st) as (Hs & Hb & Hc & _).
  destruct (0 <? currentCursor st); cbn; rewrite ?flushBatch_cursor, Hs, Hb, Hc; auto.
Qed.

(** X11. When the connection closes, the open batch is handed over and
    the queue is left empty with no timeout pending.  The next connection
    of the same run asks for the position held in memory, if that is
    positive.  A later run of the task finds that position in the cache
    for seven days, and after that falls back to 24 hours before its
    start; with the cache out of reach nothing is stored at all. *)
Theorem close_then_resume (st : State) (now later : Z) :
  reachable st ->
  let st' := onClose now st in
  let rerun := start later (initial later (cache st')) in
  (postBatch st' = [] /\ batchTimer st' = None /\ timeouts st' = []
   /\ concat (sent st') = concat (sent st) ++ postBatch st)
  /\ connectUrl (connect st')
     = (if 0 <? currentCursor st
        then JETSTREAM_BASE_URL ++ js "&cursor=" ++ numToString (currentCursor st)
        else JETSTREAM_BASE_URL)
  /\ (0 < currentCursor st -> MooseCache.down (cache st) = None ->
      (later < now + 7 * 24 * 60 * 60 * 1000 ->
       currentCursor rerun = currentCursor st)
      /\ (now + 7 * 24 * 60 * 60 * 1000 <= later ->
          currentCursor rerun = (later - 24 * 60 * 60 * 1000) * 1000))
  /\ (currentCursor st <= 0 \/ MooseCache.down (cache st) <> None ->
      cache st' = cache st)
  /\ (MooseCache.down (cache st) <> None ->
      currentCursor rerun = (later - 24 * 60 * 60 * 1000) * 1000).
Proof.
  intros Hreach. cbv zeta. apply queue_ok_reachable in Hreach.
  destruct (onClose_fields now st) as (Hb & Hs & Hc & Hcache).
  assert (Hq' : queue_ok (onClose now st)).
  { unfold onClose. cbn zeta.
    pose proof (queue_ok_flushBatch st Hreach) as Hq.
    destruct (0 <? currentCursor (flushBatch st)); [|exact Hq].
    eapply queue_ok_fields; [| | |exact Hq]; reflexivity. }
  cbn [start initial currentCursor set_cursor cache].
  split; [|split; [|split; [|split]]].
  - destruct Hq' as [_ [(_ & Ht & Hp)|(Hne & _)]]; [|contradiction].
    repeat split; try assumption. rewrite Hs.
    destruct (postBatch st); [now rewrite List.app_nil_r|].
    rewrite concat_app. simpl. now rewrite !List.app_nil_r.
  - unfold connectUrl, connect. cbn [currentCursor set_cursor]. now rewrite Hc.
  - intros Hpos Hup.
    assert (Hsaved : cache (onClose now st)
                     = MooseCache.set (cache st) now CURSOR_KEY
                         (JStr (numToString (currentCursor st))) (60 * 60 * 24 * 7)).
    { rewrite Hcache. replace (0 <? currentCursor st) with true
        by (symmetry; apply Z.ltb_lt; exact Hpos).
      unfold saveCursor. now rewrite Hup. }
    split; intros Hlater.
    + apply loadCursor_stored; rewrite Hsaved; [exact Hup|].
      apply get_set_same. lia.
    + apply loadCursor_absent. right. rewrite Hsaved.
      apply get_set_expired. lia.
  - intros Hno. rewrite Hcache. destruct (0 <? currentCursor st) eqn:E; [|reflexivity].
    destruct Hno as [Hle|Hdown]; [apply Z.ltb_lt in E; lia|].
    unfold saveCursor. destruct (MooseCache.down (cache st)); [reflexivity|contradiction].
  - intros Hdown. apply loadCursor_absent. left. rewrite Hcache.
    destruct (0 <? currentCursor st); [|exact Hdown].
    unfold saveCursor. destruct (MooseCache.down (cache st)) eqn:E; [|contradiction].
    rewrite E. discriminate.
Qed.

(** ** How often the position is stored *)

Lemma handleAll_snoc (messages : list (Z * option JetStreamMessage))
      (now : Z) (data : option JetStreamMessage) (st : State) :
  handleAll (messages ++ [(now, data)]) st = onMessage now data (handleAll messages st).
Proof. unfold handleAll. now rewrite fold_left_app. Qed.

Lemma positioned_snoc (messages : list (Z * option JetStreamMessage))
      (now : Z) (data : option JetStreamMessage) :
  positioned (messages ++ [(now, data)])
  = (positioned messages
     + match data with
       | Some msg => if (time_us msg =? 0)%Z then 0 else 1
       | None => 0
       end)%nat.
Proof.
  unfold positioned. rewrite List.filter_app, List.length_app. f_equal.
  destruct data as [msg|]; simpl; [|reflexivity].
  destruct (time_us msg =? 0); reflexivity.
Qed.

Lemma handleAll_count (messages : list (Z * option JetStreamMessage)) (st : State) :
  messageCount (handleAll messages st)
  = messageCount st + Z.of_nat (positioned messages).
Proof.
  induction messages as [|[now data] messages IH] using rev_ind.
  - cbn. lia.
  - rewrite handleAll_snoc, positioned_snoc.
    destruct (onMessage_fields now data (handleAll messages st)) as [_ ->].
    rewrite IH. destruct data as [msg|]; [|lia].
    destruct (time_us msg =? 0); lia.
Qed.

Lemma handleAll_quiet (messages : list (Z * option JetStreamMessage)) (st : State) :
  messageCount st mod 1000 + Z.of_nat (positioned messages) < 1000 ->
  cache (handleAll messages st) = cache st.
Proof.
  induction messages as [|[now data] messages IH] using rev_ind; [reflexivity|].
  rewrite handleAll_snoc, positioned_snoc. intros Hlt.
  destruct (onMessage_fields now data (handleAll messages st)) as [-> _].
  rewrite handleAll_count.
  destruct data as [msg|]; [|apply IH; lia].
  destruct (time_us msg =? 0) eqn:E; cbn [orb]; [apply IH; lia|].
  replace ((messageCount st + Z.of_nat (positioned messages) + 1) mod 1000 =? 0)
    with false; [apply IH; lia|].
  symmetry. apply Z.eqb_neq.
  rewrite Nat2Z.inj_add in Hlt. change (Z.of_nat 1) with 1 in Hlt.
  pose proof (Z.mod_pos_bound (messageCount st) 1000 ltac:(lia)).
  Z.div_mod_to_equations. lia.
Qed.

(** X12. The position is written to the cache on every thousandth
    positioned message of a connection and on no other message: while
    fewer than a thousand have arrived since the last write nothing is
    stored, and the thousandth stores its own position. *)
Theorem cursor_saved_every_1000th
        (messages : list (Z * option JetStreamMessage))
        (now : Z) (msg : JetStreamMessage) (st : State) :
  messageCount st mod 1000 + Z.of_nat (positioned messages) = 999 ->
  time_us msg <> 0 ->
  (forall n, cache (handleAll (firstn n messages) st) = cache st)
  /\ cache (handleAll (messages ++ [(now, Some msg)]) st)
     = saveCursor now (time_us msg) (cache st)
  /\ messageCount (handleAll (messages ++ [(now, Some msg)]) st) mod 1000 = 0.
Proof.
  intros Hcount Hpos. split; [|split].
  - intros n. apply handleAll_quiet.
    assert (positioned (firstn n messages) <= positioned messages)%nat; [|lia].
    rewrite <- (List.firstn_skipn n messages) at 2.
    unfold positioned. rewrite List.filter_app, List.length_app. lia.
  - rewrite handleAll_snoc.
    destruct (onMessage_fields now (Some msg) (handleAll messages st)) as [-> _].
    rewrite handleAll_count, handleAll_quiet by lia.
    replace (time_us msg =? 0) with false by (symmetry; now apply Z.eqb_neq).
    replace ((messageCount st + Z.of_nat (positioned messages) + 1) mod 1000 =? 0)
      with true; [reflexivity|].
    symmetry. apply Z.eqb_eq. Z.div_mod_to_equations. lia.
  - rewrite handleAll_count, positioned_snoc.
    replace (time_us msg =? 0) with false by (symmetry; now apply Z.eqb_neq).
    rewrite Nat2Z.inj_add. change (Z.of_nat 1) with 1.
    Z.div_mod_to_equations. lia.
Qed.


(** ** Where the timeouts come from *)

Lemma clearTimeout_In (h : nat) (pending : list (nat * Z)) (e : nat * Z) :
  List.In e (clearTimeout h pending) -> List.In e pending.
Proof. unfold clearTimeout. intros H. now apply filter_In in H as [H _]. Qed.

Lemma flushBatch_timeouts (st : State) (e : nat * Z) :
  List.In e (timeouts (flushBatch st)) -> List.In e (timeouts st).
Proof.
  unfold flushBatch. destruct st as [batch [h|] ? ? ? ? pending ? ? ?]; cbn;
    destruct batch; cbn; try (intros H; exact H); apply clearTimeout_In.
Qed.

Lemma queuePost_timeouts (now : Z) (post : BlueskyPost) (st : State) (e : nat * Z) :
  List.In e (timeouts (queuePost now post st)) ->
  List.In e (timeouts st) \/ snd e = now + BATCH_INTERVAL_MS.
Proof.
  unfold queuePost. cbn zeta. destruct (_ <=? _)%nat.
  - intros H. apply flushBatch_timeouts in H. now left.
  - destruct st as [batch [h|] ? ? ? ? pending ? ? ?]; cbn; [now left|].
    intros H. apply in_app_or in H as [H|[<-|[]]]; [now left | now right].
Qed.

Lemma step_timeouts (now : Z) (e : event) (st st' : State) (t : nat * Z) :
  step now e st = Some st' ->
  List.In t (timeouts st') ->
  List.In t (timeouts st)
  \/ (snd t = now + BATCH_INTERVAL_MS
      /\ exists data post, e = Message data /\ parseJetStreamMessage data = Some post).
Proof.
  destruct e as [| |data|h|succeeded n|]; simpl; intros Hstep;
    try (injection Hstep as <-); try (now left).
  - unfold onMessage. cbn zeta.
    destruct (trackCursor_queue now data st) as (_ & _ & Hp & _).
    destruct (parseJetStreamMessage data) as [post|] eqn:E.
    + intros H. apply queuePost_timeouts in H as [H|H].
      * left. now rewrite Hp in H.
      * right. split; [exact H|]. now exists data, post.
    + rewrite Hp. now left.
  - unfold onTimer in Hstep. destruct (List.find _ _) as [[h' due]|]; [|discriminate].
    destruct (due <=? now); [|discriminate]. injection Hstep as <-.
    intros H. apply flushBatch_timeouts in H. cbn in H.
    left. now apply clearTimeout_In in H.
  - unfold sendSettled. destruct succeeded; now left.
  - unfold onClose. cbn zeta. intros H. left. apply flushBatch_timeouts.
    destruct (0 <? _); exact H.
Qed.

Lemma run_timeouts (events : list (Z * event)) (st st' : State) (t : nat * Z) :
  run events st = Some st' ->
  List.In t (timeouts st') ->
  List.In t (timeouts st)
  \/ exists data post,
       List.In (snd t - BATCH_INTERVAL_MS, Message data) events
       /\ parseJetStreamMessage data = Some post.
Proof.
  revert st. induction events as [|[now e] events IH]; intros st; simpl.
  - intros [= <-]. now left.
  - destruct (step now e st) as [st1|] eqn:Hstep; [|discriminate].
    intros Hrun Hin. destruct (IH st1 Hrun Hin) as [H|(data & post & H & Hp)].
    + destruct (step_timeouts now e st st1 t Hstep H)
        as [H'|(Hdue & data & post & -> & Hp)]; [now left|].
      right. exists data, post. split; [|exact Hp]. left.
      f_equal. lia.
    + right. exists data, post. split; [now right | exact Hp].
Qed.

(** X16. A timeout is armed only by the arrival of a post, for
    [BATCH_INTERVAL_MS] after it: every timeout pending after a sequence
    of events is due half a second after one of the messages that carried
    a post. *)
Theorem timeouts_follow_posts
        (events : list (Z * event)) (startedAt : Z) (c : MooseCache.t) (st : State)
        (h : nat) (due : Z) :
  run events (initial startedAt c) = Some st ->
  List.In (h, due) (timeouts st) ->
  exists data post,
    List.In (due - BATCH_INTERVAL_MS, Message data) events
    /\ parseJetStreamMessage data = Some post.
Proof.
  intros Hrun Hin.
  destruct (run_timeouts events _ st (h, due) Hrun Hin) as [[]|H]. exact H.
Qed.

End FeedFacts.

(* ===================================================================== *)
(** * Tokens and intervals *)
(* ===================================================================== *)

Module TokenFacts.
Import JsString Regex JsDate Transforms StringFacts RegexFacts DateFacts Notions ExtractFacts.

(** A pattern that starts with single-unit atoms and then asks for a
    unit of a class cannot match where no unit of the class occurs. *)
Lemma exec_needs_unit (q : Z -> bool) (r2 : regex) (r1 : regex) :
  Forall (fun a => match a with Chr _ | Opt _ => True | _ => False end) r1 ->
  forall bol s, Forall (fun c => q c = false) s ->
                exec (r1 ++ Chr q :: r2) bol s = None.
Proof.
  induction 1 as [|a r1 Ha Hr1 IH]; intros bol s Hs.
  - destruct Hs as [|c s Hc Hs]; simpl; [reflexivity|]. now rewrite Hc.
  - destruct a as [p|p|p| |]; try contradiction; simpl.
    + destruct Hs as [|c s Hc Hs]; [reflexivity|].
      destruct (p c); [|reflexivity]. now rewrite (IH false s Hs).
    + destruct Hs as [|c s Hc Hs]; [apply IH; constructor|].
      rewrite (IH false s Hs).
      destruct (p c); apply IH; now constructor.
Qed.

Lemma replaceAll_no_match (r : regex) (repl : jsstring) (P : Z -> Prop) :
  (forall bol s, Forall P s -> exec r bol s = None) ->
  forall s bol, Forall P s -> replaceAll_from r repl 0 bol s = s.
Proof.
  intros Hnone. induction s as [|c s IH]; intros bol Hs; simpl.
  - now rewrite (Hnone bol [] Hs).
  - rewrite (Hnone bol (c :: s) Hs). f_equal. apply IH.
    now apply List.Forall_inv_tail in Hs.
Qed.

Lemma split_from_no_match (p : Z -> bool) (s : jsstring) :
  forall bol cur,
    Forall (fun c => p c = false) s ->
    split_from [Plus p] 0 bol cur s = [rev cur ++ s].
Proof.
  induction s as [|c s IH]; intros bol cur Hs; simpl.
  - now rewrite List.app_nil_r.
  - pose proof (List.Forall_inv Hs) as Hc. cbv beta in Hc. rewrite Hc.
    rewrite IH by now apply List.Forall_inv_tail in Hs.
    simpl. now rewrite <- List.app_assoc.
Qed.

Lemma toLowerCase_from_ascii_fixed
      (lowerNonAscii : jsstring -> Z -> jsstring -> jsstring) (s : jsstring) :
  forall before,
    Forall (fun c => c < 128 /\ isUpper c = false) s ->
    toLowerCase_from lowerNonAscii before s = s.
Proof.
  induction s as [|c s IH]; intros before Hs; simpl; [reflexivity|].
  pose proof (List.Forall_inv Hs) as [Hc Hup]. apply List.Forall_inv_tail in Hs.
  replace (c <? 128) with true by (symmetry; now apply Z.ltb_lt).
  unfold asciiLower. rewrite Hup. simpl. f_equal. now apply IH.
Qed.

Lemma token_unit_ascii (c : Z) :
  isWordChar c || eqc "#" c = true -> 35 <= c < 128 /\ c <> 58 /\ c <> 64.
Proof.
  unfold isWordChar, isLower, isUpper, isDigit, in_range, eqc, unit_of. simpl.
  intros H. repeat (apply orb_true_iff in H as [H|H]);
    rewrite ?andb_true_iff, ?Z.leb_le, ?Z.eqb_eq in H; lia.
Qed.

Section Tokens.
Variable lowerNonAscii : jsstring -> Z -> jsstring -> jsstring.

Lemma pieces_units (text piece : jsstring) :
  List.In piece
    (split SPACES_RE
       (replaceAll PUNCT_RE (js " ") (toLowerCase lowerNonAscii text))) ->
  Forall (fun c => isSpace c = false /\ isWordChar c || eqc "#" c = true) piece.
Proof.
  intros Hin. apply split_run in Hin.
  eapply List.Forall_impl; [|exact Hin]. intros c [Hsp Hc]. split; [exact Hsp|].
  unfold replaceAll in Hc. change (js " ") with [32] in Hc.
  unfold PUNCT_RE in Hc. rewrite replaceAll_class in Hc.
  apply in_map_iff in Hc as (c0 & Hc0 & _).
  destruct (isWordChar c0 || isSpace c0 || eqc "#" c0) eqn:E; simpl in Hc0; subst c.
  - destruct (isWordChar c0); [reflexivity|]. simpl in *.
    rewrite Hsp in E. exact E.
  - discriminate.
Qed.

Lemma tokens_units (text word : jsstring) :
  List.In word (extractWords lowerNonAscii text) ->
  Forall (fun c => isSpace c = false /\ isWordChar c || eqc "#" c = true) word
  /\ (MIN_WORD_LENGTH <=? length word)%nat = true
  /\ STOP_WORDS_has word = false
  /\ test NUMBER_RE word = false
  /\ replaceFirst HASHES_RE [] word = word.
Proof.
  unfold extractWords. intros Hin.
  apply filter_In in Hin as [Hin Hnum].
  apply filter_In in Hin as [Hin Hstop].
  apply filter_In in Hin as [Hin Hlen].
  apply in_map_iff in Hin as (piece & Hword & Hpiece).
  apply pieces_units in Hpiece.
  destruct (replaceFirst_leading_run (eqc "#") piece) as (run & Hrun & Hhead).
  unfold HASHES_RE in Hword. rewrite Hword in Hrun, Hhead.
  rewrite Hrun in Hpiece. apply Forall_app in Hpiece as [_ Hclean].
  repeat split; try assumption.
  - now apply negb_true_iff.
  - now apply negb_true_iff.
  - unfold HASHES_RE, replaceFirst.
    destruct word as [|c rest]; [reflexivity|].
    specialize (Hhead c rest eq_refl). cbn. rewrite Hhead.
    now rewrite replaceFirst_Bol_later.
Qed.


Hypothesis lowerNonAscii_lower :
  forall before c after x,
    128 <= c -> List.In x (lowerNonAscii before c after) -> isUpper x = false.

Lemma token_fixed (text word : jsstring) :
  List.In word (extractWords lowerNonAscii text) ->
  extractWords lowerNonAscii word = [word].
Proof.
  intros Hin.
  destruct (tokens_units text word Hin) as (Hunits & Hlen & Hstop & Hnum & Hhash).
  assert (Hup : Forall (fun c => isUpper c = false) word).
  { unfold extractWords in Hin.
    apply filter_In in Hin as [Hin _]. apply filter_In in Hin as [Hin _].
    apply filter_In in Hin as [Hin _].
    apply in_map_iff in Hin as (piece & Hword & Hpiece).
    apply (pieces_clean lowerNonAscii lowerNonAscii_lower) in Hpiece.
    destruct (replaceFirst_leading_run (eqc "#") piece) as (run & Hrun & _).
    unfold HASHES_RE in Hword. rewrite Hword in Hrun.
    rewrite Hrun in Hpiece. apply Forall_app in Hpiece as [_ Hclean].
    eapply List.Forall_impl; [|exact Hclean]. now intros c [_ H]. }
  assert (Hne : word <> []) by (intros ->; discriminate Hlen).
  unfold extractWords.
  assert (Hurl : replaceAll URL_RE [] word = word).
  { unfold replaceAll.
    apply (replaceAll_no_match URL_RE [] (fun c => eqc ":" c = false)).
    - intros bol s Hs.
      apply (exec_needs_unit (eqc ":") _
               [Chr (ci "h"); Chr (ci "t"); Chr (ci "t"); Chr (ci "p"); Opt (ci "s")]);
        [repeat constructor | exact Hs].
    - eapply List.Forall_impl; [|exact Hunits]. intros c [_ Hc].
      apply token_unit_ascii in Hc. unfold eqc. apply Z.eqb_neq.
      change (unit_of ":") with 58. lia. }
  rewrite Hurl.
  assert (Hat : replaceAll MENTION_RE [] word = word).
  { unfold replaceAll.
    apply (replaceAll_no_match MENTION_RE [] (fun c => eqc "@" c = false)).
    - intros bol s Hs.
      apply (exec_needs_unit (eqc "@") _ []); [constructor | exact Hs].
    - eapply List.Forall_impl; [|exact Hunits]. intros c [_ Hc].
      apply token_unit_ascii in Hc. unfold eqc. apply Z.eqb_neq.
      change (unit_of "@") with 64. lia. }
  rewrite Hat.
  assert (Hlow : toLowerCase lowerNonAscii word = word).
  { apply toLowerCase_from_ascii_fixed.
    rewrite List.Forall_forall in *. intros c Hc. split; [|now apply Hup].
    destruct (Hunits c Hc) as [_ Hu]. apply token_unit_ascii in Hu. lia. }
  rewrite Hlow.
  assert (Hpunct : replaceAll PUNCT_RE (js " ") word = word).
  { unfold replaceAll, PUNCT_RE. change (js " ") with [32].
    rewrite replaceAll_class. rewrite <- (List.map_id word) at 2.
    apply List.map_ext_in. intros c Hc.
    rewrite List.Forall_forall in Hunits. destruct (Hunits c Hc) as [Hsp Hu].
    apply orb_true_iff in Hu as [Hu|Hu]; rewrite Hu, ?orb_true_r; reflexivity. }
  rewrite Hpunct.
  assert (Hsplit : split SPACES_RE word = [word]).
  { unfold split, SPACES_RE. destruct word as [|c rest] eqn:E; [contradiction|].
    rewrite <- E in *. rewrite split_from_no_match; [reflexivity|].
    eapply List.Forall_impl; [|exact Hunits]. now intros x [H _]. }
  rewrite Hsplit. cbn [List.map List.filter]. rewrite Hhash.
  cbn [List.filter]. rewrite Hlen. cbn [List.filter]. rewrite Hstop.
  cbn [negb List.filter]. now rewrite Hnum.
Qed.

(** X14. Extraction leaves its own tokens alone: a token put through the
    extractor again comes back as the one token it is, so extracting from
    the tokens of a text gives the tokens of the text.  The case table
    of the runtime is taken to produce no upper-case ASCII letter. *)
Theorem extractWords_tokens_fixed (text : jsstring) :
  (forall word, List.In word (extractWords lowerNonAscii text) ->
                extractWords lowerNonAscii word = [word])
  /\ flat_map (extractWords lowerNonAscii) (extractWords lowerNonAscii text)
     = extractWords lowerNonAscii text.
Proof.
  split; [apply token_fixed|].
  assert (H : forall words,
             (forall w, List.In w words -> extractWords lowerNonAscii w = [w]) ->
             flat_map (extractWords lowerNonAscii) words = words).
  { induction words as [|w words IH]; intros Hall; simpl; [reflexivity|].
    rewrite (Hall w (or_introl eq_refl)). simpl. f_equal.
    apply IH. intros w' Hw'. apply Hall. now right. }
  apply H, token_fixed.
Qed.

End Tokens.
End TokenFacts.

Module BucketFacts.
Import JsString JsDate Transforms DateFacts TransformFacts.

(** X15. The interval of a date, for a process whose local zone keeps
    one offset from UTC ([tza]; a server on UTC has 0; a zone with
    daylight saving time is not covered).  Truncation is idempotent and
    gives a whole multiple of ten seconds of local time, on every date.
    It gives a time after the date exactly in the years 0 to 99; outside
    them it is the start of the ten-second interval that holds the date,
    it keeps the order of dates, and two dates get the same interval
    exactly when they lie in the same ten seconds. *)
Theorem truncateToInterval_bucket (tza t : Z) :
  truncateToInterval tza (truncateToInterval tza t) = truncateToInterval tza t
  /\ (truncateToInterval tza t + tza) mod 10000 = 0
  /\ (t < truncateToInterval tza t <-> 0 <= getFullYear tza t <= 99)
  /\ (~ (0 <= getFullYear tza t <= 99) ->
      t - 10000 < truncateToInterval tza t <= t
      /\ forall u, ~ (0 <= getFullYear tza u <= 99) ->
                   (t <= u -> truncateToInterval tza t <= truncateToInterval tza u)
                   /\ (truncateToInterval tza t = truncateToInterval tza u
                       <-> (t + tza) / 10000 = (u + tza) / 10000)).
Proof.
  split; [apply truncateToInterval_idempotent|]. split; [|split].
  - destruct (Z_le_dec 0 (getFullYear tza t)) as [H0|H0];
      [destruct (Z_le_dec (getFullYear tza t) 99) as [H1|H1]|].
    + apply truncateToInterval_two_digit_year_after. lia.
    + rewrite truncateToInterval_plain by lia. Z.div_mod_to_equations. lia.
    + rewrite truncateToInterval_plain by lia. Z.div_mod_to_equations. lia.
  - pose proof (truncateToInterval_le_iff tza t) as Hle. split.
    + intros Hlt. destruct (Z_le_dec 0 (getFullYear tza t));
        [destruct (Z_le_dec (getFullYear tza t) 99)|]; try lia;
        assert (truncateToInterval tza t <= t) by (apply Hle; lia); lia.
    + intros Hy. assert (~ truncateToInterval tza t <= t) by (rewrite Hle; tauto). lia.
  - intros Hy. rewrite (truncateToInterval_plain tza t Hy). split.
    + pose proof (Z.mod_pos_bound (t + tza) 10000 ltac:(lia)). lia.
    + intros u Hu. rewrite (truncateToInterval_plain tza u Hu). split.
      * intros Hle. Z.div_mod_to_equations. lia.
      * Z.div_mod_to_equations. lia.
Qed.

End BucketFacts.

(* ===================================================================== *)
(** * Default windows and the cache *)
(* ===================================================================== *)

Module WindowFacts.
Import JsString JsNumber JsDate Json Trends Notions WindowNotions.
Import StringFacts NumberFacts DateFacts TrendsFacts TrendsCacheFacts.

Lemma DateFromTime_range (t : Z) : 1 <= DateFromTime t <= 31.
Proof.
  unfold DateFromTime, MonthFromTime.
  pose proof (DayWithinYear_range t) as Hd.
  assert (Hl : InLeapYear t = 0 \/ InLeapYear t = 1)
    by (unfold InLeapYear; destruct (isLeapYear _); auto).
  generalize dependent (DayWithinYear t). generalize dependent (InLeapYear t).
  intros leap Hl d Hd. unfold monthOfDay, monthStart.
  repeat match goal with
         | |- context [?a <? ?b] => destruct (Z.ltb_spec a b); cbn [Z.eqb Pos.eqb]
         end; destruct Hl; subst; cbn; lia.
Qed.

Lemma digits2 (n m : Z) :
  0 <= n < 100 -> 0 <= m < 100 -> pad2 n = pad2 m -> n = m.
Proof.
  unfold pad2, digit. intros Hn Hm [= H1 H2]. Z.div_mod_to_equations. lia.
Qed.

Lemma digits3 (n m : Z) :
  0 <= n < 1000 -> 0 <= m < 1000 -> pad3 n = pad3 m -> n = m.
Proof.
  unfold pad3, digit. intros Hn Hm [= H1 H2 H3]. Z.div_mod_to_equations. lia.
Qed.

Lemma digits4 (n m : Z) :
  0 <= n < 10000 -> 0 <= m < 10000 -> pad4 n = pad4 m -> n = m.
Proof.
  unfold pad4, pad3, digit. intros Hn Hm [= H1 H2 H3 H4]. Z.div_mod_to_equations. lia.
Qed.

Lemma time_of_fields (t : Z) :
  t = MakeDay (YearFromTime t) (MonthFromTime t) (DateFromTime t) * msPerDay
      + MakeTime (HourFromTime t) (MinFromTime t) (SecFromTime t) (msFromTime t).
Proof.
  rewrite MakeDay_of_fields.
  unfold Day, MakeTime, HourFromTime, MinFromTime, SecFromTime, msFromTime,
    msPerDay, msPerHour, msPerMinute, msPerSecond.
  Z.div_mod_to_equations. lia.
Qed.

Lemma isoYear_four (t : Z) : fourDigitYear t -> isoYear (YearFromTime t) = pad4 (YearFromTime t).
Proof.
  intros [H0 H1]. unfold isoYear.
  replace (0 <=? YearFromTime t) with true by (symmetry; now apply Z.leb_le).
  replace (YearFromTime t <=? 9999) with true by (symmetry; now apply Z.leb_le).
  reflexivity.
Qed.

Lemma toISOString_length (t : Z) : fourDigitYear t -> length (toISOString t) = 24%nat.
Proof. intros H. unfold toISOString. now rewrite isoYear_four. Qed.

(** Two dates with years of four digits that are written the same are
    the same. *)
Lemma toISOString_inj (t u : Z) :
  fourDigitYear t -> fourDigitYear u -> toISOString t = toISOString u -> t = u.
Proof.
  intros Ht Hu E. unfold toISOString in E.
  rewrite !isoYear_four in E by assumption.
  pose proof (monthOfDay_range (DayWithinYear t) (InLeapYear t)) as Hmt.
  pose proof (monthOfDay_range (DayWithinYear u) (InLeapYear u)) as Hmu.
  fold (MonthFromTime t) in Hmt. fold (MonthFromTime u) in Hmu.
  pose proof (DateFromTime_range t) as Hdt. pose proof (DateFromTime_range u) as Hdu.
  assert (Hh : forall x, 0 <= HourFromTime x < 100)
    by (intros x; unfold HourFromTime;
        pose proof (Z.mod_pos_bound (x / msPerHour) 24 ltac:(lia)); lia).
  assert (Hmi : forall x, 0 <= MinFromTime x < 100)
    by (intros x; unfold MinFromTime;
        pose proof (Z.mod_pos_bound (x / msPerMinute) 60 ltac:(lia)); lia).
  assert (Hs : forall x, 0 <= SecFromTime x < 100)
    by (intros x; unfold SecFromTime;
        pose proof (Z.mod_pos_bound (x / msPerSecond) 60 ltac:(lia)); lia).
  assert (Hms : forall x, 0 <= msFromTime x < 1000)
    by (intros x; unfold msFromTime, msPerSecond;
        pose proof (Z.mod_pos_bound x 1000 ltac:(lia)); lia).
  cbn [app] in E.
  assert (Ey : pad4 (YearFromTime t) = pad4 (YearFromTime u))
    by (unfold pad4, pad3, pad2 in *; cbn [app] in E; congruence).
  assert (Em : pad2 (MonthFromTime t + 1) = pad2 (MonthFromTime u + 1))
    by (unfold pad4, pad3, pad2 in *; cbn [app] in E; congruence).
  assert (Ed : pad2 (DateFromTime t) = pad2 (DateFromTime u))
    by (unfold pad4, pad3, pad2 in *; cbn [app] in E; congruence).
  assert (Eh : pad2 (HourFromTime t) = pad2 (HourFromTime u))
    by (unfold pad4, pad3, pad2 in *; cbn [app] in E; congruence).
  assert (Emi : pad2 (MinFromTime t) = pad2 (MinFromTime u))
    by (unfold pad4, pad3, pad2 in *; cbn [app] in E; congruence).
  assert (Es : pad2 (SecFromTime t) = pad2 (SecFromTime u))
    by (unfold pad4, pad3, pad2 in *; cbn [app] in E; congruence).
  assert (Ems : pad3 (msFromTime t) = pad3 (msFromTime u))
    by (unfold pad4, pad3, pad2 in *; cbn [app] in E; congruence).
  apply digits4 in Ey; [|unfold fourDigitYear in *; lia..].
  apply digits2 in Em; [|lia..].
  apply digits2 in Ed; [|lia..].
  apply digits2 in Eh; [|apply Hh..].
  apply digits2 in Emi; [|apply Hmi..].
  apply digits2 in Es; [|apply Hs..].
  apply digits3 in Ems; [|apply Hms..].
  rewrite (time_of_fields t), (time_of_fields u).
  rewrite Ey, Ed, Eh, Emi, Es, Ems. replace (MonthFromTime t) with (MonthFromTime u) by lia.
  reflexivity.
Qed.

(** The part of a cache key that names the window tells the windows
    apart. *)
Lemma window_key_inj (from to from' to' : Z) :
  fourDigitYear from -> fourDigitYear from' -> fourDigitYear to -> fourDigitYear to' ->
  toISOString from ++ js ":" ++ toISOString to
  = toISOString from' ++ js ":" ++ toISOString to' ->
  from = from' /\ to = to'.
Proof.
  intros Hf Hf' Ht Ht' E.
  apply app_inj_1 in E as [E1 E2];
    [|now rewrite !toISOString_length by assumption].
  apply List.app_inv_head in E2.
  split; now apply toISOString_inj.
Qed.

Section Handlers.
Variable lowerNonAscii : jsstring -> Z -> jsstring -> jsstring.

(** X17. A request that leaves [from] and [to] out is never answered
    from what an earlier such request stored: the key holds the default
    window to the millisecond, so at any other instant it is another
    key.  /search and /compare then answer as if the earlier request had
    not been made.  (Dates with years of four digits.) *)
Theorem default_window_misses_cache
        (store store' : Store) (cache : MooseCache.t) (now now' : Z) :
  now <> now' ->
  fourDigitYear (now - 60 * 60 * 1000) -> fourDigitYear now ->
  fourDigitYear (now' - 60 * 60 * 1000) -> fourDigitYear now' ->
  (forall req,
     q_from req = None -> q_to req = None ->
     (search lowerNonAscii store' (search lowerNonAscii store cache now req).2 now' req).1
     = (search lowerNonAscii store' cache now' req).1)
  /\ (forall req,
        q_cfrom req = None -> q_cto req = None ->
        (compare lowerNonAscii store'
                 (compare lowerNonAscii store cache now req).2 now' req).1
        = (compare lowerNonAscii store' cache now' req).1).
Proof.
  intros Hne Hf Ht Hf' Ht'. split; intros req Hfrom Hto.
  - unfold search. rewrite Hfrom, Hto. cbn [default from_option id].
    destruct (toLowerCase lowerNonAscii <$> q_word req) as [[|c word]|];
      try reflexivity.
    destruct (MooseCache.down cache) as [message|] eqn:Hdown;
      [cbn [snd]; now rewrite Hdown|].
    destruct (cacheHit cache now _) as [cached|];
      [cbn [snd]; now rewrite Hdown|].
    destruct store as [message|rows]; [cbn [snd]; now rewrite Hdown|].
    cbn [snd]. rewrite down_set, Hdown.
    rewrite cacheHit_set_other;
      [destruct (cacheHit cache now' _); [reflexivity|]; destruct store'; reflexivity|].
    intros E. apply List.app_inv_head in E. apply List.app_inv_head in E.
    apply List.app_inv_head in E.
    apply window_key_inj in E as [_ E]; try assumption. contradiction.
  - unfold compare. rewrite Hfrom, Hto. cbn [default from_option id].
    destruct (q_words req) as [[|c wordsParam]|]; try reflexivity.
    destruct (length _ =? 0)%nat; [reflexivity|].
    destruct (10 <? length _)%nat; [reflexivity|].
    destruct (MooseCache.down cache) as [message|] eqn:Hdown;
      [cbn [snd]; now rewrite Hdown|].
    destruct (cacheHit cache now _) as [cached|];
      [cbn [snd]; now rewrite Hdown|].
    destruct store as [message|rows]; [cbn [snd]; now rewrite Hdown|].
    cbn [snd]. rewrite down_set, Hdown.
    rewrite cacheHit_set_other;
      [destruct (cacheHit cache now' _); [reflexivity|]; destruct store'; reflexivity|].
    intros E. apply List.app_inv_head in E. apply List.app_inv_head in E.
    apply List.app_inv_head in E.
    apply window_key_inj in E as [_ E]; try assumption. contradiction.
Qed.

End Handlers.
End WindowFacts.

(* ===================================================================== *)
(** * From the feed to the counts *)
(* ===================================================================== *)

Module PipelineFacts.
Import JsString JsDate Transforms Firehose Notions.
Import StringFacts DateFacts TransformFacts CountFacts.

(** X18. From the feed to the counts, for a process whose local zone
    keeps one offset from UTC ([tza]; a server on UTC has 0; a zone with
    daylight saving time is not covered): a message that carries a post
    is counted under the ten-second interval of local time that holds the
    message's own time (microseconds cut to milliseconds), and the words
    counted are the tokens of the text of its record.  (Times outside
    the years 0 to 99.) *)
Theorem feed_post_interval
        (tza : Z) (lowerNonAscii : jsstring -> Z -> jsstring -> jsstring)
        (msg : JetStreamMessage) (post : BlueskyPost) (r : WordOccurrence) :
  parseJetStreamMessage (Some msg) = Some post ->
  ~ (0 <= getFullYear tza (Z.quot (time_us msg) 1000) <= 99) ->
  List.In r (transform tza lowerNonAscii post) ->
  let received := Z.quot (time_us msg) 1000 in
  intervalTimestamp r <= received < intervalTimestamp r + 10000
  /\ (intervalTimestamp r + tza) mod 10000 = 0
  /\ exists c rec,
       commit msg = Some c /\ record c = Some rec
       /\ List.In (Transforms.word r) (extractWords lowerNonAscii (record_text rec)).
Proof.
  intros Hparse Hyear Hin. cbn zeta.
  unfold parseJetStreamMessage in Hparse.
  destruct (commit msg) as [c|] eqn:Hc; [|discriminate].
  destruct (record c) as [rec|] eqn:Hrec; [|discriminate].
  destruct (_ || _); [discriminate|]. injection Hparse as <-.
  rewrite transform_countWords in Hin. cbn [text createdAt] in Hin.
  apply in_map_iff in Hin as ([w n] & <- & Hin). cbn [intervalTimestamp Transforms.word].
  rewrite (truncateToInterval_plain tza _ Hyear).
  pose proof (Z.mod_pos_bound (time_us msg ÷ 1000 + tza) 10000 ltac:(lia)) as Hb.
  split; [lia|]. split; [Z.div_mod_to_equations; lia|].
  exists c, rec. split; [reflexivity|]. split; [exact Hrec|].
  apply countWords_keys. unfold mapKeys.
  change w with (fst (w, n)). now apply in_map.
Qed.

End PipelineFacts.

(* ===================================================================== *)
(** * The batch queue of the earlier connector *)
(* ===================================================================== *)

Module LegacyFacts.
Import JsString Json Transforms Firehose Notions FirehoseFacts.

Lemma flushBatch_same (st : State) : Legacy.flushBatch st = Firehose.flushBatch st.
Proof.
  unfold Legacy.flushBatch, Firehose.flushBatch.
  destruct st as [batch [h|] ? ? ? ? ? ? ? ?]; cbn; destruct batch; reflexivity.
Qed.

Lemma legacy_flushBatch_fields (st : State) :
  (batchTimer st = None /\ timeouts st = []
   \/ exists h, batchTimer st = Some h
                /\ (timeouts st = [] \/ exists due, timeouts st = [(h, due)])) ->
  postBatch (Legacy.flushBatch st) = []
  /\ batchTimer (Legacy.flushBatch st) = None
  /\ timeouts (Legacy.flushBatch st) = []
  /\ sent (Legacy.flushBatch st)
     = match postBatch st with [] => sent st | _ :: _ => sent st ++ [postBatch st] end
  /\ nextHandle (Legacy.flushBatch st) = nextHandle st.
Proof.
  intros H. rewrite flushBatch_same.
  destruct (flushBatch_effect st H) as (Hb & Ht & Hp & Hs & _).
  repeat split; try assumption.
  unfold Firehose.flushBatch.
  destruct st as [batch [h|] ? ? ? ? ? ? ? ?]; cbn; destruct batch; reflexivity.
Qed.

Lemma legacy_queue_ok_flushBatch (st : State) :
  Legacy.queue_ok st -> Legacy.queue_ok (Legacy.flushBatch st).
Proof.
  intros [Hlen Hshape].
  destruct (legacy_flushBatch_fields st) as (Hb & Ht & Hp & _).
  { destruct Hshape as [(_ & Ht & Hp)|(h & due & Ht & Hp)]; [now left|].
    right. exists h. split; [exact Ht|]. right. now exists due. }
  split; [rewrite Hb; unfold Legacy.BATCH_SIZE; simpl; lia|]. now left.
Qed.

Lemma legacy_queuePost_open (now : Z) (post : BlueskyPost) (st : State) :
  Legacy.queue_ok st -> (S (length (postBatch st)) < Legacy.BATCH_SIZE)%nat ->
  let st' := Legacy.queuePost now post st in
  sent st' = sent st
  /\ postBatch st' = postBatch st ++ [post]
  /\ exists h due, batchTimer st' = Some h /\ timeouts st' = [(h, due)].
Proof.
  intros [_ Hshape] Hlen. cbn zeta. unfold Legacy.queuePost. cbn zeta.
  cbn [postBatch set_batch]. rewrite List.length_app. cbn [length].
  replace (Legacy.BATCH_SIZE <=? length (postBatch st) + 1)%nat with false
    by (symmetry; apply Nat.leb_gt; lia).
  destruct st as [batch timer ? ? ? ? pending ? ? ?]. cbn in *.
  destruct Hshape as [(_ & -> & ->)|(h & due & -> & ->)]; cbn;
    (split; [reflexivity|]; split; [reflexivity|]; eauto).
Qed.

Lemma legacy_queuePost_full (now : Z) (post : BlueskyPost) (st : State) :
  Legacy.queue_ok st -> S (length (postBatch st)) = Legacy.BATCH_SIZE ->
  let st' := Legacy.queuePost now post st in
  sent st' = sent st ++ [postBatch st ++ [post]]
  /\ postBatch st' = []
  /\ batchTimer st' = Some (nextHandle st)
  /\ timeouts st' = [(nextHandle st, now + Legacy.BATCH_INTERVAL_MS)].
Proof.
  intros [_ Hshape] Hlen. cbn zeta. unfold Legacy.queuePost. cbn zeta.
  cbn [postBatch set_batch]. rewrite List.length_app. cbn [length].
  replace (Legacy.BATCH_SIZE <=? length (postBatch st) + 1)%nat with true
    by (symmetry; apply Nat.leb_le; lia).
  match goal with |- context [Legacy.flushBatch ?s] =>
    destruct (legacy_flushBatch_fields s) as (Hb & Ht & Hp & Hs & Hn);
      [|set (st1 := Legacy.flushBatch s) in *] end.
  { cbn [batchTimer timeouts set_batch].
    destruct Hshape as [(_ & Ht & Hp)|(h & due & Ht & Hp)]; [now left|].
    right. exists h. split; [exact Ht|]. right. now exists due. }
  rewrite Ht. unfold setTimeout. cbn [postBatch batchTimer timeouts sent set_batch
                                       set_timeouts nextHandle].
  rewrite Hs, Hb, Hp, Hn. cbn [postBatch sent set_batch nextHandle].
  destruct (postBatch st ++ [post]) eqn:E;
    [now apply List.app_eq_nil in E as [_ [=]]|].
  repeat split.
Qed.

Lemma legacy_queue_ok_queuePost (now : Z) (post : BlueskyPost) (st : State) :
  Legacy.queue_ok st -> Legacy.queue_ok (Legacy.queuePost now post st).
Proof.
  intros Hq. pose proof Hq as [Hlen _].
  destruct (Nat.eq_dec (S (length (postBatch st))) Legacy.BATCH_SIZE) as [Hfull|Hopen].
  - destruct (legacy_queuePost_full now post st Hq Hfull) as (_ & Hb & Ht & Hp).
    split; [rewrite Hb; unfold Legacy.BATCH_SIZE; simpl; lia|]. right. eauto.
  - destruct (legacy_queuePost_open now post st Hq ltac:(lia)) as (_ & Hb & Ht).
    split; [rewrite Hb, List.length_app; simpl; lia|]. now right.
Qed.

Lemma legacy_onTimer_fields (now : Z) (h : nat) (st st' : State) :
  Legacy.queue_ok st -> Legacy.onTimer now h st = Some st' ->
  (exists due, timeouts st = [(h, due)] /\ due <= now)
  /\ postBatch st' = [] /\ batchTimer st' = None /\ timeouts st' = []
  /\ sent st'
     = match postBatch st with [] => sent st | _ :: _ => sent st ++ [postBatch st] end.
Proof.
  intros [_ Hshape] Hstep. unfold Legacy.onTimer in Hstep.
  destruct Hshape as [(_ & _ & Hp)|(h0 & due & Ht & Hp)];
    rewrite Hp in Hstep; cbn in Hstep; [discriminate|].
  destruct (Nat.eqb_spec h0 h) as [->|Hne]; [|discriminate].
  destruct (due <=? now) eqn:Hdue; [|discriminate]. injection Hstep as <-.
  rewrite Hp.
  match goal with |- context [Legacy.flushBatch ?s] =>
    destruct (legacy_flushBatch_fields s) as (Hb & Ht' & Hp' & Hs & _) end.
  { right. exists h. split; [exact Ht|]. now left. }
  split; [exists due; split; [reflexivity | now apply Z.leb_le]|].
  repeat split; assumption.
Qed.

Lemma legacy_queue_ok_reachable (st : State) : Legacy.reachable st -> Legacy.queue_ok st.
Proof.
  induction 1 as [startedAt c | st now post _ IH | st now h st' _ IH Hstep | st _ IH].
  - split; [unfold Legacy.BATCH_SIZE; simpl; lia | now left].
  - now apply legacy_queue_ok_queuePost.
  - destruct (legacy_onTimer_fields now h st st' IH Hstep) as (_ & Hb & Ht & Hp & _).
    split; [rewrite Hb; unfold Legacy.BATCH_SIZE; simpl; lia | now left].
  - now apply legacy_queue_ok_flushBatch.
Qed.

Lemma legacy_sizes_reachable (st : State) :
  Legacy.reachable st ->
  Forall (fun batch => (1 <= length batch <= Legacy.BATCH_SIZE)%nat) (sent st).
Proof.
  induction 1 as [startedAt c | st now post Hr IH | st now h st' Hr IH Hstep | st Hr IH].
  - apply List.Forall_nil.
  - pose proof (legacy_queue_ok_reachable st Hr) as Hq. pose proof Hq as [Hlen _].
    destruct (Nat.eq_dec (S (length (postBatch st))) Legacy.BATCH_SIZE) as [Hfull|Hopen].
    + destruct (legacy_queuePost_full now post st Hq Hfull) as (-> & _).
      apply Forall_app. split; [exact IH|].
      apply List.Forall_cons; [|apply List.Forall_nil].
      rewrite List.length_app. simpl. lia.
    + destruct (legacy_queuePost_open now post st Hq ltac:(lia)) as (-> & _). exact IH.
  - pose proof (legacy_queue_ok_reachable st Hr) as Hq. pose proof Hq as [Hlen _].
    destruct (legacy_onTimer_fields now h st st' Hq Hstep) as (_ & _ & _ & _ & ->).
    destruct (postBatch st) as [|p batch] eqn:E; [exact IH|].
    apply Forall_app. split; [exact IH|].
    apply List.Forall_cons; [|apply List.Forall_nil]. simpl in *. lia.
  - pose proof (legacy_queue_ok_reachable st Hr) as Hq. pose proof Hq as [Hlen Hshape].
    destruct (legacy_flushBatch_fields st) as (_ & _ & _ & -> & _).
    { destruct Hshape as [(_ & Ht & Hp)|(h & due & Ht & Hp)]; [now left|].
      right. exists h. split; [exact Ht|]. right. now exists due. }
    destruct (postBatch st) as [|p batch] eqn:E; [exact IH|].
    apply Forall_app. split; [exact IH|].
    apply List.Forall_cons; [|apply List.Forall_nil]. simpl in *. lia.
Qed.

(** X19. The queue of the earlier connector: between two events the
    open batch is shorter than [BATCH_SIZE], at most one timeout is
    pending, a timeout is pending whenever posts are queued, and no batch
    passed to [sendBatch] is empty or longer than [BATCH_SIZE]. *)
Theorem legacy_queue_invariant (st : State) :
  Legacy.reachable st ->
  (length (postBatch st) < Legacy.BATCH_SIZE)%nat
  /\ (length (timeouts st) <= 1)%nat
  /\ (postBatch st <> [] ->
      exists h due, batchTimer st = Some h /\ timeouts st = [(h, due)])
  /\ Forall (fun batch => (1 <= length batch <= Legacy.BATCH_SIZE)%nat) (sent st).
Proof.
  intros Hr. pose proof (legacy_queue_ok_reachable st Hr) as [Hlen Hshape].
  split; [exact Hlen|]. split; [|split].
  - destruct Hshape as [(_ & _ & ->)|(h & due & _ & ->)]; simpl; lia.
  - intros Hne. destruct Hshape as [(Hb & _)|H]; [contradiction | exact H].
  - now apply legacy_sizes_reachable.
Qed.

(** X20. In the earlier connector the post that fills the batch sends
    it and then arms a new timeout over the empty queue, a second after
    that post; when it fires nothing is sent and the queue is left with
    no timeout. *)
Theorem legacy_size_flush_rearms_timer
        (st : State) (now later : Z) (post : BlueskyPost) :
  Legacy.reachable st ->
  S (length (postBatch st)) = Legacy.BATCH_SIZE ->
  now + Legacy.BATCH_INTERVAL_MS <= later ->
  let st' := Legacy.queuePost now post st in
  sent st' = sent st ++ [postBatch st ++ [post]]
  /\ postBatch st' = []
  /\ exists h,
       batchTimer st' = Some h
       /\ timeouts st' = [(h, now + Legacy.BATCH_INTERVAL_MS)]
       /\ exists st'',
            Legacy.onTimer later h st' = Some st''
            /\ sent st'' = sent st' /\ postBatch st'' = []
            /\ batchTimer st'' = None /\ timeouts st'' = [].
Proof.
  intros Hr Hfull Hlater. cbn zeta.
  pose proof (legacy_queue_ok_reachable st Hr) as Hq.
  destruct (legacy_queuePost_full now post st Hq Hfull) as (Hs & Hb & Ht & Hp).
  split; [exact Hs|]. split; [exact Hb|].
  exists (nextHandle st). split; [exact Ht|]. split; [exact Hp|].
  pose proof (legacy_queue_ok_queuePost now post st Hq) as Hq'.
  destruct (Legacy.onTimer later (nextHandle st) (Legacy.queuePost now post st))
    as [st''|] eqn:Hstep.
  - exists st''. split; [reflexivity|].
    destruct (legacy_onTimer_fields later _ _ st'' Hq' Hstep) as (_ & Hb' & Ht' & Hp' & Hs').
    rewrite Hb in Hs'. repeat split; assumption.
  - exfalso. unfold Legacy.onTimer in Hstep. rewrite Hp in Hstep. cbn in Hstep.
    rewrite Nat.eqb_refl in Hstep.
    replace (now + Legacy.BATCH_INTERVAL_MS <=? later) with true in Hstep
      by (symmetry; now apply Z.leb_le).
    discriminate.
Qed.

Lemma legacy_reachable_queueMany (now : Z) (n : nat) (st : State) :
  Legacy.reachable st -> Legacy.reachable (Legacy.queueMany now n st).
Proof.
  unfold Legacy.queueMany. generalize (seq 1 n). intros l. revert st.
  induction l as [|k l IH]; intros st Hr; simpl; [exact Hr|].
  apply IH. now apply Legacy.reachable_post.
Qed.

End LegacyFacts.

(* ===================================================================== *)
(** * Instances *)
(* ===================================================================== *)

Module Instances.
Import JsString JsNumber JsDate Json Transforms Trends Firehose Notions.
Import QueryNotions FeedNotions WindowNotions.
Import ExtractFacts TrendsCacheFacts QueryFacts FeedFacts TokenFacts BucketFacts WindowFacts PipelineFacts
  LegacyFacts.


Lemma stats_hit_keeps_fields_witness :
  let rows := [{| Trends.word := js "moose"; interval := 1700000010; totalCount := 3 |}] in
  let first := stats (Table rows) MooseCache.empty 1700003600000 in
  (1700003630000 < 1700003600000 + 60 * 1000 ->
   let second := stats (Unreachable (js "store down")) first.2 1700003630000 in
   status second.1 = 200
   /\ obj_get (body second.1) (js "cached") = Some (JBool true)
   /\ obj_remove (body second.1) (js "cached") = body first.1
   /\ second.2 = first.2)
  /\ (1700003600000 + 60 * 1000 <= 1700003630000 ->
      (stats (Table []) first.2 1700003630000).1
      = (stats (Table []) MooseCache.empty 1700003630000).1).
Proof.
  apply (stats_hit_keeps_fields (Unreachable (js "store down"))
           [{| Trends.word := js "moose"; interval := 1700000010; totalCount := 3 |}]
           [] MooseCache.empty 1700003600000 1700003630000);
    reflexivity.
Defined.

Lemma top_cache_window_witness :
  let req := {| q_minutes := Some (js "10"); q_limit := None |} in
  let rows := [{| Trends.word := js "moose"; interval := 1700003500; totalCount := 3 |};
               {| Trends.word := js "sky"; interval := 1700003510; totalCount := 5 |}] in
  let first := top (Table rows) MooseCache.empty 1700003600000 req in
  let data :=
    JArr (List.map topRow_json
            (topQuery rows (formatDateForCH 1700003000000) (top_limit req))) in
  body first.1
  = [(js "success", JBool true); (js "minutes", JNum (top_minutes req));
     (js "limit", JNum (top_limit req)); (js "data", data)]
  /\ (1700003610000 < 1700003600000 + 15 * 1000 ->
      (top (Unreachable (js "store down")) first.2 1700003610000 req).1
      = {| status := 200;
           body := [(js "success", JBool true); (js "cached", JBool true);
                    (js "data", data)] |})
  /\ (1700003600000 + 15 * 1000 <= 1700003610000 ->
      (top (Table []) first.2 1700003610000 req).1
      = (top (Table []) MooseCache.empty 1700003610000 req).1).
Proof.
  apply (top_cache_window (Unreachable (js "store down"))
           [{| Trends.word := js "moose"; interval := 1700003500; totalCount := 3 |};
            {| Trends.word := js "sky"; interval := 1700003510; totalCount := 5 |}]
           [] MooseCache.empty 1700003600000 1700003610000
           {| q_minutes := Some (js "10"); q_limit := None |} 1700003000000);
    try reflexivity; apply Z.leb_le; reflexivity.
Defined.

Lemma top_entries_do_not_mix_witness :
  let req := {| q_minutes := None; q_limit := None |} in
  cacheHit (top (Table []) MooseCache.empty 1700003600000 req).2 1700003601000
           (topKey 5 10)
  = cacheHit MooseCache.empty 1700003601000 (topKey 5 10).
Proof.
  apply (top_entries_do_not_mix (Table []) MooseCache.empty 1700003600000 1700003601000
           {| q_minutes := None; q_limit := None |} 5 10);
    try (apply Z.leb_le; reflexivity).
  vm_compute. discriminate.
Defined.

Lemma posts_conserved_witness :
  let events :=
    [(1700000000100, Message (Some (postEvent 1700000000000100 (js "Moose in the sky"))));
     (1700000000200, Message (Some (identityEvent 1700000000000200)));
     (1700000000300, Message (Some (postEvent 1700000000000300 (js "Sky again"))));
     (1700000000700, TimerFires 0);
     (1700000000800, Message (Some (postEvent 1700000000000800 (js "Third"))))] in
  exists st,
    run events (initial 1700000000000 MooseCache.empty) = Some st
    /\ concat (sent st) ++ postBatch st = accepted events.
Proof.
  cbv zeta. eexists. split; [reflexivity|].
  apply (posts_conserved _ 1700000000000 MooseCache.empty). reflexivity.
Defined.

Lemma sent_batches_sized_witness :
  let st := onClose 1700000000200
              (onMessage 1700000000100
                 (Some (postEvent 1700000000000100 (js "Moose in the sky")))
                 (initial 1700000000000 MooseCache.empty)) in
  Forall (fun batch => (1 <= length batch <= BATCH_SIZE)%nat) (sent st).
Proof.
  apply (sent_batches_sized _).
  apply (reachable_step _ 1700000000200 Close _
           (reachable_step _ 1700000000100
              (Message (Some (postEvent 1700000000000100 (js "Moose in the sky")))) _
              (reachable_initial 1700000000000 MooseCache.empty) eq_refl)
           eq_refl).
Defined.

Lemma close_then_resume_witness :
  let st := onMessage 1700000000100
              (Some (postEvent 1700000000000100 (js "Moose in the sky")))
              (initial 1700000000000 MooseCache.empty) in
  let now := 1700000000200 in
  let later := 1700000600000 in
  let st' := onClose now st in
  let rerun := start later (initial later (cache st')) in
  (postBatch st' = [] /\ batchTimer st' = None /\ timeouts st' = []
   /\ concat (sent st') = concat (sent st) ++ postBatch st)
  /\ connectUrl (connect st')
     = (if 0 <? currentCursor st
        then JETSTREAM_BASE_URL ++ js "&cursor=" ++ numToString (currentCursor st)
        else JETSTREAM_BASE_URL)
  /\ (0 < currentCursor st -> MooseCache.down (cache st) = None ->
      (later < now + 7 * 24 * 60 * 60 * 1000 ->
       currentCursor rerun = currentCursor st)
      /\ (now + 7 * 24 * 60 * 60 * 1000 <= later ->
          currentCursor rerun = (later - 24 * 60 * 60 * 1000) * 1000))
  /\ (currentCursor st <= 0 \/ MooseCache.down (cache st) <> None ->
      cache st' = cache st)
  /\ (MooseCache.down (cache st) <> None ->
      currentCursor rerun = (later - 24 * 60 * 60 * 1000) * 1000).
Proof.
  apply (close_then_resume
           (onMessage 1700000000100
              (Some (postEvent 1700000000000100 (js "Moose in the sky")))
              (initial 1700000000000 MooseCache.empty))
           1700000000200 1700000600000).
  apply (reachable_step _ 1700000000100
           (Message (Some (postEvent 1700000000000100 (js "Moose in the sky")))) _
           (reachable_initial 1700000000000 MooseCache.empty) eq_refl).
Defined.

Lemma cursor_saved_every_1000th_witness :
  let st := connect (initial 1700000000000 MooseCache.empty) in
  let messages := repeat (1700000000100, Some (identityEvent 1700000000000100)) 999 in
  let msg := identityEvent 1700000000000900 in
  (forall n, cache (handleAll (firstn n messages) st) = cache st)
  /\ cache (handleAll (messages ++ [(1700000000900, Some msg)]) st)
     = saveCursor 1700000000900 (time_us msg) (cache st)
  /\ messageCount (handleAll (messages ++ [(1700000000900, Some msg)]) st) mod 1000 = 0.
Proof.
  apply (cursor_saved_every_1000th
           (repeat (1700000000100, Some (identityEvent 1700000000000100)) 999)
           1700000000900 (identityEvent 1700000000000900)
           (connect (initial 1700000000000 MooseCache.empty)));
    [vm_compute; reflexivity | discriminate].
Defined.


Lemma extractWords_tokens_fixed_witness :
  let text := js "Caf" ++ [233] ++ js " #Moose @sky.example https://x.example/a" in
  (forall word, List.In word (extractWords sampleLower text) ->
                extractWords sampleLower word = [word])
  /\ flat_map (extractWords sampleLower) (extractWords sampleLower text)
     = extractWords sampleLower text.
Proof.
  apply (extractWords_tokens_fixed sampleLower sampleLower_lower).
Defined.

Lemma timeouts_follow_posts_witness :
  let events :=
    [(1700000000100, Message (Some (postEvent 1700000000000100 (js "Moose in the sky"))))] in
  exists data post,
    List.In (1700000000600 - BATCH_INTERVAL_MS, Message data) events
    /\ parseJetStreamMessage data = Some post.
Proof.
  apply (timeouts_follow_posts _ 1700000000000 MooseCache.empty
           (onMessage 1700000000100
              (Some (postEvent 1700000000000100 (js "Moose in the sky")))
              (initial 1700000000000 MooseCache.empty))
           0%nat 1700000000600);
    [reflexivity | vm_compute; left; reflexivity].
Defined.

Lemma default_window_misses_cache_witness :
  let now := 1700003600000 in
  let now' := 1700003601000 in
  let store := Table [{| Trends.word := js "moose"; interval := 1700003500;
                         totalCount := 3 |}] in
  (forall req,
     q_from req = None -> q_to req = None ->
     (search sampleLower store (search sampleLower store MooseCache.empty now req).2
             now' req).1
     = (search sampleLower store MooseCache.empty now' req).1)
  /\ (forall req,
        q_cfrom req = None -> q_cto req = None ->
        (compare sampleLower store
                 (compare sampleLower store MooseCache.empty now req).2 now' req).1
        = (compare sampleLower store MooseCache.empty now' req).1).
Proof.
  apply (default_window_misses_cache sampleLower
           (Table [{| Trends.word := js "moose"; interval := 1700003500;
                      totalCount := 3 |}])
           (Table [{| Trends.word := js "moose"; interval := 1700003500;
                      totalCount := 3 |}])
           MooseCache.empty 1700003600000 1700003601000);
    [lia | | | | ]; split; apply Z.leb_le; reflexivity.
Defined.

Lemma feed_post_interval_witness :
  let msg := postEvent 1709210096789123 (js "Moose in the sky") in
  let r := {| intervalTimestamp := 1709210090000; Transforms.word := js "moose";
              count := 1 |} in
  let received := Z.quot (time_us msg) 1000 in
  intervalTimestamp r <= received < intervalTimestamp r + 10000
  /\ (intervalTimestamp r + 0) mod 10000 = 0
  /\ exists c rec,
       commit msg = Some c /\ record c = Some rec
       /\ List.In (Transforms.word r) (extractWords sampleLower (record_text rec)).
Proof.
  apply (feed_post_interval 0 sampleLower
           (postEvent 1709210096789123 (js "Moose in the sky"))
           {| postId := js "at://did:plc:ewvi7nxzyoun6zhxrhs64oiz/app.bsky.feed.post/3kmxvqzhd2s2a";
              text := js "Moose in the sky";
              createdAt := 1709210096789;
              authorDid := js "did:plc:ewvi7nxzyoun6zhxrhs64oiz" |}
           {| intervalTimestamp := 1709210090000; Transforms.word := js "moose";
              count := 1 |});
    [reflexivity | intros [_ H]; revert H; apply Z.lt_nge; reflexivity
     | vm_compute; left; reflexivity].
Defined.

Lemma legacy_queue_invariant_witness :
  let st := Legacy.queueMany 1700000000100 3 (initial 1700000000000 MooseCache.empty) in
  (length (postBatch st) < Legacy.BATCH_SIZE)%nat
  /\ (length (timeouts st) <= 1)%nat
  /\ (postBatch st <> [] ->
      exists h due, batchTimer st = Some h /\ timeouts st = [(h, due)])
  /\ Forall (fun batch => (1 <= length batch <= Legacy.BATCH_SIZE)%nat) (sent st).
Proof.
  apply (legacy_queue_invariant
           (Legacy.queueMany 1700000000100 3 (initial 1700000000000 MooseCache.empty))).
  apply legacy_reachable_queueMany. apply Legacy.reachable_initial.
Defined.

Lemma legacy_size_flush_rearms_timer_witness :
  let st := Legacy.queueMany 1700000000100 99 (initial 1700000000000 MooseCache.empty) in
  let st' := Legacy.queuePost 1700000000200 (samplePost 100) st in
  sent st' = sent st ++ [postBatch st ++ [samplePost 100]]
  /\ postBatch st' = []
  /\ exists h,
       batchTimer st' = Some h
       /\ timeouts st' = [(h, 1700000000200 + Legacy.BATCH_INTERVAL_MS)]
       /\ exists st'',
            Legacy.onTimer 1700000001200 h st' = Some st''
            /\ sent st'' = sent st' /\ postBatch st'' = []
            /\ batchTimer st'' = None /\ timeouts st'' = [].
Proof.
  apply (legacy_size_flush_rearms_timer
           (Legacy.queueMany 1700000000100 99 (initial 1700000000000 MooseCache.empty))
           1700000000200 1700000001200 (samplePost 100)).
  - apply legacy_reachable_queueMany. apply Legacy.reachable_initial.
  - vm_compute. reflexivity.
  - vm_compute. discriminate.
Defined.

End Instances.
